(** * Customer importer: email validation, domain aggregation and export

    A shallow embedding of the Go packages [customerimporter] and
    [exporter] and of the library functions they call ([strings.TrimSpace],
    [strings.Cut], [strings.Contains], [cmp.Compare], [slices.SortFunc],
    [csv.Reader.Read], [csv.Writer.Write] over [bufio.Writer] and
    [os.File], [strconv.FormatUint], [flag.Parse]), and of the program
    [main], followed by the properties of the pipeline. *)

From Stdlib Require Import ZArith NArith Ascii String List Lia Bool.
From Stdlib Require Import DecimalString.
From stdpp Require Import gmap strings list fin_maps sorting.

Open Scope Z_scope.

(** ** Go strings

    A Go [string] is a sequence of bytes.  String literals of the source
    are written as Rocq string literals and read as byte sequences. *)

Abbreviation str := (list ascii).

Definition lit (s : string) : str := list_ascii_of_string s.
Coercion lit : string >-> list.

Definition code (b : ascii) : N := N_of_ascii b.

(** The separator byte of [strings.Cut(email, "@")]. *)
Definition at_sign : ascii := "@"%char.

Module unicode.

(** [unicode.IsSpace(r)]: the switch on the Latin-1 code points, then the
    [White_Space] table. *)
Definition IsSpace (r : N) : bool :=
  (if r <=? 0xFF
   then (9 <=? r) && (r <=? 13) || (r =? 0x20) || (r =? 0x85) || (r =? 0xA0)
   else (r =? 0x1680) || (0x2000 <=? r) && (r <=? 0x200A) || (r =? 0x2028)
        || (r =? 0x2029) || (r =? 0x202F) || (r =? 0x205F) || (r =? 0x3000))%N.

End unicode.

Module utf8.

Definition byte (n : N) : ascii := ascii_of_N (n mod 256).

(** [utf8.AppendRune]: the UTF-8 encoding of a rune, surrogates aside. *)
Definition EncodeRune (r : N) : str :=
  (if r <=? 0x7F then [byte r]
   else if r <=? 0x7FF then
     [byte (N.lor 0xC0 (N.shiftr r 6)); byte (N.lor 0x80 (N.land r 0x3F))]
   else if r <=? 0xFFFF then
     [byte (N.lor 0xE0 (N.shiftr r 12));
      byte (N.lor 0x80 (N.land (N.shiftr r 6) 0x3F));
      byte (N.lor 0x80 (N.land r 0x3F))]
   else
     [byte (N.lor 0xF0 (N.shiftr r 18));
      byte (N.lor 0x80 (N.land (N.shiftr r 12) 0x3F));
      byte (N.lor 0x80 (N.land (N.shiftr r 6) 0x3F));
      byte (N.lor 0x80 (N.land r 0x3F))])%N.

(** A rune decoded from a string satisfies [unicode.IsSpace] exactly when
    the bytes at that place are the UTF-8 encoding of a white-space code
    point, of one, two or three bytes.  The three predicates below
    recognise these encodings: U+0009..U+000D and U+0020; U+0085 and
    U+00A0; U+1680, U+2000..U+200A, U+2028, U+2029, U+202F, U+205F and
    U+3000. *)

Definition isSpace1 (b0 : ascii) : bool :=
  ((9 <=? code b0) && (code b0 <=? 13) || (code b0 =? 32))%N.

Definition isSpace2 (b0 b1 : ascii) : bool :=
  ((code b0 =? 0xC2) && ((code b1 =? 0x85) || (code b1 =? 0xA0)))%N.

Definition isSpace3 (b0 b1 b2 : ascii) : bool :=
  ((code b0 =? 0xE1) && (code b1 =? 0x9A) && (code b2 =? 0x80)
   || (code b0 =? 0xE2) && (code b1 =? 0x80)
      && ((0x80 <=? code b2) && (code b2 <=? 0x8A)
          || (code b2 =? 0xA8) || (code b2 =? 0xA9) || (code b2 =? 0xAF))
   || (code b0 =? 0xE2) && (code b1 =? 0x81) && (code b2 =? 0x9F)
   || (code b0 =? 0xE3) && (code b1 =? 0x80) && (code b2 =? 0x80))%N.

End utf8.

Module strings.

(** *** Trimming

    [TrimLeftFunc] walks the runes of the string from the left and
    [TrimRightFunc] from the right, dropping runes while the predicate
    holds.  The walk is written once, over three recognisers of an encoded
    rune of one, two and three bytes; the walk from the right runs it over
    the reversed string with the recognisers mirrored. *)

Section Trim.
Variable p1 : ascii -> bool.
Variable p2 : ascii -> ascii -> bool.
Variable p3 : ascii -> ascii -> ascii -> bool.

(** The string after its first rune, when that rune satisfies the
    predicate. *)
Definition leadRune (s : str) : option str :=
  match s with
  | [] => None
  | b0 :: s1 =>
      if p1 b0 then Some s1 else
      match s1 with
      | [] => None
      | b1 :: s2 =>
          if p2 b0 b1 then Some s2 else
          match s2 with
          | [] => None
          | b2 :: s3 => if p3 b0 b1 b2 then Some s3 else None
          end
      end
  end.

(** The string without its leading runes that satisfy the predicate. *)
Fixpoint trimLeading (s : str) : str :=
  match s with
  | [] => []
  | b0 :: s1 =>
      if p1 b0 then trimLeading s1 else
      match s1 with
      | [] => s
      | b1 :: s2 =>
          if p2 b0 b1 then trimLeading s2 else
          match s2 with
          | [] => s
          | b2 :: s3 => if p3 b0 b1 b2 then trimLeading s3 else s
          end
      end
  end.

End Trim.

Definition TrimLeftSpace (s : str) : str :=
  trimLeading utf8.isSpace1 utf8.isSpace2 utf8.isSpace3 s.

Definition TrimRightSpace (s : str) : str :=
  rev (trimLeading utf8.isSpace1
         (fun b1 b0 => utf8.isSpace2 b0 b1)
         (fun b2 b1 b0 => utf8.isSpace3 b0 b1 b2) (rev s)).

(** [strings.TrimSpace(s)], that is [TrimFunc(s, unicode.IsSpace)]:
    [TrimRightFunc(TrimLeftFunc(s, f), f)]. *)
Definition TrimSpace (s : str) : str := TrimRightSpace (TrimLeftSpace s).

(** *** Searching *)

Fixpoint HasPrefix (s prefix : str) {struct prefix} : bool :=
  match prefix, s with
  | [], _ => true
  | _ :: _, [] => false
  | c :: prefix', b :: s' => if Ascii.eqb b c then HasPrefix s' prefix' else false
  end.

(** [strings.Index(s, substr)]: the index of the first instance of
    [substr] in [s], or -1. *)
Fixpoint Index (s substr : str) : Z :=
  if HasPrefix s substr then 0 else
  match s with
  | [] => -1
  | _ :: s' => let i := Index s' substr in if i <? 0 then -1 else i + 1
  end.

Definition Contains (s substr : str) : bool := 0 <=? Index s substr.

(** [strings.Cut(s, sep)] returns [before, after, found]. *)
Definition Cut (s sep : str) : str * str * bool :=
  let i := Index s sep in
  if 0 <=? i
  then (take (Z.to_nat i) s, drop (Z.to_nat i + length sep) s, true)
  else (s, [], false).

(** [strings.IndexAny(s, chars)] for ASCII [chars]: the index of the first
    byte of [s] that is one of [chars], or -1. *)
Fixpoint IndexAny (s chars : str) : Z :=
  match s with
  | [] => -1
  | b :: s' =>
      if existsb (Ascii.eqb b) chars then 0
      else let i := IndexAny s' chars in if i <? 0 then -1 else i + 1
  end.

(** [strings.Count(s, "@")], used to state properties only. *)
Definition CountByte (c : ascii) (s : str) : nat :=
  length (filter (fun b => b = c) s).

End strings.

(** ** Library packages used by the importer and the exporter *)

Module strconv.

(** [strconv.FormatUint(v, 10)] and the [%d] verb of [fmt]. *)
Definition FormatUint (v : Z) : str :=
  lit (NilZero.string_of_uint (N.to_uint (Z.to_N v))).

Definition Itoa (v : Z) : str :=
  if v <? 0 then "-"%char :: FormatUint (- v) else FormatUint v.

(** [strconv.ParseBool(str)]. *)
Definition ParseBool (s : str) : option bool :=
  if bool_decide (s ∈ [lit "1"; lit "t"; lit "T"; lit "TRUE"; lit "true"; lit "True"])
  then Some true
  else if bool_decide (s ∈ [lit "0"; lit "f"; lit "F"; lit "FALSE"; lit "false";
                            lit "False"])
  then Some false
  else None.

End strconv.

Module cmp.

(** [cmp.Compare(x, y)] on strings: -1, 0 or +1 by the byte-wise
    lexicographic order. *)
Fixpoint Compare (x y : str) : Z :=
  match x, y with
  | [], [] => 0
  | [], _ :: _ => -1
  | _ :: _, [] => 1
  | a :: x', b :: y' =>
      if (code a <? code b)%N then -1
      else if (code b <? code a)%N then 1
      else Compare x' y'
  end.

End cmp.

Module slices.

(** [slices.SortFunc(x, cmp)] sorts in ascending order as determined by
    [cmp]; the sort is not stable.  The library runs a pattern-defeating
    quicksort that finishes short ranges by insertion sort
    ([insertionSortCmpFunc]); the model is that insertion sort: each element
    in turn moves left past the elements it compares below. *)
Section SortFunc.
Context {E : Type}.
Variable cmp : E -> E -> Z.

(** Place [x] in the sorted prefix [l]. *)
Fixpoint insertCmp (x : E) (l : list E) : list E :=
  match l with
  | [] => [x]
  | y :: l' => if cmp x y <? 0 then x :: l else y :: insertCmp x l'
  end.

Definition SortFunc (x : list E) : list E :=
  fold_left (fun sorted e => insertCmp e sorted) x [].

End SortFunc.

End slices.

Module csv.

(** The errors that a [csv.ParseError] wraps. *)
Inductive parseErr := ErrBareQuote | ErrQuote | ErrFieldCount.

(** [csv.ParseError]: the line where the record starts, the line and the
    column where the error is, and the error. *)
Record ParseError := { StartLine : Z; Line : Z; Column : Z; Err : parseErr }.

(** What [csv.Reader.readRecord] decodes from the next non-empty line(s)
    of the file, before the check on the number of fields: a record, with
    the line where it starts ([recLine]: empty lines are skipped but
    counted, and a quoted field may hold line breaks), or a failure, which
    is a [csv.ParseError] for a bare or unterminated quote or an error of
    the underlying reader.  A file is the sequence of these up to the end
    of input. *)
Inductive rawRecord :=
| Parsed (line : Z) (fields : list str)
| Failed (e : ParseError)
| Broken (msg : str).

(** Errors returned by [Read]: [io.EOF], a [*csv.ParseError], or the error
    of the underlying reader as it is. *)
Inductive readError :=
| EOF
| Parse (e : ParseError)
| ReaderError (msg : str).

Definition doubleQuote : ascii := ascii_of_nat 34.

Definition parseErrText (e : parseErr) : str :=
  match e with
  | ErrBareQuote => lit "bare " ++ doubleQuote :: lit " in non-quoted-field"
  | ErrQuote => lit "extraneous or missing " ++ doubleQuote :: lit " in quoted-field"
  | ErrFieldCount => "wrong number of fields"
  end.

(** [func (e *ParseError) Error() string]. *)
Definition ParseErrorText (e : ParseError) : str :=
  match Err e with
  | ErrFieldCount =>
      lit "record on line " ++ strconv.Itoa (Line e) ++ lit ": "
        ++ parseErrText (Err e)
  | _ =>
      if negb (StartLine e =? Line e) then
        lit "record on line " ++ strconv.Itoa (StartLine e)
          ++ lit "; parse error on line " ++ strconv.Itoa (Line e)
          ++ lit ", column " ++ strconv.Itoa (Column e) ++ lit ": "
          ++ parseErrText (Err e)
      else
        lit "parse error on line " ++ strconv.Itoa (Line e)
          ++ lit ", column " ++ strconv.Itoa (Column e) ++ lit ": "
          ++ parseErrText (Err e)
  end.

Definition readErrorText (e : readError) : str :=
  match e with
  | EOF => "EOF"
  | Parse pe => ParseErrorText pe
  | ReaderError msg => msg
  end.

(** [csv.Reader]: the rest of the input and [FieldsPerRecord].
    [csv.NewReader] leaves [FieldsPerRecord] at 0, so that the number of
    fields of the first record becomes the number required of every
    later record. *)
Record Reader := { FieldsPerRecord : Z; input : list rawRecord }.

Definition NewReader (file : list rawRecord) : Reader :=
  {| FieldsPerRecord := 0; input := file |}.

(** The check or update of the expected number of fields at the end of
    [readRecord]: the record, the error and the new [FieldsPerRecord].  A
    record with another number of fields than expected gives a
    [ParseError] at the line where the record starts, column 1.  A failure
    of the decoding is passed on; the callers here stop at the first error,
    so what the reader holds after one is never used. *)
Definition readRecord (fpr : Z) (raw : rawRecord)
  : list str * option readError * Z :=
  match raw with
  | Failed e => ([], Some (Parse e), fpr)
  | Broken msg => ([], Some (ReaderError msg), fpr)
  | Parsed recLine dst =>
      if 0 <? fpr then
        if negb (Z.of_nat (length dst) =? fpr)
        then (dst,
              Some (Parse {| StartLine := recLine; Line := recLine; Column := 1;
                             Err := ErrFieldCount |}),
              fpr)
        else (dst, None, fpr)
      else if fpr =? 0 then (dst, None, Z.of_nat (length dst))
      else (dst, None, fpr)
  end.

(** [func (r *Reader) Read() (record []string, err error)]. *)
Definition Read (r : Reader) : list str * option readError * Reader :=
  match input r with
  | [] => ([], Some EOF, r)
  | raw :: rest =>
      let '(record, err, fpr) := readRecord (FieldsPerRecord r) raw in
      (record, err, {| FieldsPerRecord := fpr; input := rest |})
  end.

End csv.

Module os.

(** [*fs.PathError], returned by [os.Open] and [os.Create]. *)
Record PathError := { Op : str; Path : str; Err : str }.

(** The files [os.Open] can open, by path, each with what the CSV reader
    decodes from it. *)
Abbreviation SourceFiles := (gmap str (list csv.rawRecord)).

(** [os.Open(name)]: the empty path and a path without a file fail. *)
Definition Open (fs : SourceFiles) (name : str)
  : list csv.rawRecord + PathError :=
  let notFound :=
    {| Op := "open"; Path := name; Err := "no such file or directory" |} in
  match name with
  | [] => inr notFound
  | _ =>
      match fs !! name with
      | Some file => inl file
      | None => inr notFound
      end
  end.

(** The file system [os.Create] writes to: the content of each file, the
    paths at which [os.Create] fails (a missing directory, a path that may
    not be written), and the faults of the device: for a path, the number
    of bytes that a file created there takes before a write to it fails,
    with the text of the error, or [None] when no write to it fails. *)
Record FileSystem := {
  files : gmap str str;
  refused : str -> bool;
  writeFault : str -> option (nat * str)
}.

(** [*os.File], open for writing: its name, what has been written to it
    since it was created, and the fault that awaits its writes. *)
Record File := {
  name : str;
  written : str;
  fault : option (nat * str)
}.

(** [os.Create(name)] creates or truncates the named file. *)
Definition Create (fs : FileSystem) (name : str) : File + PathError :=
  let failed :=
    {| Op := "open"; Path := name; Err := "no such file or directory" |} in
  match name with
  | [] => inr failed
  | _ =>
      if refused fs name then inr failed
      else inl {| name := name; written := []; fault := writeFault fs name |}
  end.

(** [func (f *File) Write(b []byte) (n int, err error)]: the bytes are
    appended to the file; at the fault the write stops short, with an
    error. *)
Definition Write (f : File) (b : str) : File * nat * option PathError :=
  match fault f with
  | None =>
      ({| name := name f; written := written f ++ b; fault := None |}, length b, None)
  | Some (room, msg) =>
      if (length b <=? room)%nat then
        ({| name := name f; written := written f ++ b;
            fault := Some ((room - length b)%nat, msg) |}, length b, None)
      else
        ({| name := name f; written := written f ++ take room b;
            fault := Some (0%nat, msg) |}, room,
         Some {| Op := "write"; Path := name f; Err := msg |})
  end.

(** The file system once the file is closed: the file is there with what
    was written to it. *)
Definition Close (fs : FileSystem) (f : File) : FileSystem :=
  {| files := <[name f := written f]> (files fs);
     refused := refused fs;
     writeFault := writeFault fs |}.

End os.

Module io.

(** The errors of writers: [io.ErrShortWrite] and the error of a write to
    a file. *)
Inductive error :=
| ErrShortWrite
| FileError (e : os.PathError).

Definition errorText (e : error) : str :=
  match e with
  | ErrShortWrite => "short write"
  | FileError pe => os.Op pe ++ lit " " ++ os.Path pe ++ lit ": " ++ os.Err pe
  end.

(** [io.Writer], and whether the writer is an [io.StringWriter] as well,
    whose [WriteString] then does what [Write] does. *)
Class Writer (W : Type) := {
  Write : W -> str -> W * nat * option error;
  isStringWriter : bool
}.

(** [*os.File] is a writer. *)
#[global] Instance FileWriter : Writer os.File := {|
  Write f b := let '(f, n, err) := os.Write f b in (f, n, option_map FileError err);
  isStringWriter := true
|}.

End io.

Module bufio.

Definition defaultBufSize : nat := 4096.

(** [bufio.Writer] over a writer [wr]: the sticky error, and the bytes that
    are in the buffer, which has room for [defaultBufSize] of them. *)
Record Writer (W : Type) := { err : option io.error; buf : str; wr : W }.
Arguments err {W} _.
Arguments buf {W} _.
Arguments wr {W} _.

Section Writer.
Context {W : Type} {output : io.Writer W}.

Definition NewWriter (w : W) : Writer W := {| err := None; buf := []; wr := w |}.

Definition Available (b : Writer W) : nat := defaultBufSize - length (buf b).

Definition Buffered (b : Writer W) : nat := length (buf b).

(** [func (b *Writer) Flush() error]. *)
Definition Flush (b : Writer W) : Writer W * option io.error :=
  match err b with
  | Some e => (b, Some e)
  | None =>
      match buf b with
      | [] => (b, None)
      | _ =>
          let '(wr', n, e) := io.Write (wr b) (buf b) in
          let e :=
            match e with
            | None => if (n <? length (buf b))%nat then Some io.ErrShortWrite else None
            | Some e => Some e
            end in
          match e with
          | Some e => ({| err := Some e; buf := drop n (buf b); wr := wr' |}, Some e)
          | None => ({| err := None; buf := []; wr := wr' |}, None)
          end
      end
  end.

(** A call that passes the error on to its caller, as in
    [if err != nil { return err }]. *)
Definition andThen (r : Writer W * option io.error)
    (next : Writer W -> Writer W * option io.error) : Writer W * option io.error :=
  match r with
  | (b, Some e) => (b, Some e)
  | (b, None) => next b
  end.

(** [func (b *Writer) WriteByte(c byte) error]. *)
Definition WriteByte (b : Writer W) (c : ascii) : Writer W * option io.error :=
  match err b with
  | Some e => (b, Some e)
  | None =>
      let '(b, flushed) :=
        if (Available b <=? 0)%nat then Flush b else (b, None) in
      match flushed with
      | Some _ => (b, err b)
      | None => ({| err := err b; buf := buf b ++ [c]; wr := wr b |}, None)
      end
  end.

(** The loop of [Write] and of [WriteString]: while the bytes do not fit
    in the buffer and no error has occurred, they go to the underlying
    writer at once when the buffer is empty and [direct] holds, and fill
    the buffer, which is flushed, otherwise.  What is left of the bytes is
    returned.  Each pass but the first takes bytes away, so that the loop
    ends within [fuel] passes when [fuel] exceeds their number by one. *)
Fixpoint writeLoop (direct : bool) (fuel : nat) (b : Writer W) (s : str)
  : Writer W * str :=
  if (Available b <? length s)%nat && bool_decide (err b = None) then
    match fuel with
    | O => (b, s)
    | S fuel =>
        if (Buffered b =? 0)%nat && direct then
          let '(wr', n, e) := io.Write (wr b) s in
          writeLoop direct fuel {| err := e; buf := buf b; wr := wr' |} (drop n s)
        else
          let n := Nat.min (Available b) (length s) in
          let b := {| err := err b; buf := buf b ++ take n s; wr := wr b |} in
          writeLoop direct fuel (fst (Flush b)) (drop n s)
    end
  else (b, s).

Definition writeBytes (direct : bool) (b : Writer W) (s : str)
  : Writer W * option io.error :=
  let '(b, s) := writeLoop direct (S (S (length s))) b s in
  match err b with
  | Some e => (b, Some e)
  | None => ({| err := None; buf := buf b ++ s; wr := wr b |}, None)
  end.

(** [func (b *Writer) Write(p []byte) (nn int, err error)]. *)
Definition Write (b : Writer W) (p : str) : Writer W * option io.error :=
  writeBytes true b p.

(** [func (b *Writer) WriteString(s string) (int, error)]. *)
Definition WriteString (b : Writer W) (s : str) : Writer W * option io.error :=
  writeBytes io.isStringWriter b s.

(** [func (b *Writer) WriteRune(r rune) (size int, err error)]. *)
Definition WriteRune (b : Writer W) (r : N) : Writer W * option io.error :=
  if (r <? 0x80)%N then WriteByte b (utf8.byte r) else
  match err b with
  | Some e => (b, Some e)
  | None =>
      if (Available b <? 4)%nat then
        let b := fst (Flush b) in
        match err b with
        | Some e => (b, Some e)
        | None =>
            if (Available b <? 4)%nat then WriteString b (utf8.EncodeRune r)
            else
              ({| err := None; buf := buf b ++ utf8.EncodeRune r; wr := wr b |}, None)
        end
      else ({| err := None; buf := buf b ++ utf8.EncodeRune r; wr := wr b |}, None)
  end.

End Writer.

End bufio.

Module slog.

Inductive Level := LevelDebug | LevelInfo | LevelWarn | LevelError.

Definition levelValue (l : Level) : Z :=
  match l with
  | LevelDebug => -4
  | LevelInfo => 0
  | LevelWarn => 4
  | LevelError => 8
  end.

Inductive Value :=
| IntValue (n : Z)
| StringValue (s : str).

(** A log record: level, message and key/value attributes. *)
Record Record_ := { RLevel : Level; Message : str; Attrs : list (str * Value) }.

(** The default logger: the minimum level of its handler, or no sink at
    all (a handler that discards every record).  [out] is what the handler
    has written so far. *)
Definition Logger := option Level.

Definition log (lg : Logger) (out : list Record_) (r : Record_) : list Record_ :=
  match lg with
  | None => out
  | Some level =>
      if levelValue level <=? levelValue (RLevel r) then out ++ [r] else out
  end.

Definition Info (lg : Logger) (out : list Record_) (msg : str)
    (attrs : list (str * Value)) : list Record_ :=
  log lg out {| RLevel := LevelInfo; Message := msg; Attrs := attrs |}.

Definition Error (lg : Logger) (out : list Record_) (msg : str)
    (attrs : list (str * Value)) : list Record_ :=
  log lg out {| RLevel := LevelError; Message := msg; Attrs := attrs |}.

End slog.

(** ** Go values shared by the packages *)

(** A slice value is [nil] or a sequence of elements. *)
Definition slice (A : Type) := option (list A).
Definition nil_slice {A : Type} : slice A := None.

(** [uint64] arithmetic wraps around. *)
Definition uint64 (z : Z) : Z := z mod 2 ^ 64.

(** The result of a call: it returns, or it panics (an index out of
    range). *)
Inductive outcome (A : Type) :=
| Returns (a : A)
| Panics.
Arguments Returns {A} a.
Arguments Panics {A}.

(** [for k, v := range m] visits the entries of a map in an order that is
    not specified and may change from one run to the next: an order is any
    rearrangement of the entries. *)
Record RangeOrder := {
  rangeOver : list (str * Z) -> list (str * Z);
  rangeOver_perm : forall l, rangeOver l ≡ₚ l
}.

(** ** Package customerimporter: the validator *)

Module customerimporter.

(** The errors of [validateEmail], one per [fmt.Errorf] of the function. *)
Inductive emailError :=
| EmptyInput
| MissingSeparator
| EmptyLocalPart
| EmptyDomain
| MultipleSeparators.

Definition emailErrorText (e : emailError) : str :=
  match e with
  | EmptyInput => "email address is empty"
  | MissingSeparator => "invalid email format: missing '@' separator"
  | EmptyLocalPart => "invalid email format: empty local part"
  | EmptyDomain => "invalid email format: empty domain"
  | MultipleSeparators => "invalid email format: multiple '@' symbols"
  end.

Definition isEmpty (s : str) : bool :=
  match s with [] => true | _ => false end.

(** [validateEmail(email) (domain string, err error)]. *)
Definition validateEmail (email : str) : str * option emailError :=
  let email := strings.TrimSpace email in
  if isEmpty email then ([], Some EmptyInput) else
  let '(local, dom, found) := strings.Cut email "@" in
  if negb found then ([], Some MissingSeparator) else
  if isEmpty (strings.TrimSpace local) then ([], Some EmptyLocalPart) else
  let dom := strings.TrimSpace dom in
  if isEmpty dom then ([], Some EmptyDomain) else
  if strings.Contains dom "@" then ([], Some MultipleSeparators) else
  (dom, None).



(** ** Package customerimporter: the aggregation *)

(** CSV column index for email field. *)
Definition emailColumnIndex : Z := 2.

Record DomainData := { Domain : str; CustomerQuantity : Z }.

Record CustomerImporter := { path : str }.

Definition NewCustomerImporter (filePath : str) : CustomerImporter :=
  {| path := filePath |}.

(** The errors [ImportDomainData] returns: the error of [os.Open], an error
    of [csvReader.Read] passed on as it is, and the two [fmt.Errorf] of the
    loop. *)
Inductive error :=
| OpenError (e : os.PathError)
| ReadError (e : csv.readError)
| InsufficientColumns (expected got : Z)
| InvalidEmail (e : emailError).

(** [err.Error()]. *)
Definition errorText (e : error) : str :=
  match e with
  | OpenError pe => os.Op pe ++ lit " " ++ os.Path pe ++ lit ": " ++ os.Err pe
  | ReadError re => csv.readErrorText re
  | InsufficientColumns expected got =>
      lit "invalid CSV format: expected at least " ++ strconv.Itoa expected
        ++ lit " columns, got " ++ strconv.Itoa got
  | InvalidEmail ee => lit "invalid email in CSV: " ++ emailErrorText ee
  end.

Definition progressInterval : Z := 10000.

(** The state of the read loop: the accumulation map, the row counter and
    the log written so far. *)
Record loopState := {
  data : gmap str Z;
  rowCount : Z;
  logged : list slog.Record_
}.

(** One pass of the loop body on a record that was read without error:
    the new state, or the error the function returns with, and the log. *)
Definition processRecord (lg : slog.Logger) (line : list str) (st : loopState)
  : outcome (loopState + error) * list slog.Record_ :=
  let rowCount := uint64 (rowCount st + 1) in
  let logged :=
    if rowCount mod progressInterval =? 0
    then slog.Info lg (logged st) "processing"
           [(lit "rows", slog.IntValue rowCount);
            (lit "unique_domains", slog.IntValue (Z.of_nat (size (data st))))]
    else logged st in
  if Z.of_nat (length line) <=? emailColumnIndex
  then (Returns (inr (InsufficientColumns (emailColumnIndex + 1)
                        (Z.of_nat (length line)))), logged)
  else
    match line !! Z.to_nat emailColumnIndex with
    | None => (Panics, logged)
    | Some email =>
        match validateEmail email with
        | (_, Some err) => (Returns (inr (InvalidEmail err)), logged)
        | (domain, None) =>
            let count := uint64 (default 0 (data st !! domain) + 1) in
            (Returns (inl {| data := <[domain := count]> (data st);
                             rowCount := rowCount;
                             logged := logged |}), logged)
        end
    end.

(** [for line, readErr := csvReader.Read(); readErr != io.EOF;
    line, readErr = csvReader.Read() { ... }], the reader being at
    [rows] with [fpr] fields per record.  The loop ends with the state at
    the end of input, or with the first error. *)
Fixpoint readLoop (lg : slog.Logger) (fpr : Z) (rows : list csv.rawRecord)
    (st : loopState) : outcome (loopState + error) * list slog.Record_ :=
  match rows with
  | [] => (Returns (inl st), logged st)
  | raw :: rest =>
      match csv.readRecord fpr raw with
      | (_, Some readErr, _) => (Returns (inr (ReadError readErr)), logged st)
      | (line, None, fpr') =>
          match processRecord lg line st with
          | (Returns (inl st'), _) => readLoop lg fpr' rest st'
          | stop => stop
          end
      end
  end.

(** The slice built from the map and sorted by domain. *)
Definition sortedDomains (ord : RangeOrder) (data : gmap str Z) : list DomainData :=
  let domainData :=
    map (fun kv => {| Domain := fst kv; CustomerQuantity := snd kv |})
      (rangeOver ord (map_to_list data)) in
  slices.SortFunc (fun l r => cmp.Compare (Domain l) (Domain r)) domainData.

(** [func (ci CustomerImporter) ImportDomainData() ([]DomainData, error)],
    with the default logger [lg], the iteration order [ord] of the map and
    the files [fs]: the returned pair and the log written. *)
Definition ImportDomainData (lg : slog.Logger) (ord : RangeOrder)
    (fs : os.SourceFiles) (ci : CustomerImporter)
  : outcome (slice DomainData * option error) * list slog.Record_ :=
  match os.Open fs (path ci) with
  | inr err => (Returns (nil_slice, Some (OpenError err)), [])
  | inl file =>
      let csvReader := csv.NewReader file in
      let '(_, readErr, csvReader) := csv.Read csvReader in
      match readErr with
      | Some readErr =>
          (Returns (nil_slice, Some (ReadError readErr)),
           slog.Error lg [] "failed to read CSV header"
             [(lit "error", slog.StringValue (csv.readErrorText readErr))])
      | None =>
          match readLoop lg (csv.FieldsPerRecord csvReader) (csv.input csvReader)
                  {| data := ∅; rowCount := 0; logged := [] |} with
          | (Panics, out) => (Panics, out)
          | (Returns (inr err), out) => (Returns (nil_slice, Some err), out)
          | (Returns (inl st), out) =>
              (Returns (Some (sortedDomains ord (data st)), None),
               slog.Info lg out "aggregation complete"
                 [(lit "total_rows", slog.IntValue (rowCount st));
                  (lit "unique_domains", slog.IntValue (Z.of_nat (size (data st))))])
          end
      end
  end.

End customerimporter.

(** ** Package exporter *)

Module exporter.

Import customerimporter.

Module csvw.

(** [csv.Writer.fieldNeedsQuotes] with the comma as delimiter. *)
Definition fieldNeedsQuotes (field : str) : bool :=
  match field with
  | [] => false
  | _ =>
      if decide (field = lit "\.") then true
      else if existsb (fun c => ((code c =? 10) || (code c =? 13) || (code c =? 34)
                                 || (code c =? 44))%N) field then true
      else match strings.leadRune utf8.isSpace1 utf8.isSpace2 utf8.isSpace3 field with
           | Some _ => true
           | None => false
           end
  end.

Definition quote : ascii := ascii_of_nat 34.

(** The bytes of a record, as [Write] sends them to its buffered writer: a
    quoted field has every quote doubled; the fields are separated by
    commas. *)
Definition quoted (field : str) : str :=
  quote :: flat_map (fun c => if Ascii.eqb c quote then [quote; quote] else [c]) field
    ++ [quote].

Definition writeField (field : str) : str :=
  if fieldNeedsQuotes field then quoted field else field.

Fixpoint writeFields (record : list str) : str :=
  match record with
  | [] => []
  | [field] => writeField field
  | field :: rest => writeField field ++ ","%char :: writeFields rest
  end.

Section Writer.
Context {W : Type} {output : io.Writer W}.

(** [csv.Writer]: its buffered writer.  [csv.NewWriter] sets [Comma] to the
    comma and leaves [UseCRLF] false. *)
Definition Writer := bufio.Writer W.

Definition NewWriter (w : W) : Writer := bufio.NewWriter w.

Definition Comma : N := 44.

Definition carriageReturn : ascii := ascii_of_nat 13.
Definition lineFeed : ascii := ascii_of_nat 10.

(** The loop of [Write] over a field that needs quotes: the bytes up to the
    next quote, carriage return or line feed are copied, and that byte is
    written, a quote twice.  Each pass takes bytes of the field away: the
    loop ends within [fuel] passes when [fuel] exceeds the length of the
    field. *)
Fixpoint writeQuoted (fuel : nat) (field : str) (w : Writer)
  : Writer * option io.error :=
  match fuel, field with
  | _, [] => (w, None)
  | O, _ => (w, None)
  | S fuel, _ =>
      let i := strings.IndexAny field [quote; carriageReturn; lineFeed] in
      let i := if i <? 0 then length field else Z.to_nat i in
      bufio.andThen (bufio.WriteString w (take i field)) (fun w =>
      match drop i field with
      | [] => (w, None)
      | c :: field =>
          bufio.andThen
            (if Ascii.eqb c quote then bufio.WriteString w [quote; quote]
             else if Ascii.eqb c carriageReturn then bufio.WriteByte w carriageReturn
             else if Ascii.eqb c lineFeed then bufio.WriteByte w lineFeed
             else (w, None))
            (writeQuoted fuel field)
      end)
  end.

(** One pass of the loop of [Write] over the fields, [n] being the index
    of the field. *)
Definition writeNth (n : nat) (field : str) (w : Writer) : Writer * option io.error :=
  bufio.andThen (if (0 <? n)%nat then bufio.WriteRune w Comma else (w, None)) (fun w =>
  if negb (fieldNeedsQuotes field) then bufio.WriteString w field
  else
    bufio.andThen (bufio.WriteByte w quote) (fun w =>
    bufio.andThen (writeQuoted (S (length field)) field w) (fun w =>
    bufio.WriteByte w quote))).

Fixpoint writeFrom (n : nat) (record : list str) (w : Writer)
  : Writer * option io.error :=
  match record with
  | [] => (w, None)
  | field :: rest => bufio.andThen (writeNth n field w) (writeFrom (S n) rest)
  end.

(** [func (w *Writer) Write(record []string) error]. *)
Definition Write (w : Writer) (record : list str) : Writer * option io.error :=
  bufio.andThen (writeFrom 0 record w) (fun w => bufio.WriteByte w lineFeed).

(** [func (w *Writer) Flush()]: the error of the flush is not returned. *)
Definition Flush (w : Writer) : Writer := fst (bufio.Flush w).

(** [func (w *Writer) Error() error], which is [w.w.Write(nil)]. *)
Definition Error (w : Writer) : Writer * option io.error := bufio.Write w [].

End Writer.

End csvw.

Record CustomerExporter := { outputPath : str }.

Definition NewCustomerExporter (outputPath : str) : CustomerExporter :=
  {| outputPath := outputPath |}.

(** The errors [ExportData] returns: its own two, and the error of
    [exportCsv] as it is. *)
Inductive exportError :=
| NilData
| CreateFailed (e : os.PathError)
| WriteFailed (e : io.error).

Definition exportErrorText (e : exportError) : str :=
  match e with
  | NilData => "provided data is empty (nil)"
  | CreateFailed pe =>
      lit "failed to create output file: " ++ os.Op pe ++ lit " " ++ os.Path pe
        ++ lit ": " ++ os.Err pe
  | WriteFailed we => io.errorText we
  end.

Section exportCsv.
Context {W : Type} {writer : io.Writer W}.

(** The loop of [exportCsv] over the entries. *)
Fixpoint writeEntries (data : list DomainData) (csvWriter : csvw.Writer)
  : csvw.Writer * option io.error :=
  match data with
  | [] => (csvWriter, None)
  | v :: rest =>
      let pair := [Domain v; strconv.FormatUint (CustomerQuantity v)] in
      bufio.andThen (csvw.Write csvWriter pair) (writeEntries rest)
  end.

(** [func exportCsv(data []DomainData, output io.Writer) error]: the error
    returned, and the writer [output] once the deferred [csvWriter.Flush()]
    has run.  The error of that flush is lost. *)
Definition exportCsv (data : list DomainData) (output : W) : option io.error * W :=
  let headers := [lit "domain"; lit "number_of_customers"] in
  let csvWriter := csvw.NewWriter output in
  let '(csvWriter, err) :=
    bufio.andThen (csvw.Write csvWriter headers) (fun csvWriter =>
    bufio.andThen (writeEntries data csvWriter) (fun csvWriter =>
    csvw.Error csvWriter)) in
  (err, bufio.wr (csvw.Flush csvWriter)).

End exportCsv.

(** [func (ex CustomerExporter) ExportData(data []DomainData) error]: the
    error returned, the file system and the log after the call.  The output
    file is closed when the function returns, and the error of [Close] is
    not looked at. *)
Definition ExportData (lg : slog.Logger) (ex : CustomerExporter)
    (data : slice DomainData) (fs : os.FileSystem) (out : list slog.Record_)
  : option exportError * os.FileSystem * list slog.Record_ :=
  match data with
  | None => (Some NilData, fs, out)
  | Some rows =>
      let out := slog.Info lg out "starting export"
                   [(lit "file", slog.StringValue (outputPath ex));
                    (lit "records", slog.IntValue (Z.of_nat (length rows)))] in
      match os.Create fs (outputPath ex) with
      | inr err => (Some (CreateFailed err), fs, out)
      | inl outputFile =>
          let '(err, outputFile) := exportCsv rows outputFile in
          let fs := os.Close fs outputFile in
          match err with
          | Some err => (Some (WriteFailed err), fs, out)
          | None =>
              (None, fs,
               slog.Info lg out "export written successfully"
                 [(lit "file", slog.StringValue (outputPath ex))])
          end
      end
  end.

End exporter.

(** ** Vocabulary of the properties *)

Import customerimporter.

(** The local part and the domain part of an address: the text before and
    after the first separator. *)
Definition localPart (s : str) : str := (strings.Cut s "@").1.1.
Definition domainPart (s : str) : str := (strings.Cut s "@").1.2.

(** A string that holds white-space runes only: the encodings of runes
    that satisfy [unicode.IsSpace], one after the other. *)
Inductive whitespaceOnly : str -> Prop :=
| ws_nil : whitespaceOnly []
| ws_rune r s :
    unicode.IsSpace r = true -> whitespaceOnly s ->
    whitespaceOnly (utf8.EncodeRune r ++ s).

(** Ascending order of two entries by domain, strict and large. *)
Definition domainLt (l r : DomainData) : Prop := cmp.Compare (Domain l) (Domain r) < 0.
Definition domainLe (l r : DomainData) : Prop := cmp.Compare (Domain l) (Domain r) <= 0.

(** The sum of the counts of a result. *)
Definition sumCounts (l : list DomainData) : Z :=
  foldr (fun d acc => CustomerQuantity d + acc) 0 l.

(** The sum of the counters of the accumulation map. *)
Definition total (m : gmap str Z) : Z :=
  foldr (fun kv acc => snd kv + acc) 0 (map_to_list m).

(** The error of the CSV reader for a record that starts at [line] and has
    another number of fields than the first record of the file. *)
Definition wrongFieldCount (line : Z) : error :=
  ReadError (csv.Parse {| csv.StartLine := line; csv.Line := line; csv.Column := 1;
                          csv.Err := csv.ErrFieldCount |}).

(** A reader error and a record without the lines that the reader counts:
    what is kept of the position of an error is its column and how far it
    is from the line where the record starts. *)
Definition unplaced (e : csv.ParseError) : csv.ParseError :=
  {| csv.StartLine := 0; csv.Line := csv.Line e - csv.StartLine e;
     csv.Column := csv.Column e; csv.Err := csv.Err e |}.

Definition recordContent (raw : csv.rawRecord) : csv.rawRecord :=
  match raw with
  | csv.Parsed _ fields => csv.Parsed 0 fields
  | csv.Failed e => csv.Failed (unplaced e)
  | csv.Broken msg => csv.Broken msg
  end.

(** The kind of an error: the error, without the lines of a reader error;
    and an outcome with the kind of its error. *)
Definition errorKind (e : error) : error :=
  match e with
  | ReadError (csv.Parse pe) => ReadError (csv.Parse (unplaced pe))
  | _ => e
  end.

Definition outcomeKind (r : outcome (slice DomainData * option error))
  : outcome (slice DomainData * option error) :=
  match r with
  | Returns (result, Some err) => Returns (result, Some (errorKind err))
  | _ => r
  end.

(** A data row that parses, has as many fields as the header ([n]), more
    than [emailColumnIndex] of them, and an address that validates. *)
Definition validRecord (n : nat) (raw : csv.rawRecord) : bool :=
  match raw with
  | csv.Failed _ | csv.Broken _ => false
  | csv.Parsed _ fields =>
      (length fields =? n)%nat && (2 <? length fields)%nat &&
      match fields !! 2%nat with
      | None => false
      | Some email =>
          match snd (validateEmail email) with
          | None => true
          | Some _ => false
          end
      end
  end.

(** What the loop computes apart from the log. *)
Definition stateCore (st : loopState) : gmap str Z * Z := (data st, rowCount st).

Definition loopCore (r : outcome (loopState + error))
  : outcome (gmap str Z * Z + error) :=
  match r with
  | Panics => Panics
  | Returns (inr err) => Returns (inr err)
  | Returns (inl st) => Returns (inl (stateCore st))
  end.

(** Two iteration orders of a map: as listed, and backwards. *)
Definition listedOrder : RangeOrder :=
  {| rangeOver := fun l => l; rangeOver_perm := fun l => Permutation_refl l |}.

Definition backwardOrder : RangeOrder :=
  {| rangeOver := fun l => rev l;
     rangeOver_perm := fun l => Permutation_sym (Permutation_rev l) |}.

(** *** Sample files *)

Definition header5 (line : Z) : csv.rawRecord :=
  csv.Parsed line [lit "first_name"; lit "last_name"; lit "email"; lit "gender";
              lit "ip_address"].
Definition header3 (line : Z) : csv.rawRecord :=
  csv.Parsed line [lit "first_name"; lit "last_name"; lit "email"].
Definition header2 (line : Z) : csv.rawRecord :=
  csv.Parsed line [lit "first_name"; lit "last_name"].
Definition header5' (line : Z) : csv.rawRecord :=
  csv.Parsed line [lit "a"; lit "b"; lit "c"; lit "d"; lit "e"].

Definition rowJane (line : Z) : csv.rawRecord :=
  csv.Parsed line [lit "Jane"; lit "Roe"; lit "jane@example.com"; lit "F"; lit "1.1.1.1"].
Definition rowBob (line : Z) : csv.rawRecord :=
  csv.Parsed line [lit "Bob"; lit "Lee"; lit "bob@example.com"; lit "M"; lit "2.2.2.2"].
Definition rowAnn (line : Z) : csv.rawRecord :=
  csv.Parsed line [lit "Ann"; lit "Fox"; lit "ann@acme.io"; lit "F"; lit "3.3.3.3"].
Definition rowJohnDoe (line : Z) : csv.rawRecord :=
  csv.Parsed line [lit "John"; lit "Doe"].
Definition rowJane3 (line : Z) : csv.rawRecord :=
  csv.Parsed line [lit "Jane"; lit "Roe"; lit "jane@example.com"].

(** Three valid rows; the same under another header of five fields; the
    same with the second row replaced by [John,Doe]; a header alone; one
    three-field row under a header of three and of five fields; a short row
    under a header as short. *)
Definition sampleFiles : os.SourceFiles :=
  <[lit "customers.csv" := [header5 1; rowJane 2; rowBob 3; rowAnn 4]]>
  (<[lit "renamed.csv" := [header5' 1; rowJane 2; rowBob 3; rowAnn 4]]>
  (<[lit "short_row.csv" := [header5 1; rowJane 2; rowJohnDoe 3; rowAnn 4]]>
  (<[lit "header_only.csv" := [header5 1]]>
  (<[lit "three.csv" := [header3 1; rowJane3 2]]>
  (<[lit "three_under_five.csv" := [header5 1; rowJane3 2]]>
  (<[lit "two.csv" := [header2 1; rowJohnDoe 2]]> ∅)))))).

(** The same short row under the same header, on the line after the header
    and one line further down. *)
Definition shiftedFiles : os.SourceFiles :=
  <[lit "next_line.csv" := [header3 1; rowJohnDoe 2]]>
  (<[lit "blank_line.csv" := [header3 1; rowJohnDoe 3]]> ∅).

Definition sampleExportFiles : os.FileSystem :=
  {| os.files := <[lit "out.csv" := lit "kept"]> ∅;
     os.refused := fun _ => false;
     os.writeFault := fun _ => None |}.

(** ** Package flag *)

Module flag.

(** The value of a flag: a string or a boolean. *)
Inductive Value :=
| String (s : str)
| Bool (b : bool).

(** The flags of a [FlagSet], each with its value. *)
Definition FlagSet := list (str * Value).

Fixpoint lookup (f : FlagSet) (name : str) : option Value :=
  match f with
  | [] => None
  | (k, v) :: f' => if decide (k = name) then Some v else lookup f' name
  end.

Definition set (f : FlagSet) (name : str) (v : Value) : FlagSet :=
  map (fun kv => if decide (fst kv = name) then (name, v) else kv) f.

(** The errors of [Parse]: [ErrHelp], and the errors that [failf] makes of
    the messages "bad flag syntax: %s", "flag provided but not defined:
    -%s", "invalid boolean value %q for -%s: %v" and "flag needs an
    argument: -%s". *)
Inductive error :=
| ErrHelp
| BadSyntax (arg : str)
| NotDefined (name : str)
| InvalidBoolean (value name : str)
| NeedsArgument (name : str).

(** What [parseOne] makes of the next argument: not a flag, the
    terminator [--], a bad flag, or a flag with its name and, after an
    equals sign, its value. *)
Inductive argument :=
| NotFlag
| Terminator
| Malformed
| Flag (name value : str) (hasValue : bool).

(** The name up to the first equals sign, which is not its first byte,
    and the value after it. *)
Fixpoint cutEquals (s : str) : option (str * str) :=
  match s with
  | [] => None
  | c :: s' =>
      if Ascii.eqb c "="%char then Some ([], s')
      else match cutEquals s' with
           | Some (name, value) => Some (c :: name, value)
           | None => None
           end
  end.

Definition readArgument (s : str) : argument :=
  match s with
  | c0 :: c1 :: rest =>
      if negb (Ascii.eqb c0 "-"%char) then NotFlag else
      if Ascii.eqb c1 "-"%char && bool_decide (rest = []) then Terminator else
      let name := if Ascii.eqb c1 "-"%char then rest else c1 :: rest in
      match name with
      | [] => Malformed
      | c :: name' =>
          if Ascii.eqb c "-"%char || Ascii.eqb c "="%char then Malformed
          else match cutEquals name' with
               | Some (name', value) => Flag (c :: name') value true
               | None => Flag name [] false
               end
      end
  | _ => NotFlag
  end.

(** [func (f *FlagSet) Parse(arguments []string) error]: [parseOne] is run
    until it sees no flag; it takes one argument, or two when the value of
    a flag that is not boolean is the next argument.  The flags with their
    values at the end, or the first error. *)
Fixpoint Parse (f : FlagSet) (args : list str) : FlagSet + error :=
  match args with
  | [] => inl f
  | s :: rest =>
      match readArgument s with
      | NotFlag | Terminator => inl f
      | Malformed => inr (BadSyntax s)
      | Flag name value hasValue =>
          match lookup f name with
          | None =>
              if bool_decide (name = lit "help") || bool_decide (name = lit "h")
              then inr ErrHelp
              else inr (NotDefined name)
          | Some (Bool _) =>
              if hasValue then
                match strconv.ParseBool value with
                | Some v => Parse (set f name (Bool v)) rest
                | None => inr (InvalidBoolean value name)
                end
              else Parse (set f name (Bool true)) rest
          | Some (String _) =>
              if hasValue then Parse (set f name (String value)) rest
              else match rest with
                   | [] => inr (NeedsArgument name)
                   | value :: rest' => Parse (set f name (String value)) rest'
                   end
          end
      end
  end.

End flag.

(** ** Package main *)

Module main.

(** The command-line flags. *)
Record Options := { path : str; outFile : str; verbose : bool }.

(** [readOptions()], with the arguments of the command line after the name
    of the program: the options, or the error at which [flag.Parse] leaves
    the program. *)
Definition readOptions (args : list str) : Options + flag.error :=
  let flags :=
    [(lit "path", flag.String "./customers.csv");
     (lit "out", flag.String "");
     (lit "verbose", flag.Bool false)] in
  match flag.Parse flags args with
  | inr err => inr err
  | inl flags =>
      inl {| path := match flag.lookup flags "path" with
                     | Some (flag.String s) => s
                     | _ => []
                     end;
             outFile := match flag.lookup flags "out" with
                        | Some (flag.String s) => s
                        | _ => []
                        end;
             verbose := match flag.lookup flags "verbose" with
                        | Some (flag.Bool b) => b
                        | _ => false
                        end |}
  end.

(** [setupLogger(verbose)]: the default logger shows [INFO] and above in
    verbose mode and [ERROR] only otherwise. *)
Definition setupLogger (verbose : bool) : slog.Logger :=
  Some (if verbose then slog.LevelInfo else slog.LevelError).

Definition newline : ascii := ascii_of_nat 10.

(** [printData(data)]: what is written to the standard output after
    [stdout]. *)
Definition printData (data : slice DomainData) (stdout : str) : str :=
  fold_left
    (fun out v =>
       out ++ Domain v ++ lit "," ++ strconv.FormatUint (CustomerQuantity v)
         ++ [newline])
    (default [] data)
    (stdout ++ lit "domain,number_of_customers" ++ [newline]).

(** What is written to the standard error: a record of the logger, the
    message of a flag error, or the usage of the flags. *)
Inductive stderrLine :=
| Logged (r : slog.Record_)
| FlagError (e : flag.error)
| Usage.

(** What a run of the program leaves: the exit status, the standard
    output, the standard error, and the file system. *)
Record Process := {
  exitCode : Z;
  stdout : str;
  stderr : list stderrLine;
  fileSystem : os.FileSystem
}.

(** [func main()], with the arguments [args] of the command line, the
    iteration order [ord] of the map, the elapsed time [duration] as the
    clock gives it, the input files [sources] and the file system [fs] that
    is written to.  [flag.Parse] ends the program on an error: with status
    0 and the usage for [-h] and [-help], with status 2, the message and
    the usage for any other. *)
Definition main (args : list str) (ord : RangeOrder) (duration : str)
    (sources : os.SourceFiles) (fs : os.FileSystem) : Process :=
  match readOptions args with
  | inr flag.ErrHelp =>
      {| exitCode := 0; stdout := []; stderr := [Usage]; fileSystem := fs |}
  | inr err =>
      {| exitCode := 2; stdout := []; stderr := [FlagError err; Usage];
         fileSystem := fs |}
  | inl opts =>
  let lg := setupLogger (verbose opts) in
  let log := slog.Info lg [] "starting customer domain import"
               [(lit "file", slog.StringValue (path opts))] in
  let importer := NewCustomerImporter (path opts) in
  match ImportDomainData lg ord sources importer with
  | (Panics, out) =>
      {| exitCode := 2; stdout := []; stderr := map Logged (log ++ out);
         fileSystem := fs |}
  | (Returns (_, Some err), out) =>
      {| exitCode := 1; stdout := [];
         stderr := map Logged
                     (slog.Error lg (log ++ out) "failed to import customer data"
                        [(lit "error", slog.StringValue (errorText err));
                         (lit "file", slog.StringValue (path opts))]);
         fileSystem := fs |}
  | (Returns (data, None), out) =>
      let log := slog.Info lg (log ++ out) "import complete"
                   [(lit "domains", slog.IntValue (Z.of_nat (length (default [] data))));
                    (lit "duration", slog.StringValue duration)] in
      match outFile opts with
      | [] =>
          {| exitCode := 0; stdout := printData data []; stderr := map Logged log;
             fileSystem := fs |}
      | _ =>
          let ex := exporter.NewCustomerExporter (outFile opts) in
          match exporter.ExportData lg ex data fs log with
          | (Some saveErr, fs, log) =>
              {| exitCode := 1; stdout := [];
                 stderr := map Logged
                             (slog.Error lg log "failed to export domain data"
                                [(lit "error",
                                  slog.StringValue (exporter.exportErrorText saveErr));
                                 (lit "file", slog.StringValue (outFile opts))]);
                 fileSystem := fs |}
          | (None, fs, log) =>
              {| exitCode := 0; stdout := [];
                 stderr := map Logged
                             (slog.Info lg log "export complete"
                                [(lit "file", slog.StringValue (outFile opts));
                                 (lit "records",
                                  slog.IntValue (Z.of_nat (length (default [] data))))]);
                 fileSystem := fs |}
          end
      end
  end
  end.

End main.

(** ** Vocabulary of the further properties *)

(** The domain a data row counts for: the validated domain of its third
    field. *)
Definition rowDomain (raw : csv.rawRecord) : option str :=
  match raw with
  | csv.Failed _ | csv.Broken _ => None
  | csv.Parsed _ fields =>
      match fields !! 2%nat with
      | None => None
      | Some email =>
          match validateEmail email with
          | (domain, None) => Some domain
          | (_, Some _) => None
          end
      end
  end.

(** The error a data row stops the import with, under a header of [n]
    fields; none for a row that is counted. *)
Definition rowError (n : nat) (raw : csv.rawRecord) : option error :=
  match raw with
  | csv.Failed e => Some (ReadError (csv.Parse e))
  | csv.Broken msg => Some (ReadError (csv.ReaderError msg))
  | csv.Parsed line fields =>
      if negb (length fields =? n)%nat then Some (wrongFieldCount line)
      else if (length fields <=? 2)%nat
      then Some (InsufficientColumns 3 (Z.of_nat (length fields)))
      else
        match fields !! 2%nat with
        | None => None
        | Some email =>
            match snd (validateEmail email) with
            | Some err => Some (InvalidEmail err)
            | None => None
            end
        end
  end.

(** The error of the first row that has one. *)
Fixpoint firstError (n : nat) (rows : list csv.rawRecord) : option error :=
  match rows with
  | [] => None
  | raw :: rest =>
      match rowError n raw with
      | Some err => Some err
      | None => firstError n rest
      end
  end.

(** The number of rows that count for the domain [d]. *)
Definition countDomain (d : str) (rows : list csv.rawRecord) : nat :=
  length (filter (fun raw => rowDomain raw = Some d) rows).

(** A logger that shows no [INFO] record. *)
Definition infoDisabled (lg : slog.Logger) : bool :=
  match lg with
  | None => true
  | Some level => 0 <? slog.levelValue level
  end.

(** A record of the log written by [slog.Info] with the given message. *)
Definition isInfo (msg : str) (r : slog.Record_) : bool :=
  match slog.RLevel r with
  | slog.LevelInfo => bool_decide (slog.Message r = msg)
  | _ => false
  end.

(** *** Further sample files *)

Definition rowNoDomain (line : Z) : csv.rawRecord :=
  csv.Parsed line [lit "Sam"; lit "Poe"; lit "sam@"; lit "M"; lit "4.4.4.4"].

(** The three valid rows, in two orders; the first two rows followed by a
    row without a domain and a short row; a short row at the end, and the
    same with a row after it. *)
Definition moreFiles : os.SourceFiles :=
  <[lit "customers.csv" := [header5 1; rowJane 2; rowBob 3; rowAnn 4]]>
  (<[lit "shuffled.csv" := [header5 1; rowAnn 2; rowJane 3; rowBob 4]]>
  (<[lit "bad_email.csv" := [header5 1; rowJane 2; rowNoDomain 3; rowJohnDoe 4]]>
  (<[lit "short_row_first.csv" := [header5 1; rowJane 2; rowJohnDoe 3]]>
  (<[lit "short_row.csv" := [header5 1; rowJane 2; rowJohnDoe 3; rowAnn 4]]> ∅)))).

(** A file without any record. *)
Definition emptyFiles : os.SourceFiles := <[lit "empty.csv" := []]> ∅.

(** The lines of the report: the header, the line of an entry as the CSV
    writer writes it, and as [printData] prints it. *)
Definition reportHeader : str := lit "domain,number_of_customers" ++ [main.newline].

Definition reportLine (v : DomainData) : str :=
  exporter.csvw.writeField (Domain v) ++ lit ","
    ++ strconv.FormatUint (CustomerQuantity v) ++ [main.newline].

Definition printedLine (v : DomainData) : str :=
  Domain v ++ lit "," ++ strconv.FormatUint (CustomerQuantity v) ++ [main.newline].

(** A decimal digit. *)
Definition isDigit (c : ascii) : bool := ((48 <=? code c) && (code c <=? 57))%N.

(** A file system with a file to overwrite, a path that is refused, and a
    path on a device that is full after 30 bytes. *)
Definition guardedFiles : os.FileSystem :=
  {| os.files := <[lit "out.csv" := lit "kept"]> (<[lit "other.csv" := lit "other"]> ∅);
     os.refused := fun name => bool_decide (name = lit "/locked/out.csv");
     os.writeFault := fun name =>
       if bool_decide (name = lit "/full/out.csv")
       then Some (30%nat, lit "no space left on device") else None |}.

(** *** The writers

    How the buffered writer of [exportCsv] stands to the file it writes
    to, the file being [f0] when the writer is made and [all] the bytes
    pushed to the writer since. *)

(** The report: the header line and the lines of the entries. *)
Definition report (rows : list DomainData) : str :=
  reportHeader ++ flat_map reportLine rows.

(** Whether a file with the given fault takes [n] bytes without error,
    what it takes of the bytes written to it, and its fault after [k] of
    them. *)
Definition fits (fault : option (nat * str)) (n : nat) : bool :=
  match fault with
  | None => true
  | Some (room, _) => (n <=? room)%nat
  end.

Definition accepted (fault : option (nat * str)) (s : str) : str :=
  match fault with
  | None => s
  | Some (room, _) => take room s
  end.

Definition faultAfter (fault : option (nat * str)) (k : nat) : option (nat * str) :=
  match fault with
  | None => None
  | Some (room, msg) => Some ((room - k)%nat, msg)
  end.

(** No write has failed: the bytes pushed are in the file, for a first
    part, and in the buffer. *)
Definition buffering (f0 : os.File) (all : str) (b : bufio.Writer os.File) : Prop :=
  bufio.err b = None
  /\ (length (bufio.buf b) <= bufio.defaultBufSize)%nat
  /\ exists flushed,
       all = flushed ++ bufio.buf b
       /\ fits (os.fault f0) (length flushed) = true
       /\ bufio.wr b
          = {| os.name := os.name f0;
               os.written := os.written f0 ++ flushed;
               os.fault := faultAfter (os.fault f0) (length flushed) |}.

(** A write has failed: the error stays, and the file holds the bytes that
    it took before its fault, fewer than were pushed. *)
Definition failed (f0 : os.File) (all : str) (b : bufio.Writer os.File)
    (e : io.error) : Prop :=
  bufio.err b = Some e
  /\ exists room msg,
       os.fault f0 = Some (room, msg)
       /\ (room < length all)%nat
       /\ e = io.FileError {| os.Op := "write"; os.Path := os.name f0; os.Err := msg |}
       /\ os.name (bufio.wr b) = os.name f0
       /\ os.written (bufio.wr b) = os.written f0 ++ take room all.

Definition tracks (f0 : os.File) (all : str)
    (r : bufio.Writer os.File * option io.error) : Prop :=
  match snd r with
  | None => buffering f0 all (fst r)
  | Some e => failed f0 all (fst r) e
  end.

(** Where the loop leaves the writer: a write has failed, or a first part
    of the bytes has been pushed and there is room in the buffer for the
    rest. *)
Definition loopEnd (f0 : os.File) (all s : str)
    (r : bufio.Writer os.File * str) : Prop :=
  (exists e, failed f0 (all ++ s) (fst r) e)
  \/ (exists pushed,
        s = pushed ++ snd r
        /\ buffering f0 (all ++ pushed) (fst r)
        /\ (length (bufio.buf (fst r)) + length (snd r) <= bufio.defaultBufSize)%nat).

(** A step of the writer that pushes the bytes [s], whatever becomes of
    them; and a step that leaves them in the buffer when there is room for
    them. *)
Definition pushes
    (step : bufio.Writer os.File -> bufio.Writer os.File * option io.error)
    (s : str) : Prop :=
  forall f0 all b, buffering f0 all b -> tracks f0 (all ++ s) (step b).

Definition buffers
    (step : bufio.Writer os.File -> bufio.Writer os.File * option io.error)
    (s : str) : Prop :=
  forall b,
    bufio.err b = None ->
    (length (bufio.buf b) + length s <= bufio.defaultBufSize)%nat ->
    step b = ({| bufio.err := None; bufio.buf := bufio.buf b ++ s;
                 bufio.wr := bufio.wr b |}, None).

(** The bytes of the fields of a record from the field of index [n] on. *)
Fixpoint fieldsFrom (n : nat) (record : list str) : str :=
  match record with
  | [] => []
  | field :: rest =>
      (if (0 <? n)%nat then lit "," else []) ++ exporter.csvw.writeField field
        ++ fieldsFrom (S n) rest
  end.

(** * Properties *)

(** ** Trimming *)

Section TrimFacts.
Variable p1 : ascii -> bool.
Variable p2 : ascii -> ascii -> bool.
Variable p3 : ascii -> ascii -> ascii -> bool.

Local Abbreviation lead := (strings.leadRune p1 p2 p3).
Local Abbreviation trim := (strings.trimLeading p1 p2 p3).

Lemma trimLeading_unfold s :
  trim s = match lead s with Some r => trim r | None => s end.
Proof.
  destruct s as [|b0 s1]; [done|]. simpl.
  destruct (p1 b0); [done|]. destruct s1 as [|b1 s2]; [done|].
  destruct (p2 b0 b1); [done|]. destruct s2 as [|b2 s3]; [done|].
  by destruct (p3 b0 b1 b2).
Qed.

Lemma leadRune_split s r :
  lead s = Some r -> exists e, s = e ++ r /\ e <> [] /\ lead e = Some [].
Proof.
  destruct s as [|b0 [|b1 [|b2 s3]]]; simpl; intros H;
    repeat case_match; simplify_eq.
  all: try (exists [b0]; simpl; rewrite ?H0; by repeat split).
  all: try (exists [b0; b1]; simpl; rewrite ?H0, ?H1; by repeat split).
  all: try (exists [b0; b1; b2]; simpl; rewrite ?H0, ?H1, ?H2; by repeat split).
Qed.

Lemma leadRune_length s r : lead s = Some r -> (length r < length s)%nat.
Proof.
  intros (e & -> & Hne & _)%leadRune_split. rewrite length_app.
  destruct e; [done | simpl; lia].
Qed.

Lemma leadRune_ind (P : str -> Prop) :
  (forall s, lead s = None -> P s) ->
  (forall s r, lead s = Some r -> P r -> P s) ->
  forall s, P s.
Proof.
  intros Hnone Hsome s.
  remember (length s) as n eqn:Hn. revert s Hn.
  induction n as [n IH] using lt_wf_ind. intros s ->.
  destruct (lead s) as [r|] eqn:Hl; [|by apply Hnone].
  apply (Hsome s r Hl), (IH (length r)); [by apply leadRune_length | done].
Qed.

Lemma leadRune_app s r z : lead s = Some r -> lead (s ++ z) = Some (r ++ z).
Proof.
  destruct s as [|b0 [|b1 [|b2 s3]]]; simpl; intros H;
    repeat case_match; simplify_eq; reflexivity.
Qed.

Lemma trimLeading_stop s : lead s = None -> trim s = s.
Proof. intros H. by rewrite trimLeading_unfold, H. Qed.

Lemma trimLeading_step s r : lead s = Some r -> trim s = trim r.
Proof. intros H. by rewrite trimLeading_unfold, H. Qed.

Lemma leadRune_trimLeading s : lead (trim s) = None.
Proof.
  induction s as [s Hs|s r Hs IH] using leadRune_ind.
  - by rewrite trimLeading_stop.
  - by rewrite (trimLeading_step _ _ Hs).
Qed.

Lemma trimLeading_idem s : trim (trim s) = trim s.
Proof. apply trimLeading_stop, leadRune_trimLeading. Qed.

Lemma trimLeading_suffix s : exists w, s = w ++ trim s.
Proof.
  induction s as [s Hs|s r Hs [w IH]] using leadRune_ind.
  - exists []. by rewrite trimLeading_stop.
  - rewrite (trimLeading_step _ _ Hs).
    destruct (leadRune_split _ _ Hs) as (e & -> & _).
    exists (e ++ w). by rewrite <- app_assoc, <- IH.
Qed.

(** A byte [c] that occurs in no encoded rune of the predicate stops the
    walk. *)
Variable c : ascii.
Hypothesis sep1 : p1 c = false.
Hypothesis sep2l : forall b, p2 c b = false.
Hypothesis sep2r : forall b, p2 b c = false.
Hypothesis sep3l : forall a b, p3 c a b = false.
Hypothesis sep3m : forall a b, p3 a c b = false.
Hypothesis sep3r : forall a b, p3 a b c = false.

Lemma leadRune_sep (l d : str) :
  lead (l ++ c :: d) = (fun r => r ++ c :: d) <$> lead l.
Proof.
  destruct l as [|b0 [|b1 [|b2 s3]]]; simpl.
  - rewrite sep1. destruct d as [|d0 [|d1 d2]]; by rewrite ?sep2l, ?sep3l.
  - destruct (p1 b0); [done|]. rewrite sep2r.
    destruct d as [|d0 d1]; by rewrite ?sep3m.
  - destruct (p1 b0); [done|]. destruct (p2 b0 b1); [done|]. by rewrite sep3r.
  - destruct (p1 b0); [done|]. destruct (p2 b0 b1); [done|].
    by destruct (p3 b0 b1 b2).
Qed.

Lemma trimLeading_sep (l d : str) : trim (l ++ c :: d) = trim l ++ c :: d.
Proof.
  induction l as [l Hl|l r Hl IH] using leadRune_ind.
  - rewrite (trimLeading_stop l Hl). apply trimLeading_stop.
    by rewrite leadRune_sep, Hl.
  - rewrite (trimLeading_step l r Hl), <- IH. apply trimLeading_step.
    by rewrite leadRune_sep, Hl.
Qed.

End TrimFacts.

Lemma byte_code (b : ascii) : utf8.byte (code b) = b.
Proof.
  unfold utf8.byte, code. rewrite N.mod_small; [apply ascii_N_embedding|].
  apply N_ascii_bounded.
Qed.

Lemma code_eq (b : ascii) (n : N) : code b = n -> b = utf8.byte n.
Proof. intros <-. by rewrite byte_code. Qed.

Local Abbreviation leadL := (strings.leadRune utf8.isSpace1 utf8.isSpace2 utf8.isSpace3).
Local Abbreviation leadR :=
  (strings.leadRune utf8.isSpace1 (fun b1 b0 => utf8.isSpace2 b0 b1)
     (fun b2 b1 b0 => utf8.isSpace3 b0 b1 b2)).
Local Abbreviation trimL := (strings.trimLeading utf8.isSpace1 utf8.isSpace2 utf8.isSpace3).
Local Abbreviation trimR :=
  (strings.trimLeading utf8.isSpace1 (fun b1 b0 => utf8.isSpace2 b0 b1)
     (fun b2 b1 b0 => utf8.isSpace3 b0 b1 b2)).

Ltac space_prop H :=
  unfold utf8.isSpace1, utf8.isSpace2, utf8.isSpace3 in H;
  repeat (progress rewrite ?andb_true_iff, ?orb_true_iff, ?N.eqb_eq, ?N.leb_le in H).

Ltac space_contra :=
  exfalso;
  repeat match goal with
         | H : _ = true |- _ => space_prop H; revert H
         end;
  intros; change (code at_sign) with 64%N in *; lia.

Ltac space_cases :=
  repeat match goal with
         | H : context [if ?b then _ else _] |- _ =>
             destruct b eqn:?; try discriminate H
         | |- context [if ?b then _ else _] => destruct b eqn:?
         end;
  try reflexivity; try discriminate; try space_contra.

Ltac concrete_bytes :=
  repeat match goal with
         | H : code ?b = _ |- _ => apply code_eq in H; subst b
         end.

Lemma IsSpace_cases (r : N) :
  unicode.IsSpace r = true ->
  In r [9; 10; 11; 12; 13; 0x20; 0x85; 0xA0; 0x1680; 0x2000; 0x2001; 0x2002;
        0x2003; 0x2004; 0x2005; 0x2006; 0x2007; 0x2008; 0x2009; 0x200A;
        0x2028; 0x2029; 0x202F; 0x205F; 0x3000]%N.
Proof.
  unfold unicode.IsSpace. intros H. simpl.
  destruct (N.leb_spec r 0xFF);
    repeat (progress rewrite ?andb_true_iff, ?orb_true_iff, ?N.eqb_eq, ?N.leb_le in H);
    lia.
Qed.

(** The recognisers accept the encoding of every white-space rune, *)
Lemma leadRune_encoded_space (r : N) (s : str) :
  unicode.IsSpace r = true -> leadL (utf8.EncodeRune r ++ s) = Some s.
Proof.
  intros H%IsSpace_cases. simpl in H.
  repeat (destruct H as [<-|H]; [reflexivity|]). done.
Qed.

(** and they accept nothing else. *)
Lemma leadRune_space_encoded (s t : str) :
  leadL s = Some t ->
  exists r, unicode.IsSpace r = true /\ s = utf8.EncodeRune r ++ t.
Proof.
  destruct s as [|b0 s1]; [done|]. simpl.
  destruct (utf8.isSpace1 b0) eqn:H1.
  { intros [= ->]. exists (code b0). space_prop H1.
    assert (code b0 = 9 \/ code b0 = 10 \/ code b0 = 11 \/ code b0 = 12
            \/ code b0 = 13 \/ code b0 = 32)%N as Hc by lia.
    clear H1. repeat destruct Hc as [Hc|Hc]; concrete_bytes; by vm_compute. }
  destruct s1 as [|b1 s2]; [done|].
  destruct (utf8.isSpace2 b0 b1) eqn:H2.
  { intros [= ->]. exists ((code b0 - 0xC0) * 64 + (code b1 - 0x80))%N.
    space_prop H2. destruct H2 as [H0 [Hc|Hc]]; concrete_bytes; by vm_compute. }
  destruct s2 as [|b2 s3]; [done|].
  destruct (utf8.isSpace3 b0 b1 b2) eqn:H3; [|done].
  intros [= ->].
  exists ((code b0 - 0xE0) * 4096 + (code b1 - 0x80) * 64 + (code b2 - 0x80))%N.
  space_prop H3.
  destruct H3 as [[[[[Ha Hb] Hc]|[[Ha Hb] Hc]]|[[Ha Hb] Hc]]|[[Ha Hb] Hc]].
  - concrete_bytes; by vm_compute.
  - assert (code b2 = 0x80 \/ code b2 = 0x81 \/ code b2 = 0x82 \/ code b2 = 0x83
            \/ code b2 = 0x84 \/ code b2 = 0x85 \/ code b2 = 0x86 \/ code b2 = 0x87
            \/ code b2 = 0x88 \/ code b2 = 0x89 \/ code b2 = 0x8A \/ code b2 = 0xA8
            \/ code b2 = 0xA9 \/ code b2 = 0xAF)%N as Hd by lia.
    clear Hc. repeat destruct Hd as [Hd|Hd]; concrete_bytes; by vm_compute.
  - concrete_bytes; by vm_compute.
  - concrete_bytes; by vm_compute.
Qed.

(** A rune of the predicate, reversed, is a rune of the mirrored
    recognisers. *)
Lemma leadR_rev_rune (e : str) : leadL e = Some [] -> leadR (rev e) = Some [].
Proof.
  destruct e as [|a [|b [|c [|? ?]]]]; simpl; intros He; space_cases.
Qed.

(** Encoded white space never overlaps: after bytes that end no rune of
    the predicate, an appended rune ends none either. *)
Lemma leadR_app_rune (y e : str) :
  leadR y = None -> y <> [] -> leadL e = Some [] -> leadR (y ++ rev e) = None.
Proof.
  intros Hy Hne He.
  destruct e as [|a [|b [|c [|? ?]]]]; simpl in He; space_cases.
  all: destruct y as [|y0 [|y1 [|y2 y3]]]; [done|..]; simpl in Hy |- *; space_cases.
Qed.

Lemma trimR_app_rune (y e : str) :
  leadL e = Some [] ->
  trimR (y ++ rev e) = match trimR y with [] => [] | _ => trimR y ++ rev e end.
Proof.
  intros He. induction y as [y Hy|y r Hy IH] using (leadRune_ind utf8.isSpace1
    (fun b1 b0 => utf8.isSpace2 b0 b1) (fun b2 b1 b0 => utf8.isSpace3 b0 b1 b2)).
  - rewrite (trimLeading_stop _ _ _ y Hy). destruct y as [|y0 y']; simpl app.
    + by rewrite (trimLeading_step _ _ _ _ _ (leadR_rev_rune e He)).
    + apply trimLeading_stop. by apply (leadR_app_rune (y0 :: y')).
  - rewrite (trimLeading_step _ _ _ y r Hy), <- IH.
    apply trimLeading_step. by apply leadRune_app.
Qed.

Lemma TrimRightSpace_rune_app (e x : str) :
  leadL e = Some [] ->
  strings.TrimRightSpace (e ++ x)
  = match strings.TrimRightSpace x with
    | [] => []
    | _ => e ++ strings.TrimRightSpace x
    end.
Proof.
  intros He. unfold strings.TrimRightSpace.
  rewrite rev_app_distr, (trimR_app_rune _ _ He).
  destruct (trimR (rev x)) as [|a t]; [done|].
  rewrite rev_app_distr, rev_involutive.
  destruct (rev (a :: t)) eqn:Hr; [|done].
  apply (f_equal (@length _)) in Hr. rewrite length_rev in Hr. done.
Qed.

Lemma TrimRightSpace_prefix (s : str) : exists w, s = strings.TrimRightSpace s ++ w.
Proof.
  destruct (trimLeading_suffix utf8.isSpace1 (fun b1 b0 => utf8.isSpace2 b0 b1)
              (fun b2 b1 b0 => utf8.isSpace3 b0 b1 b2) (rev s)) as [w Hw].
  exists (rev w). unfold strings.TrimRightSpace.
  by rewrite <- rev_app_distr, <- Hw, rev_involutive.
Qed.

Lemma TrimLeftSpace_suffix (s : str) : exists w, s = w ++ strings.TrimLeftSpace s.
Proof. apply trimLeading_suffix. Qed.

Lemma TrimLeftSpace_idem (s : str) :
  strings.TrimLeftSpace (strings.TrimLeftSpace s) = strings.TrimLeftSpace s.
Proof. apply trimLeading_idem. Qed.

Lemma TrimRightSpace_idem (s : str) :
  strings.TrimRightSpace (strings.TrimRightSpace s) = strings.TrimRightSpace s.
Proof.
  unfold strings.TrimRightSpace. by rewrite rev_involutive, trimLeading_idem.
Qed.

(** Trimming on the left and trimming on the right commute. *)
Lemma TrimLeft_TrimRight (s : str) :
  strings.TrimLeftSpace (strings.TrimRightSpace s)
  = strings.TrimRightSpace (strings.TrimLeftSpace s).
Proof.
  unfold strings.TrimLeftSpace at 1 2.
  induction s as [s Hs|s r Hs IH] using
    (leadRune_ind utf8.isSpace1 utf8.isSpace2 utf8.isSpace3).
  - rewrite (trimLeading_stop _ _ _ s Hs). apply trimLeading_stop.
    destruct (leadL (strings.TrimRightSpace s)) as [t|] eqn:Ht; [|done].
    destruct (TrimRightSpace_prefix s) as [w Hw].
    apply (leadRune_app _ _ _ _ _ w) in Ht. rewrite <- Hw in Ht. congruence.
  - rewrite (trimLeading_step _ _ _ s r Hs), <- IH.
    destruct (leadRune_split _ _ _ _ _ Hs) as (e & -> & _ & He).
    rewrite (TrimRightSpace_rune_app _ _ He).
    destruct (strings.TrimRightSpace r) as [|a t] eqn:Hr; [done|].
    apply trimLeading_step. by apply (leadRune_app _ _ _ e []).
Qed.

Lemma TrimSpace_TrimLeftSpace (s : str) :
  strings.TrimSpace (strings.TrimLeftSpace s) = strings.TrimSpace s.
Proof. unfold strings.TrimSpace. by rewrite TrimLeftSpace_idem. Qed.

Lemma TrimSpace_TrimRightSpace (s : str) :
  strings.TrimSpace (strings.TrimRightSpace s) = strings.TrimSpace s.
Proof.
  unfold strings.TrimSpace. by rewrite TrimLeft_TrimRight, TrimRightSpace_idem.
Qed.

Lemma TrimSpace_infix (s : str) : exists w1 w2, s = w1 ++ strings.TrimSpace s ++ w2.
Proof.
  destruct (TrimLeftSpace_suffix s) as [w1 H1].
  destruct (TrimRightSpace_prefix (strings.TrimLeftSpace s)) as [w2 H2].
  exists w1, w2. unfold strings.TrimSpace. by rewrite <- H2.
Qed.

Ltac at_false :=
  intros;
  match goal with
  | |- ?b = false => destruct b eqn:?; [space_contra | reflexivity]
  end.

Lemma TrimSpace_at (l d : str) :
  strings.TrimSpace (l ++ at_sign :: d)
  = strings.TrimLeftSpace l ++ at_sign :: strings.TrimRightSpace d.
Proof.
  unfold strings.TrimSpace, strings.TrimLeftSpace.
  rewrite trimLeading_sep by at_false.
  unfold strings.TrimRightSpace.
  rewrite rev_app_distr. simpl rev. rewrite <- app_assoc. simpl app.
  rewrite trimLeading_sep by at_false.
  rewrite rev_app_distr. simpl rev. by rewrite rev_involutive, <- app_assoc.
Qed.

(** ** Searching for the separator *)

Lemma lit_at : lit "@" = [at_sign].
Proof. reflexivity. Qed.

Lemma HasPrefix_at (s : str) :
  strings.HasPrefix s [at_sign]
  = match s with b :: _ => Ascii.eqb b at_sign | [] => false end.
Proof. destruct s as [|b s]; simpl; [done|]. by destruct (Ascii.eqb b at_sign). Qed.

Lemma Index_at_absent (s : str) : at_sign ∉ s -> strings.Index s [at_sign] = -1.
Proof.
  induction s as [|b s IH]; intros Hs; [done|].
  apply not_elem_of_cons in Hs as [Hb Hs].
  cbn [strings.Index]. rewrite HasPrefix_at.
  destruct (Ascii.eqb_spec b at_sign) as [->|_]; [done|].
  by rewrite IH.
Qed.

Lemma Index_at_first (l d : str) :
  at_sign ∉ l -> strings.Index (l ++ at_sign :: d) [at_sign] = Z.of_nat (length l).
Proof.
  induction l as [|b l IH]; intros Hl.
  - simpl app. cbn [strings.Index]. rewrite HasPrefix_at.
    by rewrite Ascii.eqb_refl.
  - apply not_elem_of_cons in Hl as [Hb Hl].
    simpl app. cbn [strings.Index]. rewrite HasPrefix_at.
    destruct (Ascii.eqb_spec b at_sign) as [->|_]; [done|].
    rewrite IH by done. 
    destruct (Z.ltb_spec (Z.of_nat (length l)) 0); simpl length; lia.
Qed.

Lemma Cut_at_absent (s : str) : at_sign ∉ s -> strings.Cut s "@" = (s, [], false).
Proof. intros Hs. unfold strings.Cut. by rewrite lit_at, Index_at_absent. Qed.

Lemma Cut_at_first (l d : str) :
  at_sign ∉ l -> strings.Cut (l ++ at_sign :: d) "@" = (l, d, true).
Proof.
  intros Hl. unfold strings.Cut. rewrite lit_at, Index_at_first by done.
  destruct (Z.leb_spec 0 (Z.of_nat (length l))); [|lia].
  rewrite Nat2Z.id, take_app_length. simpl length.
  rewrite drop_app_add'. 2: done. done.
Qed.

Lemma at_split (s : str) :
  at_sign ∈ s -> exists l d, s = l ++ at_sign :: d /\ at_sign ∉ l.
Proof. intros (l & d & -> & Hl)%list_elem_of_split_l. eauto. Qed.

Lemma Contains_at (s : str) : strings.Contains s "@" = true <-> at_sign ∈ s.
Proof.
  unfold strings.Contains. rewrite lit_at. split.
  - intros H. destruct (decide (at_sign ∈ s)) as [|Hn]; [done|].
    rewrite (Index_at_absent s Hn) in H. done.
  - intros (l & d & -> & Hl)%at_split. rewrite Index_at_first by done.
    apply Z.leb_le. lia.
Qed.

Lemma TrimSpace_at_elem (s : str) : at_sign ∈ strings.TrimSpace s <-> at_sign ∈ s.
Proof.
  split.
  - intros H. destruct (TrimSpace_infix s) as (w1 & w2 & Hs). rewrite Hs.
    rewrite !elem_of_app. auto.
  - intros (l & d & -> & _)%at_split. rewrite TrimSpace_at.
    rewrite elem_of_app, elem_of_cons. auto.
Qed.

Lemma CountByte_zero (c : ascii) (s : str) : strings.CountByte c s = 0%nat <-> c ∉ s.
Proof.
  unfold strings.CountByte.
  induction s as [|b s IH]; [split; [intros _; apply not_elem_of_nil | done]|].
  rewrite filter_cons, not_elem_of_cons. destruct (decide (b = c)) as [->|Hb]; simpl.
  - split; [done|]. by intros [? _].
  - rewrite IH. split; [intros ?; split; [congruence | done] | by intros [_ ?]].
Qed.

Lemma CountByte_app (c : ascii) (l d : str) :
  strings.CountByte c (l ++ d) = (strings.CountByte c l + strings.CountByte c d)%nat.
Proof. unfold strings.CountByte. by rewrite filter_app, length_app. Qed.

Lemma CountByte_cons_eq (c : ascii) (d : str) :
  strings.CountByte c (c :: d) = S (strings.CountByte c d).
Proof. unfold strings.CountByte. rewrite filter_cons. by rewrite decide_True. Qed.

(** ** The validator, by the place of the first separator *)

Lemma isEmpty_true (s : str) : isEmpty s = true <-> s = [].
Proof. by destruct s. Qed.

Lemma validateEmail_no_at (s : str) :
  at_sign ∉ s ->
  validateEmail s
  = ([], Some (if isEmpty (strings.TrimSpace s) then EmptyInput else MissingSeparator)).
Proof.
  intros Hs. unfold validateEmail.
  destruct (isEmpty (strings.TrimSpace s)); [done|].
  rewrite Cut_at_absent; [done|]. by rewrite TrimSpace_at_elem.
Qed.

Lemma validateEmail_at (l d : str) :
  at_sign ∉ l ->
  validateEmail (l ++ at_sign :: d)
  = if isEmpty (strings.TrimSpace l) then ([], Some EmptyLocalPart)
    else if isEmpty (strings.TrimSpace d) then ([], Some EmptyDomain)
    else if strings.Contains (strings.TrimSpace d) "@" then ([], Some MultipleSeparators)
    else (strings.TrimSpace d, None).
Proof.
  intros Hl. unfold validateEmail. rewrite TrimSpace_at.
  destruct (isEmpty _) eqn:He.
  { apply isEmpty_true in He. by destruct (strings.TrimLeftSpace l). }
  clear He. rewrite Cut_at_first.
  - simpl negb. cbv iota. by rewrite TrimSpace_TrimLeftSpace, TrimSpace_TrimRightSpace.
  - destruct (TrimLeftSpace_suffix l) as [w Hw]. rewrite Hw in Hl.
    rewrite elem_of_app in Hl. tauto.
Qed.

(** ** The order of strings *)

Lemma code_inj (a b : ascii) : code a = code b -> a = b.
Proof.
  unfold code. intros H.
  by rewrite <- (ascii_N_embedding a), <- (ascii_N_embedding b), H.
Qed.

Lemma Compare_range (x y : str) : -1 <= cmp.Compare x y <= 1.
Proof.
  revert y. induction x as [|a x IH]; intros [|b y]; simpl; try lia.
  destruct (N.ltb_spec (code a) (code b)); [lia|].
  destruct (N.ltb_spec (code b) (code a)); [lia|]. apply IH.
Qed.

Lemma Compare_eq (x y : str) : cmp.Compare x y = 0 <-> x = y.
Proof.
  revert y. induction x as [|a x IH]; intros [|b y]; simpl; try done.
  destruct (N.ltb_spec (code a) (code b)); [split; [done|intros [= -> ->]; lia]|].
  destruct (N.ltb_spec (code b) (code a)); [split; [done|intros [= -> ->]; lia]|].
  rewrite IH. assert (a = b) as -> by (apply code_inj; lia).
  split; [by intros ->|by intros [=]].
Qed.

Lemma Compare_flip (x y : str) : cmp.Compare y x = - cmp.Compare x y.
Proof.
  revert y. induction x as [|a x IH]; intros [|b y]; simpl; try done.
  destruct (N.ltb_spec (code a) (code b)), (N.ltb_spec (code b) (code a));
    try lia. apply IH.
Qed.

Lemma Compare_le_trans (x y z : str) :
  cmp.Compare x y <= 0 -> cmp.Compare y z <= 0 -> cmp.Compare x z <= 0.
Proof.
  revert y z. induction x as [|a x IH]; intros [|b y] [|c z]; simpl; try lia.
  destruct (N.ltb_spec (code a) (code b)), (N.ltb_spec (code b) (code a)),
    (N.ltb_spec (code b) (code c)), (N.ltb_spec (code c) (code b)),
    (N.ltb_spec (code a) (code c)), (N.ltb_spec (code c) (code a));
    try lia. apply IH.
Qed.

(** ** Sorting *)

Section SortFacts.
Context {E : Type}.
Variable cmp : E -> E -> Z.

Local Abbreviation le := (fun a b => cmp a b <= 0).

Lemma insertCmp_perm (x : E) (l : list E) : slices.insertCmp cmp x l ≡ₚ x :: l.
Proof.
  induction l as [|y l IH]; simpl; [done|].
  destruct (cmp x y <? 0); [done|]. by rewrite IH, Permutation_swap.
Qed.

Lemma SortFunc_acc_perm (l acc : list E) :
  fold_left (fun sorted e => slices.insertCmp cmp e sorted) l acc ≡ₚ l ++ acc.
Proof.
  revert acc. induction l as [|x l IH]; intros acc; simpl; [done|].
  by rewrite IH, insertCmp_perm, Permutation_middle.
Qed.

Lemma SortFunc_perm (l : list E) : slices.SortFunc cmp l ≡ₚ l.
Proof. unfold slices.SortFunc. by rewrite SortFunc_acc_perm, app_nil_r. Qed.

Hypothesis cmp_flip : forall a b, 0 <= cmp a b -> cmp b a <= 0.
Hypothesis cmp_trans : forall a b c, cmp a b <= 0 -> cmp b c <= 0 -> cmp a c <= 0.

Lemma insertCmp_sorted (x : E) (l : list E) :
  StronglySorted le l -> StronglySorted le (slices.insertCmp cmp x l).
Proof.
  induction 1 as [|y l Hl IH Hy]; simpl; [repeat constructor|].
  destruct (Z.ltb_spec (cmp x y) 0) as [Hlt|Hge].
  - constructor; [by constructor|]. constructor; [lia|].
    eapply Forall_impl; [exact Hy|]. intros z Hz. simpl in Hz.
    apply (cmp_trans x y z); lia.
  - constructor; [done|]. rewrite insertCmp_perm. constructor; [|done].
    by apply cmp_flip.
Qed.

Lemma SortFunc_acc_sorted (l acc : list E) :
  StronglySorted le acc ->
  StronglySorted le (fold_left (fun sorted e => slices.insertCmp cmp e sorted) l acc).
Proof.
  revert acc. induction l as [|x l IH]; intros acc Hacc; simpl; [done|].
  by apply IH, insertCmp_sorted.
Qed.

Lemma SortFunc_sorted (l : list E) : StronglySorted le (slices.SortFunc cmp l).
Proof. apply SortFunc_acc_sorted. constructor. Qed.

End SortFacts.

(** ** The sorted result *)

Lemma domainLe_Lt (l : list DomainData) :
  StronglySorted domainLe l -> NoDup (map Domain l) -> StronglySorted domainLt l.
Proof.
  induction 1 as [|x l Hl IH Hx]; intros Hnd; [constructor|].
  simpl in Hnd. apply NoDup_cons in Hnd as [Hx' Hnd].
  constructor; [by apply IH|].
  apply Forall_forall. intros y Hy.
  rewrite Forall_forall in Hx. specialize (Hx y Hy).
  unfold domainLe, domainLt in *.
  assert (cmp.Compare (Domain x) (Domain y) <> 0); [|lia].
  intros Heq%Compare_eq. apply Hx'. rewrite Heq.
  apply list_elem_of_fmap. eauto.
Qed.

Lemma sortedDomains_perm (ord : RangeOrder) (m : gmap str Z) :
  sortedDomains ord m
  ≡ₚ map (fun kv => {| Domain := fst kv; CustomerQuantity := snd kv |}) (map_to_list m).
Proof.
  unfold sortedDomains. rewrite SortFunc_perm.
  apply Permutation_map, rangeOver_perm.
Qed.

Lemma sortedDomains_domains (ord : RangeOrder) (m : gmap str Z) :
  map Domain (sortedDomains ord m) ≡ₚ map fst (map_to_list m).
Proof.
  rewrite (Permutation_map Domain (sortedDomains_perm ord m)), map_map.
  done.
Qed.

Lemma sortedDomains_NoDup (ord : RangeOrder) (m : gmap str Z) :
  NoDup (map Domain (sortedDomains ord m)).
Proof. rewrite sortedDomains_domains. apply NoDup_fst_map_to_list. Qed.

Lemma sortedDomains_sorted (ord : RangeOrder) (m : gmap str Z) :
  StronglySorted domainLt (sortedDomains ord m).
Proof.
  apply domainLe_Lt; [|apply sortedDomains_NoDup].
  apply (SortFunc_sorted (fun l r => cmp.Compare (Domain l) (Domain r))).
  - intros a b H. rewrite Compare_flip. lia.
  - intros a b c. apply Compare_le_trans.
Qed.

Lemma domainLt_sorted_unique (l1 l2 : list DomainData) :
  StronglySorted domainLt l1 -> StronglySorted domainLt l2 -> l1 ≡ₚ l2 -> l1 = l2.
Proof.
  apply StronglySorted_unique_strong.
  intros x1 x2 _ _. unfold domainLt. rewrite (Compare_flip (Domain x1)). lia.
Qed.

(** The order in which the map is iterated does not show in the result. *)
Lemma sortedDomains_order (ord1 ord2 : RangeOrder) (m : gmap str Z) :
  sortedDomains ord1 m = sortedDomains ord2 m.
Proof.
  apply domainLt_sorted_unique; [apply sortedDomains_sorted..|].
  by rewrite !sortedDomains_perm.
Qed.

(** Any arrangement of the entries of the map in ascending order of domain
    is the slice that [ImportDomainData] builds: the result does not depend
    on how [slices.SortFunc] sorts. *)
Lemma sortedDomains_any_sort (ord : RangeOrder) (m : gmap str Z)
    (l : list DomainData) :
  StronglySorted domainLe l ->
  l ≡ₚ map (fun kv => {| Domain := fst kv; CustomerQuantity := snd kv |}) (map_to_list m) ->
  l = sortedDomains ord m.
Proof.
  intros Hsorted Hperm. apply domainLt_sorted_unique.
  - apply domainLe_Lt; [done|].
    rewrite (Permutation_map Domain Hperm), map_map. apply NoDup_fst_map_to_list.
  - apply sortedDomains_sorted.
  - by rewrite Hperm, sortedDomains_perm.
Qed.

Lemma sumCounts_perm (l1 l2 : list DomainData) :
  l1 ≡ₚ l2 -> sumCounts l1 = sumCounts l2.
Proof. unfold sumCounts. induction 1; simpl; lia. Qed.

Lemma sumCounts_sortedDomains (ord : RangeOrder) (m : gmap str Z) :
  sumCounts (sortedDomains ord m) = total m.
Proof.
  rewrite (sumCounts_perm _ _ (sortedDomains_perm ord m)).
  unfold sumCounts, total. induction (map_to_list m) as [|kv l IH]; simpl; [done|].
  by rewrite IH.
Qed.

(** ** The accumulation map *)

Lemma total_empty : total ∅ = 0.
Proof. unfold total. by rewrite map_to_list_empty. Qed.

Lemma total_insert_fresh (m : gmap str Z) (k : str) (v : Z) :
  m !! k = None -> total (<[k := v]> m) = v + total m.
Proof.
  intros Hk. unfold total.
  assert (forall l1 l2 : list (str * Z), l1 ≡ₚ l2 ->
    foldr (fun kv acc => snd kv + acc) 0 l1 = foldr (fun kv acc => snd kv + acc) 0 l2)
    as Hperm by (induction 1; simpl; lia).
  by rewrite (Hperm _ _ (map_to_list_insert m k v Hk)).
Qed.

Lemma total_insert (m : gmap str Z) (k : str) (v : Z) :
  total (<[k := v]> m) = total m - default 0 (m !! k) + v.
Proof.
  destruct (m !! k) as [w|] eqn:Hk; simpl.
  - rewrite <- (insert_delete_eq m k v).
    rewrite <- (insert_delete_id m k w Hk) at 2.
    rewrite !total_insert_fresh by apply lookup_delete_eq. lia.
  - rewrite total_insert_fresh by done. lia.
Qed.

Lemma total_nonneg (m : gmap str Z) :
  map_Forall (fun _ v => 0 <= v) m -> 0 <= total m.
Proof.
  induction m as [|k v m Hk _ IH] using map_first_key_ind; intros Hm.
  - by rewrite total_empty.
  - rewrite total_insert_fresh by done.
    apply map_Forall_insert in Hm as [Hv Hm]; [|done].
    specialize (IH Hm). lia.
Qed.

Lemma lookup_le_total (m : gmap str Z) (k : str) (v : Z) :
  map_Forall (fun _ v => 0 <= v) m -> m !! k = Some v -> v <= total m.
Proof.
  intros Hm Hk. rewrite <- (insert_delete_id m k v Hk).
  rewrite total_insert_fresh by apply lookup_delete_eq.
  assert (0 <= total (delete k m)); [|lia].
  apply total_nonneg. intros j w Hj.
  apply lookup_delete_Some in Hj as [_ Hj]. by apply (Hm j).
Qed.

(** ** The read loop *)

Lemma uint64_small (z : Z) : 0 <= z < 2 ^ 64 -> uint64 z = z.
Proof. intros H. unfold uint64. by apply Z.mod_small. Qed.

(** The header record sets the number of fields of every later record. *)
Lemma Read_header (hl : Z) (hdr : list str) (rows : list csv.rawRecord) :
  csv.Read (csv.NewReader (csv.Parsed hl hdr :: rows))
  = (hdr, None, {| csv.FieldsPerRecord := Z.of_nat (length hdr); csv.input := rows |}).
Proof. reflexivity. Qed.

Lemma readRecord_valid (n : nat) (ln : Z) (line : list str) :
  validRecord n (csv.Parsed ln line) = true ->
  csv.readRecord (Z.of_nat n) (csv.Parsed ln line) = (line, None, Z.of_nat n).
Proof.
  simpl. intros H. apply andb_prop in H as [H _]. apply andb_prop in H as [Hn H2].
  apply Nat.eqb_eq in Hn. apply Nat.ltb_lt in H2. subst n.
  destruct (Z.ltb_spec 0 (Z.of_nat (length line))); [|lia].
  by rewrite Z.eqb_refl.
Qed.

Lemma processRecord_valid (lg : slog.Logger) (n : nat) (ln : Z) (line : list str)
    (st : loopState) :
  validRecord n (csv.Parsed ln line) = true ->
  exists dom lgd,
    processRecord lg line st
    = (Returns (inl {| data := <[dom := uint64 (default 0 (data st !! dom) + 1)]> (data st);
                       rowCount := uint64 (rowCount st + 1);
                       logged := lgd |}), lgd).
Proof.
  simpl. intros H. apply andb_prop in H as [H He]. apply andb_prop in H as [_ H2].
  apply Nat.ltb_lt in H2. unfold processRecord, emailColumnIndex.
  destruct (Z.leb_spec (Z.of_nat (length line)) 2); [lia|].
  change (Z.to_nat 2) with 2%nat.
  destruct (line !! 2%nat) as [email|]; [|done].
  destruct (validateEmail email) as [dom [e|]]; [done|]. simpl. eauto.
Qed.

(** The loop never indexes a record out of range. *)
Lemma processRecord_no_panic (lg : slog.Logger) (line : list str) (st : loopState) :
  fst (processRecord lg line st) <> Panics.
Proof.
  unfold processRecord, emailColumnIndex.
  destruct (Z.leb_spec (Z.of_nat (length line)) 2) as [|Hlen]; [done|].
  change (Z.to_nat 2) with 2%nat.
  destruct (line !! 2%nat) as [email|] eqn:Hl.
  - by destruct (validateEmail email) as [dom [e|]].
  - apply lookup_ge_None in Hl. lia.
Qed.

Lemma readLoop_no_panic (lg : slog.Logger) (fpr : Z) (rows : list csv.rawRecord)
    (st : loopState) :
  fst (readLoop lg fpr rows st) <> Panics.
Proof.
  revert fpr st. induction rows as [|raw rows IH]; intros fpr st; simpl; [done|].
  destruct (csv.readRecord fpr raw) as [[line [e|]] fpr']; [done|].
  pose proof (processRecord_no_panic lg line st) as Hp.
  destruct (processRecord lg line st) as [[[st'|err]|] out]; simpl in *; [apply IH|done..].
Qed.

(** The loop, read as the source writes it: each pass starts with
    [csvReader.Read()]. *)
Lemma readLoop_Read (lg : slog.Logger) (fpr : Z) (rows : list csv.rawRecord)
    (st : loopState) :
  readLoop lg fpr rows st
  = match csv.Read {| csv.FieldsPerRecord := fpr; csv.input := rows |} with
    | (_, Some csv.EOF, _) => (Returns (inl st), logged st)
    | (_, Some readErr, _) => (Returns (inr (ReadError readErr)), logged st)
    | (line, None, r) =>
        match processRecord lg line st with
        | (Returns (inl st'), _) =>
            readLoop lg (csv.FieldsPerRecord r) (csv.input r) st'
        | stop => stop
        end
    end.
Proof.
  destruct rows as [|[ln dst|e|msg] rest]; [done| |done..].
  unfold csv.Read. cbn [readLoop csv.input csv.FieldsPerRecord csv.readRecord].
  destruct (0 <? fpr); [|by destruct (fpr =? 0)].
  by destruct (negb _).
Qed.

(** The logger shows in the log only. *)
Lemma processRecord_core (lg1 lg2 : slog.Logger) (line : list str)
    (st1 st2 : loopState) :
  stateCore st1 = stateCore st2 ->
  loopCore (fst (processRecord lg1 line st1)) = loopCore (fst (processRecord lg2 line st2)).
Proof.
  destruct st1 as [m1 n1 o1], st2 as [m2 n2 o2]. unfold stateCore. simpl.
  intros [= -> ->]. unfold processRecord. simpl.
  destruct (_ <=? _); [done|]. destruct (line !! _) as [email|]; [|done].
  by destruct (validateEmail email) as [dom [e|]].
Qed.

Lemma readLoop_core (lg1 lg2 : slog.Logger) (fpr : Z) (rows : list csv.rawRecord)
    (st1 st2 : loopState) :
  stateCore st1 = stateCore st2 ->
  loopCore (fst (readLoop lg1 fpr rows st1)) = loopCore (fst (readLoop lg2 fpr rows st2)).
Proof.
  revert fpr st1 st2. induction rows as [|raw rows IH]; intros fpr st1 st2 Hst; simpl.
  - unfold stateCore in *. congruence.
  - destruct (csv.readRecord fpr raw) as [[line [e|]] fpr']; [done|].
    pose proof (processRecord_core lg1 lg2 line st1 st2 Hst) as Hp.
    destruct (processRecord lg1 line st1) as [[[st1'|err1]|] out1],
      (processRecord lg2 line st2) as [[[st2'|err2]|] out2];
      simpl in Hp; try discriminate; try done.
    apply IH. unfold stateCore in *. congruence.
Qed.

(** What [ImportDomainData] returns, from what the loop computes. *)
Lemma ImportDomainData_fst (lg : slog.Logger) (ord : RangeOrder) (fs : os.SourceFiles)
    (ci : CustomerImporter) :
  fst (ImportDomainData lg ord fs ci)
  = match os.Open fs (path ci) with
    | inr err => Returns (nil_slice, Some (OpenError err))
    | inl file =>
        match csv.Read (csv.NewReader file) with
        | (_, Some readErr, _) => Returns (nil_slice, Some (ReadError readErr))
        | (_, None, csvReader) =>
            match loopCore (fst (readLoop lg (csv.FieldsPerRecord csvReader)
                                   (csv.input csvReader)
                                   {| data := ∅; rowCount := 0; logged := [] |})) with
            | Panics => Panics
            | Returns (inr err) => Returns (nil_slice, Some err)
            | Returns (inl (m, _)) => Returns (Some (sortedDomains ord m), None)
            end
        end
    end.
Proof.
  unfold ImportDomainData. destruct (os.Open fs (path ci)) as [file|err]; [|done].
  destruct (csv.Read (csv.NewReader file)) as [[hdr [e|]] r]; [done|].
  by destruct (readLoop _ _ _ _) as [[[st|err]|] out].
Qed.

(** Valid rows are consumed and leave the loop running. *)
Lemma readLoop_valid_prefix (lg : slog.Logger) (n : nat)
    (pre rest : list csv.rawRecord) (st : loopState) :
  Forall (fun raw => validRecord n raw = true) pre ->
  exists st', readLoop lg (Z.of_nat n) (pre ++ rest) st = readLoop lg (Z.of_nat n) rest st'.
Proof.
  intros Hpre. revert st. induction Hpre as [|raw pre Hraw _ IH]; intros st.
  - by exists st.
  - destruct raw as [ln line|e|msg]; [|done..]. simpl app. cbn [readLoop].
    rewrite (readRecord_valid n ln line Hraw).
    destruct (processRecord_valid lg n ln line st Hraw) as (dom & lgd & ->).
    apply IH.
Qed.

(** On valid rows the loop ends without error; below 2^64 rows the
    counters do not wrap and add up to the number of rows. *)
Lemma readLoop_valid (lg : slog.Logger) (n : nat) (rows : list csv.rawRecord)
    (st : loopState) :
  Forall (fun raw => validRecord n raw = true) rows ->
  map_Forall (fun _ v => 0 <= v) (data st) ->
  total (data st) = rowCount st ->
  rowCount st + Z.of_nat (length rows) < 2 ^ 64 ->
  exists st',
    fst (readLoop lg (Z.of_nat n) rows st) = Returns (inl st')
    /\ total (data st') = rowCount st + Z.of_nat (length rows).
Proof.
  intros Hrows. revert st.
  induction Hrows as [|raw rows Hraw _ IH]; intros st Hpos Htot Hlt.
  - exists st. simpl. split; [done|lia].
  - destruct raw as [ln line|e|msg]; [|done..]. cbn [readLoop].
    rewrite (readRecord_valid n ln line Hraw).
    destruct (processRecord_valid lg n ln line st Hraw) as (dom & lgd & ->).
    simpl length in Hlt.
    assert (0 <= total (data st)) as H0 by by apply total_nonneg.
    assert (0 <= default 0 (data st !! dom) <= total (data st)) as Hv.
    { destruct (data st !! dom) as [v|] eqn:Hd; simpl; [|lia].
      split; [by apply (Hpos dom)|by apply (lookup_le_total _ dom)]. }
    rewrite !uint64_small by lia.
    edestruct IH as (st' & Hrun & Hsum); [..|exists st'; split; [exact Hrun|]].
    + simpl. apply map_Forall_insert_2; [lia|done].
    + simpl. rewrite total_insert. lia.
    + simpl. lia.
    + rewrite Hsum. simpl. lia.
Qed.

(** ** The validator *)

Lemma whitespaceOnly_TrimSpace (s : str) : whitespaceOnly s -> strings.TrimSpace s = [].
Proof.
  intros Hs. unfold strings.TrimSpace.
  assert (strings.TrimLeftSpace s = []) as ->; [|done].
  unfold strings.TrimLeftSpace.
  induction Hs as [|r s Hr _ IH]; [done|].
  rewrite <- IH. by apply trimLeading_step, leadRune_encoded_space.
Qed.

(** C1. An address [local@domain] whose local part has no separator and is
    not blank, and whose domain, once trimmed, is not empty and has no
    separator, validates: the function returns the trimmed domain and no
    error, and the returned value is a piece of the domain as it was given,
    byte for byte. *)
Theorem validateEmail_returns_domain (local domain : str) :
  at_sign ∉ local ->
  strings.TrimSpace local <> [] ->
  strings.TrimSpace domain <> [] ->
  at_sign ∉ strings.TrimSpace domain ->
  validateEmail (local ++ at_sign :: domain) = (strings.TrimSpace domain, None)
  /\ exists w1 w2, domain = w1 ++ strings.TrimSpace domain ++ w2.
Proof.
  intros Hl Hlocal Hdom Hat. split; [|apply TrimSpace_infix].
  rewrite validateEmail_at by done.
  destruct (isEmpty (strings.TrimSpace local)) eqn:E1;
    [by apply isEmpty_true in E1|].
  destruct (isEmpty (strings.TrimSpace domain)) eqn:E2;
    [by apply isEmpty_true in E2|].
  destruct (strings.Contains (strings.TrimSpace domain) "@") eqn:E3; [|done].
  by apply Contains_at in E3.
Qed.

Lemma validateEmail_returns_domain_witness :
  (at_sign ∉ lit "  user")
  /\ strings.TrimSpace (lit "  user") <> []
  /\ strings.TrimSpace (lit "Example.COM  ") <> []
  /\ (at_sign ∉ strings.TrimSpace (lit "Example.COM  "))
  /\ validateEmail (lit "  user" ++ at_sign :: lit "Example.COM  ")
     = (lit "Example.COM", None).
Proof.
  assert (at_sign ∉ lit "  user") as H1
    by (apply (bool_decide_unpack _); vm_compute; exact I).
  assert (strings.TrimSpace (lit "  user") <> []) as H2 by (vm_compute; discriminate).
  assert (strings.TrimSpace (lit "Example.COM  ") <> []) as H3
    by (vm_compute; discriminate).
  assert (at_sign ∉ strings.TrimSpace (lit "Example.COM  ")) as H4
    by (apply (bool_decide_unpack _); vm_compute; exact I).
  split; [exact H1|]. split; [exact H2|]. split; [exact H3|]. split; [exact H4|].
  exact (proj1 (validateEmail_returns_domain (lit "  user") (lit "Example.COM  ")
                  H1 H2 H3 H4)).
Defined.

(** C2. The validator fails exactly when the string has no separator or
    two or more, or when its local part or its domain part is blank; and a
    string of white space only, the empty string included, fails with
    [EmptyInput]. *)
Theorem validateEmail_error_iff (s : str) :
  (snd (validateEmail s) <> None <->
     strings.CountByte at_sign s = 0%nat
     \/ (2 <= strings.CountByte at_sign s)%nat
     \/ strings.TrimSpace (localPart s) = []
     \/ strings.TrimSpace (domainPart s) = [])
  /\ (whitespaceOnly s -> validateEmail s = ([], Some EmptyInput)).
Proof.
  split.
  - destruct (decide (at_sign ∈ s)) as [Hin|Hout].
    + destruct (at_split s Hin) as (l & d & -> & Hl).
      unfold localPart, domainPart. rewrite Cut_at_first by done. simpl.
      rewrite CountByte_app, CountByte_cons_eq.
      rewrite (proj2 (CountByte_zero at_sign l) Hl). simpl.
      rewrite validateEmail_at by done.
      destruct (isEmpty (strings.TrimSpace l)) eqn:E1.
      { apply isEmpty_true in E1. simpl. split; [auto|done]. }
      destruct (isEmpty (strings.TrimSpace d)) eqn:E2.
      { apply isEmpty_true in E2. simpl. split; [auto|done]. }
      assert (strings.TrimSpace l <> []) as N1
        by (intros E; apply isEmpty_true in E; congruence).
      assert (strings.TrimSpace d <> []) as N2
        by (intros E; apply isEmpty_true in E; congruence).
      destruct (strings.Contains (strings.TrimSpace d) "@") eqn:E3; simpl.
      * split; [intros _|done]. right; left.
        apply Contains_at in E3. apply (proj1 (TrimSpace_at_elem d)) in E3.
        assert (strings.CountByte at_sign d <> 0%nat); [|lia].
        by intros Hz%CountByte_zero.
      * split; [done|]. intros [H|[H|[H|H]]]; try done.
        assert (strings.CountByte at_sign d = 0%nat) as H0; [|lia].
        apply CountByte_zero. rewrite <- TrimSpace_at_elem, <- Contains_at.
        congruence.
    + rewrite validateEmail_no_at by done. simpl. split; [intros _|done].
      left. by apply CountByte_zero.
  - intros Hs%whitespaceOnly_TrimSpace. unfold validateEmail. by rewrite Hs.
Qed.

Lemma validateEmail_error_iff_witness :
  whitespaceOnly (lit "   ") /\ validateEmail (lit "   ") = ([], Some EmptyInput).
Proof.
  assert (whitespaceOnly (lit "   ")) as H
    by (apply (ws_rune 32 (lit "  ")), (ws_rune 32 (lit " ")), (ws_rune 32 []);
        solve [reflexivity | constructor]).
  split; [exact H|].
  exact (proj2 (validateEmail_error_iff (lit "   ")) H).
Defined.

(** ** The aggregation *)

Lemma ImportDomainData_no_panic (lg : slog.Logger) (ord : RangeOrder)
    (fs : os.SourceFiles) (ci : CustomerImporter) :
  fst (ImportDomainData lg ord fs ci) <> Panics.
Proof.
  rewrite ImportDomainData_fst. destruct (os.Open fs (path ci)) as [file|err]; [|done].
  destruct (csv.Read (csv.NewReader file)) as [[hdr [e|]] r]; [done|].
  pose proof (readLoop_no_panic lg (csv.FieldsPerRecord r) (csv.input r)
                {| data := ∅; rowCount := 0; logged := [] |}) as Hp.
  destruct (fst (readLoop _ _ _ _)) as [[st|err]|]; simpl; [by destruct st|done..].
Qed.

(** C3, as amended.  When the records before a record of at most two
    fields all read and validate, the call stops at that record with no
    result: with [InsufficientColumns], whose message gives the three
    columns expected and the number found, when the record has as many
    fields as the header, and with the reader's [ErrFieldCount], at the
    line of the record, when it has not. *)
Theorem short_record_aborts (lg : slog.Logger) (ord : RangeOrder) (fs : os.SourceFiles)
    (ci : CustomerImporter) (hl line : Z) (hdr fields : list str)
    (pre post : list csv.rawRecord) :
  os.Open fs (path ci)
  = inl (csv.Parsed hl hdr :: pre ++ csv.Parsed line fields :: post) ->
  hdr <> [] ->
  Forall (fun raw => validRecord (length hdr) raw = true) pre ->
  (length fields <= 2)%nat ->
  fst (ImportDomainData lg ord fs ci)
  = Returns (nil_slice,
             Some (if decide (length fields = length hdr)
                   then InsufficientColumns 3 (Z.of_nat (length fields))
                   else wrongFieldCount line))
  /\ errorText (InsufficientColumns 3 (Z.of_nat (length fields)))
     = lit "invalid CSV format: expected at least 3 columns, got "
         ++ strconv.Itoa (Z.of_nat (length fields))
  /\ errorText (wrongFieldCount line)
     = lit "record on line " ++ strconv.Itoa line ++ lit ": wrong number of fields".
Proof.
  intros Hopen Hhdr Hpre Hshort. split; [|split; reflexivity].
  rewrite ImportDomainData_fst, Hopen, Read_header. simpl.
  destruct (readLoop_valid_prefix lg (length hdr) pre (csv.Parsed line fields :: post)
              {| data := ∅; rowCount := 0; logged := [] |} Hpre) as [st' ->].
  cbn [readLoop csv.readRecord].
  assert (0 < Z.of_nat (length hdr)) as Hpos by (destruct hdr; [done|simpl; lia]).
  destruct (Z.ltb_spec 0 (Z.of_nat (length hdr))); [|lia].
  destruct (decide (length fields = length hdr)) as [Heq|Hne].
  - destruct (Z.eqb_spec (Z.of_nat (length fields)) (Z.of_nat (length hdr))); [|lia].
    simpl. unfold processRecord, emailColumnIndex.
    destruct (Z.leb_spec (Z.of_nat (length fields)) 2); [done|lia].
  - destruct (Z.eqb_spec (Z.of_nat (length fields)) (Z.of_nat (length hdr))); [lia|].
    done.
Qed.

Lemma short_record_aborts_witness :
  os.Open sampleFiles (path (NewCustomerImporter "two.csv"))
  = inl (csv.Parsed 1 [lit "first_name"; lit "last_name"]
           :: [] ++ csv.Parsed 2 [lit "John"; lit "Doe"] :: [])
  /\ fst (ImportDomainData (Some slog.LevelInfo) listedOrder sampleFiles
            (NewCustomerImporter "two.csv"))
     = Returns (nil_slice, Some (InsufficientColumns 3 2)).
Proof.
  assert (os.Open sampleFiles (path (NewCustomerImporter "two.csv"))
          = inl (csv.Parsed 1 [lit "first_name"; lit "last_name"]
                   :: [] ++ csv.Parsed 2 [lit "John"; lit "Doe"] :: [])) as H
    by (vm_compute; reflexivity).
  split; [exact H|].
  exact (proj1 (short_record_aborts (Some slog.LevelInfo) listedOrder sampleFiles
                  (NewCustomerImporter "two.csv") _ _ _ _ [] [] H
                  ltac:(discriminate) ltac:(constructor) ltac:(simpl; lia))).
Defined.

(** C3, as stated, fails: under the header of five fields the row
    [John,Doe] on the third line is refused by the CSV reader for its
    number of fields, and the error is not [InsufficientColumns]. *)
Lemma short_row_under_long_header :
  os.Open sampleFiles (path (NewCustomerImporter "short_row.csv"))
  = inl [header5 1; rowJane 2; rowJohnDoe 3; rowAnn 4]
  /\ rowJohnDoe 3 = csv.Parsed 3 [lit "John"; lit "Doe"]
  /\ fst (ImportDomainData (Some slog.LevelInfo) listedOrder sampleFiles
            (NewCustomerImporter "short_row.csv"))
     = Returns (nil_slice, Some (wrongFieldCount 3))
  /\ fst (ImportDomainData (Some slog.LevelInfo) listedOrder sampleFiles
            (NewCustomerImporter "short_row.csv"))
     <> Returns (nil_slice, Some (InsufficientColumns 3 2))
  /\ errorText (wrongFieldCount 3) = lit "record on line 3: wrong number of fields".
Proof.
  assert (fst (ImportDomainData (Some slog.LevelInfo) listedOrder sampleFiles
                 (NewCustomerImporter "short_row.csv"))
          = Returns (nil_slice, Some (wrongFieldCount 3))) as H
    by (vm_compute; reflexivity).
  split; [vm_compute; reflexivity|]. split; [reflexivity|]. split; [exact H|].
  split; [rewrite H; discriminate|vm_compute; reflexivity].
Qed.

(** C4. A result that is returned is in strictly ascending order of
    domain: it is sorted and no domain occurs twice. *)
Theorem import_sorted_distinct (lg : slog.Logger) (ord : RangeOrder) (fs : os.SourceFiles)
    (ci : CustomerImporter) (result : list DomainData) :
  fst (ImportDomainData lg ord fs ci) = Returns (Some result, None) ->
  StronglySorted domainLt result /\ NoDup (map Domain result).
Proof.
  rewrite ImportDomainData_fst. destruct (os.Open fs (path ci)) as [file|err]; [|done].
  destruct (csv.Read (csv.NewReader file)) as [[hdr [e|]] r]; [done|].
  destruct (loopCore _) as [[[m n]|err]|]; [|done..].
  intros [= <-]. split; [apply sortedDomains_sorted|apply sortedDomains_NoDup].
Qed.

Lemma import_sorted_distinct_witness :
  fst (ImportDomainData (Some slog.LevelInfo) backwardOrder sampleFiles
         (NewCustomerImporter "customers.csv"))
  = Returns (Some [ {| Domain := "acme.io"; CustomerQuantity := 1 |};
                    {| Domain := "example.com"; CustomerQuantity := 2 |} ], None)
  /\ StronglySorted domainLt
       [ {| Domain := "acme.io"; CustomerQuantity := 1 |};
         {| Domain := "example.com"; CustomerQuantity := 2 |} ].
Proof.
  assert (fst (ImportDomainData (Some slog.LevelInfo) backwardOrder sampleFiles
                 (NewCustomerImporter "customers.csv"))
          = Returns (Some [ {| Domain := "acme.io"; CustomerQuantity := 1 |};
                            {| Domain := "example.com"; CustomerQuantity := 2 |} ],
                     None)) as H by (vm_compute; reflexivity).
  split; [exact H|].
  exact (proj1 (import_sorted_distinct _ _ _ _ _ H)).
Defined.

(** C5. On a file whose data rows all read and validate, the call
    succeeds and the counts of the result add up to the number of data
    rows, the header not counted.  The counters are [uint64]: the number of
    rows is taken below 2^64. *)
Theorem import_sum_counts (lg : slog.Logger) (ord : RangeOrder) (fs : os.SourceFiles)
    (ci : CustomerImporter) (hl : Z) (hdr : list str) (rows : list csv.rawRecord) :
  os.Open fs (path ci) = inl (csv.Parsed hl hdr :: rows) ->
  Forall (fun raw => validRecord (length hdr) raw = true) rows ->
  Z.of_nat (length rows) < 2 ^ 64 ->
  exists result,
    fst (ImportDomainData lg ord fs ci) = Returns (Some result, None)
    /\ sumCounts result = Z.of_nat (length rows).
Proof.
  intros Hopen Hrows Hlt.
  rewrite ImportDomainData_fst, Hopen, Read_header. simpl.
  destruct (readLoop_valid lg (length hdr) rows
              {| data := ∅; rowCount := 0; logged := [] |} Hrows)
    as (st & -> & Hsum); simpl.
  - apply map_Forall_empty.
  - apply total_empty.
  - lia.
  - exists (sortedDomains ord (data st)). split; [done|].
    rewrite sumCounts_sortedDomains. simpl in Hsum. lia.
Qed.

Lemma import_sum_counts_witness :
  os.Open sampleFiles (path (NewCustomerImporter "customers.csv"))
  = inl (csv.Parsed 1 [lit "first_name"; lit "last_name"; lit "email"; lit "gender";
                     lit "ip_address"] :: [rowJane 2; rowBob 3; rowAnn 4])
  /\ exists result,
       fst (ImportDomainData (Some slog.LevelInfo) listedOrder sampleFiles
              (NewCustomerImporter "customers.csv")) = Returns (Some result, None)
       /\ sumCounts result = 3.
Proof.
  assert (os.Open sampleFiles (path (NewCustomerImporter "customers.csv"))
          = inl (csv.Parsed 1 [lit "first_name"; lit "last_name"; lit "email";
                             lit "gender"; lit "ip_address"]
                   :: [rowJane 2; rowBob 3; rowAnn 4])) as H by (vm_compute; reflexivity).
  split; [exact H|].
  exact (import_sum_counts (Some slog.LevelInfo) listedOrder sampleFiles
           (NewCustomerImporter "customers.csv") _ _ _ H
           ltac:(repeat constructor) ltac:(simpl; lia)).
Defined.

(** C6. Whenever the call returns an error it returns the nil slice: no
    part of the aggregation is handed out. *)
Theorem import_all_or_nothing (lg : slog.Logger) (ord : RangeOrder) (fs : os.SourceFiles)
    (ci : CustomerImporter) (result : slice DomainData) (err : error) :
  fst (ImportDomainData lg ord fs ci) = Returns (result, Some err) ->
  result = nil_slice.
Proof.
  rewrite ImportDomainData_fst. destruct (os.Open fs (path ci)) as [file|e]; [|congruence].
  destruct (csv.Read (csv.NewReader file)) as [[hdr [e|]] r]; [congruence|].
  destruct (loopCore _) as [[[m n]|e]|]; congruence.
Qed.

Lemma import_all_or_nothing_witness :
  fst (ImportDomainData (Some slog.LevelInfo) listedOrder sampleFiles
         (NewCustomerImporter "short_row.csv"))
  = Returns (nil_slice, Some (wrongFieldCount 3))
  /\ @nil_slice DomainData = nil_slice.
Proof.
  assert (fst (ImportDomainData (Some slog.LevelInfo) listedOrder sampleFiles
                 (NewCustomerImporter "short_row.csv"))
          = Returns (nil_slice, Some (wrongFieldCount 3))) as H
    by (vm_compute; reflexivity).
  split; [exact H|].
  exact (import_all_or_nothing _ _ _ _ _ _ H).
Defined.

(** Rows that differ in their lines only take the loop the same way: the
    same state or the same kind of error, and the same log. *)
Lemma readLoop_content (lg : slog.Logger) (fpr : Z) (rows1 rows2 : list csv.rawRecord)
    (st : loopState) :
  map recordContent rows1 = map recordContent rows2 ->
  match fst (readLoop lg fpr rows1 st), fst (readLoop lg fpr rows2 st) with
  | Returns (inl st1), Returns (inl st2) => st1 = st2
  | Returns (inr e1), Returns (inr e2) => errorKind e1 = errorKind e2
  | Panics, Panics => True
  | _, _ => False
  end
  /\ snd (readLoop lg fpr rows1 st) = snd (readLoop lg fpr rows2 st).
Proof.
  revert fpr rows2 st.
  induction rows1 as [|raw1 rows1 IH]; intros fpr [|raw2 rows2] st Hmap;
    try discriminate; [done|].
  injection Hmap as Hraw Hrest. cbn [readLoop].
  destruct raw1 as [l1 f1|e1|m1], raw2 as [l2 f2|e2|m2]; try discriminate.
  - injection Hraw as <-. cbn [csv.readRecord].
    destruct (0 <? fpr).
    + destruct (negb _);
        [simpl; unfold unplaced; simpl; by rewrite !Z.sub_diag|].
      destruct (processRecord lg f1 st) as [[[st'|err]|] out]; [by apply IH|done..].
    + destruct (fpr =? 0);
        (destruct (processRecord lg f1 st) as [[[st'|err]|] out];
         [by apply IH|done..]).
  - assert (unplaced e1 = unplaced e2) as Hu
      by (change (csv.Failed (unplaced e1) = csv.Failed (unplaced e2)) in Hraw;
          congruence).
    cbn [csv.readRecord fst snd errorKind]. by rewrite Hu.
  - injection Hraw as <-. done.
Qed.

(** C7, as amended.  Of the header only the number of fields is used.  Two
    files whose headers are records of the same number of fields and whose
    data rows are the same, whatever the lines they stand on, give the same
    result or the same kind of error (the same error but for the lines that
    a reader error names) and the same log; when the rows stand on the same
    lines as well, the two outcomes are the same altogether. *)
Theorem header_content_unused (lg : slog.Logger) (ord : RangeOrder)
    (fs1 fs2 : os.SourceFiles) (ci1 ci2 : CustomerImporter) (hl1 hl2 : Z)
    (hdr1 hdr2 : list str) (rows1 rows2 : list csv.rawRecord) :
  os.Open fs1 (path ci1) = inl (csv.Parsed hl1 hdr1 :: rows1) ->
  os.Open fs2 (path ci2) = inl (csv.Parsed hl2 hdr2 :: rows2) ->
  length hdr1 = length hdr2 ->
  map recordContent rows1 = map recordContent rows2 ->
  outcomeKind (fst (ImportDomainData lg ord fs1 ci1))
  = outcomeKind (fst (ImportDomainData lg ord fs2 ci2))
  /\ snd (ImportDomainData lg ord fs1 ci1) = snd (ImportDomainData lg ord fs2 ci2)
  /\ (rows1 = rows2 ->
      ImportDomainData lg ord fs1 ci1 = ImportDomainData lg ord fs2 ci2).
Proof.
  intros H1 H2 Hlen Hrows. unfold ImportDomainData.
  rewrite H1, H2, !Read_header, Hlen. cbv zeta.
  cbn [csv.FieldsPerRecord csv.input].
  destruct (readLoop_content lg (Z.of_nat (length hdr2)) rows1 rows2
              {| data := ∅; rowCount := 0; logged := [] |} Hrows) as [Hfst Hsnd].
  split; [|split].
  - destruct (readLoop lg _ rows1 _) as [[[st1|e1]|] out1],
      (readLoop lg _ rows2 _) as [[[st2|e2]|] out2]; simpl in *; try done.
    + by subst.
    + by rewrite Hfst.
  - destruct (readLoop lg _ rows1 _) as [[[st1|e1]|] out1],
      (readLoop lg _ rows2 _) as [[[st2|e2]|] out2]; simpl in *; try done.
    by subst.
  - by intros ->.
Qed.

Lemma header_content_unused_witness :
  os.Open sampleFiles (path (NewCustomerImporter "customers.csv"))
  = inl (csv.Parsed 1 [lit "first_name"; lit "last_name"; lit "email"; lit "gender";
                       lit "ip_address"] :: [rowJane 2; rowBob 3; rowAnn 4])
  /\ os.Open sampleFiles (path (NewCustomerImporter "renamed.csv"))
     = inl (csv.Parsed 1 [lit "a"; lit "b"; lit "c"; lit "d"; lit "e"]
              :: [rowJane 2; rowBob 3; rowAnn 4])
  /\ ImportDomainData (Some slog.LevelInfo) listedOrder sampleFiles
       (NewCustomerImporter "customers.csv")
     = ImportDomainData (Some slog.LevelInfo) listedOrder sampleFiles
         (NewCustomerImporter "renamed.csv").
Proof.
  assert (os.Open sampleFiles (path (NewCustomerImporter "customers.csv"))
          = inl (csv.Parsed 1 [lit "first_name"; lit "last_name"; lit "email";
                               lit "gender"; lit "ip_address"]
                   :: [rowJane 2; rowBob 3; rowAnn 4])) as H1
    by (vm_compute; reflexivity).
  assert (os.Open sampleFiles (path (NewCustomerImporter "renamed.csv"))
          = inl (csv.Parsed 1 [lit "a"; lit "b"; lit "c"; lit "d"; lit "e"]
                   :: [rowJane 2; rowBob 3; rowAnn 4])) as H2
    by (vm_compute; reflexivity).
  split; [exact H1|]. split; [exact H2|].
  exact (proj2 (proj2 (header_content_unused (Some slog.LevelInfo) listedOrder
                         sampleFiles sampleFiles _ _ _ _ _ _ _ _ H1 H2 eq_refl
                         eq_refl)) eq_refl).
Defined.

(** C7, as stated, fails: the same data row is accepted under a header of
    three fields and refused under a header of five. *)
Lemma header_field_count_matters :
  os.Open sampleFiles (path (NewCustomerImporter "three.csv"))
  = inl [header3 1; rowJane3 2]
  /\ os.Open sampleFiles (path (NewCustomerImporter "three_under_five.csv"))
     = inl [header5 1; rowJane3 2]
  /\ fst (ImportDomainData (Some slog.LevelInfo) listedOrder sampleFiles
            (NewCustomerImporter "three.csv"))
     = Returns (Some [ {| Domain := "example.com"; CustomerQuantity := 1 |} ], None)
  /\ fst (ImportDomainData (Some slog.LevelInfo) listedOrder sampleFiles
            (NewCustomerImporter "three_under_five.csv"))
     = Returns (nil_slice, Some (wrongFieldCount 2)).
Proof. repeat split; vm_compute; reflexivity. Qed.

(** C8. The validator is a function of its argument, and what
    [ImportDomainData] returns depends on the content of the file alone:
    neither the order in which the map is iterated nor the level of the
    logger shows in it. *)
Theorem import_deterministic :
  (forall e1 e2 : str, e1 = e2 -> validateEmail e1 = validateEmail e2)
  /\ (forall (lg1 lg2 : slog.Logger) (ord1 ord2 : RangeOrder)
        (fs1 fs2 : os.SourceFiles) (ci1 ci2 : CustomerImporter),
        os.Open fs1 (path ci1) = os.Open fs2 (path ci2) ->
        fst (ImportDomainData lg1 ord1 fs1 ci1)
        = fst (ImportDomainData lg2 ord2 fs2 ci2)).
Proof.
  split; [by intros e1 e2 ->|].
  intros lg1 lg2 ord1 ord2 fs1 fs2 ci1 ci2 Hopen.
  rewrite !ImportDomainData_fst, Hopen.
  destruct (os.Open fs2 (path ci2)) as [file|e]; [|done].
  destruct (csv.Read (csv.NewReader file)) as [[hdr [e|]] r]; [done|].
  rewrite (readLoop_core lg1 lg2 (csv.FieldsPerRecord r) (csv.input r)
             {| data := ∅; rowCount := 0; logged := [] |}
             {| data := ∅; rowCount := 0; logged := [] |} eq_refl).
  destruct (loopCore _) as [[[m n]|e]|]; [|done..].
  by rewrite (sortedDomains_order ord1 ord2).
Qed.

Lemma import_deterministic_witness :
  validateEmail (lit "user@example.com") = validateEmail (lit "user@example.com")
  /\ os.Open sampleFiles (path (NewCustomerImporter "customers.csv"))
     = os.Open sampleFiles (path (NewCustomerImporter "customers.csv"))
  /\ fst (ImportDomainData (Some slog.LevelInfo) listedOrder sampleFiles
            (NewCustomerImporter "customers.csv"))
     = fst (ImportDomainData None backwardOrder sampleFiles
              (NewCustomerImporter "customers.csv")).
Proof.
  split; [exact (proj1 import_deterministic _ _ eq_refl)|].
  split; [reflexivity|].
  exact (proj2 import_deterministic (Some slog.LevelInfo) None listedOrder
           backwardOrder sampleFiles sampleFiles _ _ eq_refl).
Defined.

(** C9. A file that holds a header and no data row is not an error: the
    call returns a slice of length 0, which is not the nil slice. *)
Theorem import_header_only (lg : slog.Logger) (ord : RangeOrder) (fs : os.SourceFiles)
    (ci : CustomerImporter) (hl : Z) (hdr : list str) :
  os.Open fs (path ci) = inl [csv.Parsed hl hdr] ->
  fst (ImportDomainData lg ord fs ci) = Returns (Some [], None)
  /\ Some (@nil DomainData) <> nil_slice.
Proof.
  intros Hopen. split; [|done].
  rewrite ImportDomainData_fst, Hopen, Read_header. simpl.
  unfold sortedDomains. rewrite map_to_list_empty.
  by rewrite (proj1 (Permutation_nil_r _) (rangeOver_perm ord [])).
Qed.

Lemma import_header_only_witness :
  os.Open sampleFiles (path (NewCustomerImporter "header_only.csv"))
  = inl [csv.Parsed 1 [lit "first_name"; lit "last_name"; lit "email"; lit "gender";
                     lit "ip_address"]]
  /\ fst (ImportDomainData (Some slog.LevelInfo) listedOrder sampleFiles
            (NewCustomerImporter "header_only.csv")) = Returns (Some [], None).
Proof.
  assert (os.Open sampleFiles (path (NewCustomerImporter "header_only.csv"))
          = inl [csv.Parsed 1 [lit "first_name"; lit "last_name"; lit "email";
                             lit "gender"; lit "ip_address"]]) as H
    by (vm_compute; reflexivity).
  split; [exact H|].
  exact (proj1 (import_header_only (Some slog.LevelInfo) listedOrder sampleFiles _ _ _
                  H)).
Defined.

(** ** The exporter *)

(** C10. With the nil slice [ExportData] returns its error at once: the
    file system and the log are as they were, and so the output file is
    neither created nor truncated. *)
Theorem export_nil_no_effect (lg : slog.Logger) (ex : exporter.CustomerExporter)
    (fs : os.FileSystem) (out : list slog.Record_) :
  exporter.ExportData lg ex nil_slice fs out = (Some exporter.NilData, fs, out)
  /\ os.files (exporter.ExportData lg ex nil_slice fs out).1.2
       !! exporter.outputPath ex
     = os.files fs !! exporter.outputPath ex.
Proof. split; reflexivity. Qed.

(** ** The scenarios of the specification *)

Example scenario_three_rows :
  fst (ImportDomainData (Some slog.LevelInfo) listedOrder sampleFiles
         (NewCustomerImporter "customers.csv"))
  = Returns (Some [ {| Domain := "acme.io"; CustomerQuantity := 1 |};
                    {| Domain := "example.com"; CustomerQuantity := 2 |} ], None).
Proof. vm_compute. reflexivity. Qed.

Example scenario_trimmed_address :
  validateEmail "  user@example.com  " = (lit "example.com", None).
Proof. vm_compute. reflexivity. Qed.

Example scenario_two_separators :
  validateEmail "user@domain@extra.com" = ([], Some MultipleSeparators).
Proof. vm_compute. reflexivity. Qed.

Example scenario_blank_parts :
  validateEmail "   @example.com" = ([], Some EmptyLocalPart)
  /\ validateEmail "user@   " = ([], Some EmptyDomain)
  /\ validateEmail "userexample.com" = ([], Some MissingSeparator)
  /\ validateEmail "@" = ([], Some EmptyLocalPart).
Proof. repeat split; vm_compute; reflexivity. Qed.

(** White space beyond ASCII is trimmed as well: U+2000 before the address
    and U+00A0 after it. *)
Example scenario_unicode_space :
  validateEmail (ascii_of_nat 226 :: ascii_of_nat 128 :: ascii_of_nat 128
                   :: lit "u@x.io" ++ [ascii_of_nat 194; ascii_of_nat 160])
  = (lit "x.io", None).
Proof. vm_compute. reflexivity. Qed.

Example scenario_empty_path :
  fst (ImportDomainData (Some slog.LevelInfo) listedOrder sampleFiles
         (NewCustomerImporter ""))
  = Returns (nil_slice,
             Some (OpenError {| os.Op := "open"; os.Path := "";
                                os.Err := "no such file or directory" |})).
Proof. vm_compute. reflexivity. Qed.

(** With a slice that is not nil the output file is created or truncated
    and written, an empty slice giving the header line alone; with the nil
    slice its content stays. *)
Example scenario_export :
  os.files
    (exporter.ExportData (Some slog.LevelError) (exporter.NewCustomerExporter "out.csv")
       (Some []) sampleExportFiles []).1.2 !! lit "out.csv"
  = Some (lit "domain,number_of_customers" ++ [ascii_of_nat 10])
  /\ os.files
       (exporter.ExportData (Some slog.LevelError) (exporter.NewCustomerExporter "out.csv")
          nil_slice sampleExportFiles []).1.2 !! lit "out.csv"
     = Some (lit "kept")
  /\ exporter.exportCsv
       [ {| Domain := "acme.io"; CustomerQuantity := 1 |};
         {| Domain := "a,b"; CustomerQuantity := 12 |} ]
       {| os.name := "out.csv"; os.written := []; os.fault := None |}
     = (None,
        {| os.name := "out.csv";
           os.written :=
             lit "domain,number_of_customers" ++ [ascii_of_nat 10]
               ++ lit "acme.io,1" ++ [ascii_of_nat 10]
               ++ [exporter.csvw.quote] ++ lit "a,b" ++ [exporter.csvw.quote]
               ++ lit ",12" ++ [ascii_of_nat 10];
           os.fault := None |}).
Proof. repeat split; vm_compute; reflexivity. Qed.

(** * Further properties *)

(** ** White space and trimming *)

Lemma TrimSpace_idem (s : str) :
  strings.TrimSpace (strings.TrimSpace s) = strings.TrimSpace s.
Proof.
  unfold strings.TrimSpace at 1 2.
  by rewrite TrimLeft_TrimRight, TrimRightSpace_idem, TrimLeftSpace_idem.
Qed.

Lemma whitespaceOnly_app (a b : str) :
  whitespaceOnly a -> whitespaceOnly b -> whitespaceOnly (a ++ b).
Proof.
  induction 1 as [|r s Hr _ IH]; intros Hb; [done|].
  rewrite <- app_assoc. by constructor; [|apply IH].
Qed.

Lemma whitespaceOnly_rune (e : str) : leadL e = Some [] -> whitespaceOnly e.
Proof.
  intros (r & Hr & ->)%leadRune_space_encoded. by repeat constructor.
Qed.

Lemma TrimLeftSpace_ws (w s : str) :
  whitespaceOnly w -> strings.TrimLeftSpace (w ++ s) = strings.TrimLeftSpace s.
Proof.
  induction 1 as [|r w Hr _ IH]; [done|]. rewrite <- IH, <- app_assoc.
  by apply trimLeading_step, leadRune_encoded_space.
Qed.

Lemma TrimLeftSpace_split (s : str) :
  exists w, whitespaceOnly w /\ s = w ++ strings.TrimLeftSpace s.
Proof.
  unfold strings.TrimLeftSpace.
  induction s as [s Hs|s t Hs (w & Hw & IH)] using
    (leadRune_ind utf8.isSpace1 utf8.isSpace2 utf8.isSpace3).
  - exists []. split; [constructor|]. by rewrite trimLeading_stop.
  - rewrite (trimLeading_step _ _ _ s t Hs).
    destruct (leadRune_space_encoded s t Hs) as (r & Hr & ->).
    exists (utf8.EncodeRune r ++ w). split; [by constructor|].
    by rewrite <- app_assoc, <- IH.
Qed.

(** A rune of the mirrored recognisers is a rune of the predicate,
    reversed. *)
Lemma leadR_split (y t : str) :
  leadR y = Some t -> exists e, leadL e = Some [] /\ y = rev e ++ t.
Proof.
  destruct y as [|b0 y1]; [done|]. simpl.
  destruct (utf8.isSpace1 b0) eqn:H1.
  { intros [= ->]. exists [b0]. simpl. by rewrite H1. }
  destruct y1 as [|b1 y2]; [done|].
  destruct (utf8.isSpace2 b1 b0) eqn:H2.
  { intros [= ->]. exists [b1; b0]. split; [|done]. simpl. rewrite H2. space_cases. }
  destruct y2 as [|b2 y3]; [done|].
  destruct (utf8.isSpace3 b2 b1 b0) eqn:H3; [|done].
  intros [= ->]. exists [b2; b1; b0]. split; [|done]. simpl. rewrite H3. space_cases.
Qed.

Lemma trimR_nil_ws (y : str) : trimR y = [] -> whitespaceOnly (rev y).
Proof.
  induction y as [y Hy|y t Hy IH] using (leadRune_ind utf8.isSpace1
    (fun b1 b0 => utf8.isSpace2 b0 b1) (fun b2 b1 b0 => utf8.isSpace3 b0 b1 b2)).
  - rewrite (trimLeading_stop _ _ _ y Hy). intros ->. constructor.
  - rewrite (trimLeading_step _ _ _ y t Hy). intros Ht.
    destruct (leadR_split y t Hy) as (e & He & ->).
    rewrite rev_app_distr, rev_involutive.
    apply whitespaceOnly_app; [by apply IH|by apply whitespaceOnly_rune].
Qed.

Lemma TrimRightSpace_ws (s w : str) :
  whitespaceOnly w -> strings.TrimRightSpace (s ++ w) = strings.TrimRightSpace s.
Proof.
  intros Hw. revert s. induction Hw as [|r w Hr _ IH]; intros s.
  - by rewrite app_nil_r.
  - rewrite app_assoc, IH. unfold strings.TrimRightSpace. f_equal.
    rewrite rev_app_distr.
    assert (leadL (utf8.EncodeRune r) = Some []) as He
      by (rewrite <- (app_nil_r (utf8.EncodeRune r)); by apply leadRune_encoded_space).
    apply trimLeading_step.
    by apply (leadRune_app _ _ _ _ [] (rev s)), leadR_rev_rune.
Qed.

(** The strings that trim to the empty string are the strings of white
    space. *)
Lemma TrimSpace_nil_iff (s : str) : strings.TrimSpace s = [] <-> whitespaceOnly s.
Proof.
  split; [|apply whitespaceOnly_TrimSpace].
  unfold strings.TrimSpace, strings.TrimRightSpace. intros H.
  destruct (TrimLeftSpace_split s) as (w & Hw & Hs). rewrite Hs.
  apply whitespaceOnly_app; [done|].
  rewrite <- (rev_involutive (strings.TrimLeftSpace s)). apply trimR_nil_ws.
  apply (f_equal (@rev _)) in H. by rewrite rev_involutive in H.
Qed.

Lemma TrimSpace_surrounded (w1 s w2 : str) :
  whitespaceOnly w1 -> whitespaceOnly w2 ->
  strings.TrimSpace (w1 ++ s ++ w2) = strings.TrimSpace s.
Proof.
  intros H1 H2. unfold strings.TrimSpace.
  rewrite <- !TrimLeft_TrimRight, app_assoc, TrimRightSpace_ws by done.
  by rewrite !TrimLeft_TrimRight, TrimLeftSpace_ws.
Qed.

Lemma isEmpty_ws (s : str) :
  isEmpty (strings.TrimSpace s) = true <-> whitespaceOnly s.
Proof. by rewrite isEmpty_true, TrimSpace_nil_iff. Qed.

Lemma isEmpty_not_ws (s : str) :
  isEmpty (strings.TrimSpace s) = false <-> ~ whitespaceOnly s.
Proof. rewrite <- isEmpty_ws. by destruct (isEmpty _). Qed.

(** ** The validator *)

(** A successful validation, taken apart: the input has a first
    separator, and the domain is the trimmed text after it. *)
Lemma validateEmail_ok_inv (s domain : str) :
  validateEmail s = (domain, None) ->
  exists l d,
    s = l ++ at_sign :: d /\ (at_sign ∉ l) /\ domain = strings.TrimSpace d
    /\ domain <> [] /\ (at_sign ∉ domain).
Proof.
  destruct (decide (at_sign ∈ s)) as [Hin|Hout];
    [|by rewrite validateEmail_no_at].
  destruct (at_split s Hin) as (l & d & -> & Hl).
  rewrite validateEmail_at by done.
  destruct (isEmpty (strings.TrimSpace l)); [done|].
  destruct (isEmpty (strings.TrimSpace d)) eqn:E2; [done|].
  destruct (strings.Contains (strings.TrimSpace d) "@") eqn:E3; [done|].
  intros [= <-]. exists l, d. split; [done|]. split; [done|]. split; [done|]. split.
  - intros E. by rewrite E in E2.
  - rewrite <- Contains_at. by rewrite E3.
Qed.

(** X1. A domain that the validator returns is not empty, holds no
    separator, has no white space at either end, and stands in the input
    as it is returned. *)
Theorem validateEmail_domain_wellformed (s domain : str) :
  validateEmail s = (domain, None) ->
  domain <> []
  /\ (at_sign ∉ domain)
  /\ strings.TrimSpace domain = domain
  /\ exists before after, s = before ++ domain ++ after.
Proof.
  intros (l & d & -> & _ & -> & Hne & Hat)%validateEmail_ok_inv.
  split; [done|]. split; [done|]. split.
  - apply TrimSpace_idem.
  - destruct (TrimSpace_infix d) as (w1 & w2 & Hd).
    exists (l ++ at_sign :: w1), w2. rewrite Hd at 1.
    by rewrite <- app_assoc.
Qed.

Lemma validateEmail_domain_wellformed_witness :
  validateEmail (lit " bob@Mail.Example.com ") = (lit "Mail.Example.com", None)
  /\ strings.TrimSpace (lit "Mail.Example.com") = lit "Mail.Example.com".
Proof.
  assert (validateEmail (lit " bob@Mail.Example.com ")
          = (lit "Mail.Example.com", None)) as H by (vm_compute; reflexivity).
  split; [exact H|].
  exact (proj1 (proj2 (proj2 (validateEmail_domain_wellformed _ _ H)))).
Defined.

(** X2. White space around an address does not show in the outcome: with
    any white-space runes before and after, the validator returns what it
    returns without them. *)
Theorem validateEmail_surrounding_space (w1 s w2 : str) :
  whitespaceOnly w1 -> whitespaceOnly w2 ->
  validateEmail (w1 ++ s ++ w2) = validateEmail s.
Proof.
  intros H1 H2. unfold validateEmail. by rewrite TrimSpace_surrounded.
Qed.

Lemma validateEmail_surrounding_space_witness :
  whitespaceOnly (utf8.EncodeRune 0x3000 ++ utf8.EncodeRune 9 ++ [])
  /\ whitespaceOnly (utf8.EncodeRune 0xA0 ++ [])
  /\ validateEmail ((utf8.EncodeRune 0x3000 ++ utf8.EncodeRune 9 ++ [])
                      ++ lit "ann@acme.io" ++ (utf8.EncodeRune 0xA0 ++ []))
     = validateEmail (lit "ann@acme.io").
Proof.
  assert (whitespaceOnly (utf8.EncodeRune 0x3000 ++ utf8.EncodeRune 9 ++ [])) as H1
    by (repeat constructor).
  assert (whitespaceOnly (utf8.EncodeRune 0xA0 ++ [])) as H2 by (repeat constructor).
  split; [exact H1|]. split; [exact H2|].
  exact (validateEmail_surrounding_space _ (lit "ann@acme.io") _ H1 H2).
Defined.

(** X3. Which failure for which input.  The checks come in a fixed order:
    [EmptyInput] for white space only; [MissingSeparator] without a
    separator; with one, [EmptyLocalPart] when the text before the first
    separator is blank, else [EmptyDomain] when the text after it is blank,
    else [MultipleSeparators] when there is a second separator. *)
Theorem validateEmail_error_kind (s : str) :
  (snd (validateEmail s) = Some EmptyInput <-> whitespaceOnly s)
  /\ (snd (validateEmail s) = Some MissingSeparator <->
        (at_sign ∉ s) /\ ~ whitespaceOnly s)
  /\ (snd (validateEmail s) = Some EmptyLocalPart <->
        (at_sign ∈ s) /\ whitespaceOnly (localPart s))
  /\ (snd (validateEmail s) = Some EmptyDomain <->
        (at_sign ∈ s) /\ ~ whitespaceOnly (localPart s)
        /\ whitespaceOnly (domainPart s))
  /\ (snd (validateEmail s) = Some MultipleSeparators <->
        (2 <= strings.CountByte at_sign s)%nat
        /\ ~ whitespaceOnly (localPart s) /\ ~ whitespaceOnly (domainPart s)).
Proof.
  destruct (decide (at_sign ∈ s)) as [Hin|Hout].
  - assert (~ whitespaceOnly s) as Hws.
    { intros H%TrimSpace_nil_iff. apply TrimSpace_at_elem in Hin.
      rewrite H in Hin. by apply elem_of_nil in Hin. }
    destruct (at_split s Hin) as (l & d & Hs & Hl). subst s.
    unfold localPart, domainPart. rewrite Cut_at_first by done. simpl.
    rewrite CountByte_app, CountByte_cons_eq.
    rewrite (proj2 (CountByte_zero at_sign l) Hl). simpl.
    rewrite validateEmail_at by done.
    assert ((1 <= strings.CountByte at_sign d)%nat
            <-> strings.Contains (strings.TrimSpace d) "@" = true) as Hcount.
    { rewrite Contains_at, TrimSpace_at_elem. split.
      - intros Hc. destruct (decide (at_sign ∈ d)) as [|Hn]; [done|].
        apply CountByte_zero in Hn. lia.
      - intros Hd.
        assert (strings.CountByte at_sign d <> 0%nat)
          by (by intros Hz%CountByte_zero).
        lia. }
    destruct (isEmpty (strings.TrimSpace l)) eqn:E1.
    { apply isEmpty_ws in E1. simpl. repeat split; try done; tauto. }
    apply isEmpty_not_ws in E1.
    destruct (isEmpty (strings.TrimSpace d)) eqn:E2.
    { apply isEmpty_ws in E2. simpl. repeat split; try done; tauto. }
    apply isEmpty_not_ws in E2.
    destruct (strings.Contains (strings.TrimSpace d) "@") eqn:E3; simpl.
    + assert (1 <= strings.CountByte at_sign d)%nat by by apply Hcount.
      repeat split; try done; try tauto. lia.
    + assert (~ (1 <= strings.CountByte at_sign d)%nat)
        by (intros H%Hcount; done).
      repeat split; try done; try tauto. intros [? _]. lia.
  - rewrite validateEmail_no_at by done. simpl.
    assert ((2 <= strings.CountByte at_sign s)%nat -> False) as Hc.
    { rewrite (proj2 (CountByte_zero at_sign s) Hout). lia. }
    destruct (isEmpty (strings.TrimSpace s)) eqn:E.
    + apply isEmpty_ws in E. repeat split; try done; try tauto.
    + apply isEmpty_not_ws in E. repeat split; try done; try tauto.
Qed.

Lemma validateEmail_error_kind_witness :
  snd (validateEmail "user@   ") = Some EmptyDomain
  /\ whitespaceOnly (domainPart "user@   ").
Proof.
  assert (snd (validateEmail "user@   ") = Some EmptyDomain) as H
    by (vm_compute; reflexivity).
  split; [exact H|].
  exact (proj2 (proj2 (proj1 (proj1 (proj2 (proj2 (proj2
           (validateEmail_error_kind "user@   ")))))  H))).
Defined.

(** ** The rows of a file *)

Lemma rowError_None (n : nat) (raw : csv.rawRecord) :
  rowError n raw = None <-> validRecord n raw = true.
Proof.
  destruct raw as [ln fields|e|msg]; simpl; [|done..].
  destruct (Nat.eqb_spec (length fields) n) as [Hn|Hn]; simpl; [|done].
  destruct (Nat.leb_spec (length fields) 2) as [H2|H2],
    (Nat.ltb_spec 2 (length fields)) as [H2'|H2']; try lia; simpl; [done|].
  destruct (fields !! 2%nat) as [email|] eqn:Hl.
  - by destruct (snd (validateEmail email)).
  - apply lookup_ge_None in Hl. lia.
Qed.

Lemma readLoop_row_error (lg : slog.Logger) (n : nat) (raw : csv.rawRecord)
    (rest : list csv.rawRecord) (st : loopState) (err : error) :
  (0 < n)%nat -> rowError n raw = Some err ->
  fst (readLoop lg (Z.of_nat n) (raw :: rest) st) = Returns (inr err).
Proof.
  intros Hn. destruct raw as [ln fields|e|msg]; cbn [readLoop csv.readRecord rowError];
    [|by intros [= <-]..].
  destruct (Z.ltb_spec 0 (Z.of_nat n)); [|lia].
  destruct (Nat.eqb_spec (length fields) n) as [Heq|Hne],
    (Z.eqb_spec (Z.of_nat (length fields)) (Z.of_nat n)); try lia; simpl;
    [|by intros [= <-]].
  unfold processRecord, emailColumnIndex.
  destruct (Nat.leb_spec (length fields) 2), (Z.leb_spec (Z.of_nat (length fields)) 2);
    try lia; [by intros [= <-]|].
  change (Z.to_nat 2) with 2%nat.
  destruct (fields !! 2%nat) as [email|]; [|done].
  destruct (validateEmail email) as [dom [ee|]]; simpl; [by intros [= <-]|done].
Qed.

Lemma processRecord_counted (lg : slog.Logger) (n : nat) (ln : Z) (line : list str)
    (st : loopState) :
  validRecord n (csv.Parsed ln line) = true ->
  exists dom lgd,
    rowDomain (csv.Parsed ln line) = Some dom
    /\ processRecord lg line st
       = (Returns (inl {| data := <[dom := uint64 (default 0 (data st !! dom) + 1)]> (data st);
                          rowCount := uint64 (rowCount st + 1);
                          logged := lgd |}), lgd).
Proof.
  simpl. intros H. apply andb_prop in H as [H He]. apply andb_prop in H as [_ H2].
  apply Nat.ltb_lt in H2. unfold processRecord, emailColumnIndex.
  destruct (Z.leb_spec (Z.of_nat (length line)) 2); [lia|].
  change (Z.to_nat 2) with 2%nat.
  destruct (line !! 2%nat) as [email|]; [|done].
  destruct (validateEmail email) as [dom [e|]]; [done|]. simpl. eauto.
Qed.

Lemma readLoop_cons_valid (lg : slog.Logger) (n : nat) (ln : Z) (line : list str)
    (rest : list csv.rawRecord) (st : loopState) :
  validRecord n (csv.Parsed ln line) = true ->
  exists dom lgd,
    rowDomain (csv.Parsed ln line) = Some dom
    /\ readLoop lg (Z.of_nat n) (csv.Parsed ln line :: rest) st
       = readLoop lg (Z.of_nat n) rest
           {| data := <[dom := uint64 (default 0 (data st !! dom) + 1)]> (data st);
              rowCount := uint64 (rowCount st + 1);
              logged := lgd |}
    /\ lgd = snd (processRecord lg line st).
Proof.
  intros Hv.
  destruct (processRecord_counted lg n ln line st Hv) as (dom & lgd & Hd & Hp).
  exists dom, lgd. split; [done|]. cbn [readLoop].
  rewrite (readRecord_valid n ln line Hv), Hp. done.
Qed.

Lemma readLoop_first_error (lg : slog.Logger) (n : nat) (rows : list csv.rawRecord)
    (st : loopState) :
  (0 < n)%nat ->
  match firstError n rows with
  | Some err => fst (readLoop lg (Z.of_nat n) rows st) = Returns (inr err)
  | None => exists st', fst (readLoop lg (Z.of_nat n) rows st) = Returns (inl st')
  end.
Proof.
  intros Hn. revert st. induction rows as [|raw rows IH]; intros st; simpl firstError.
  - by exists st.
  - destruct (rowError n raw) as [err|] eqn:Herr.
    + by apply readLoop_row_error.
    + apply rowError_None in Herr. destruct raw as [ln line|e|msg]; [|done..].
      destruct (readLoop_cons_valid lg n ln line rows st Herr) as (dom & lgd & _ & -> & _).
      apply IH.
Qed.

(** X4. The outcome of an import, read off the rows: under a readable
    header the call fails with the error of the first row that has one (a
    reader failure, a wrong number of fields, too few columns, an invalid
    address), whatever follows that row, and succeeds when no row has
    one. *)
Theorem import_first_error (lg : slog.Logger) (ord : RangeOrder) (fs : os.SourceFiles)
    (ci : CustomerImporter) (hl : Z) (hdr : list str) (rows : list csv.rawRecord) :
  os.Open fs (path ci) = inl (csv.Parsed hl hdr :: rows) ->
  hdr <> [] ->
  match firstError (length hdr) rows with
  | Some err => fst (ImportDomainData lg ord fs ci) = Returns (nil_slice, Some err)
  | None => exists result,
      fst (ImportDomainData lg ord fs ci) = Returns (Some result, None)
  end.
Proof.
  intros Hopen Hhdr.
  assert (0 < length hdr)%nat as Hn by (destruct hdr; [done|simpl; lia]).
  rewrite ImportDomainData_fst, Hopen, Read_header. simpl.
  pose proof (readLoop_first_error lg (length hdr) rows
                {| data := ∅; rowCount := 0; logged := [] |} Hn) as H.
  destruct (firstError (length hdr) rows) as [err|].
  - by rewrite H.
  - destruct H as [st' ->]. simpl. eauto.
Qed.

Lemma import_first_error_witness :
  os.Open moreFiles (path (NewCustomerImporter "bad_email.csv"))
  = inl (csv.Parsed 1 [lit "first_name"; lit "last_name"; lit "email"; lit "gender";
                     lit "ip_address"] :: [rowJane 2; rowNoDomain 3; rowJohnDoe 4])
  /\ fst (ImportDomainData (Some slog.LevelInfo) listedOrder moreFiles
            (NewCustomerImporter "bad_email.csv"))
     = Returns (nil_slice, Some (InvalidEmail EmptyDomain)).
Proof.
  assert (os.Open moreFiles (path (NewCustomerImporter "bad_email.csv"))
          = inl (csv.Parsed 1 [lit "first_name"; lit "last_name"; lit "email";
                             lit "gender"; lit "ip_address"]
                   :: [rowJane 2; rowNoDomain 3; rowJohnDoe 4])) as H
    by (vm_compute; reflexivity).
  split; [exact H|].
  exact (import_first_error (Some slog.LevelInfo) listedOrder moreFiles
           (NewCustomerImporter "bad_email.csv") _ _ _ H ltac:(discriminate)).
Defined.




(** ** What the aggregation counts *)

Lemma countDomain_cons (d : str) (raw : csv.rawRecord) (rows : list csv.rawRecord) :
  countDomain d (raw :: rows)
  = ((if decide (rowDomain raw = Some d) then 1 else 0) + countDomain d rows)%nat.
Proof. unfold countDomain. rewrite filter_cons. by destruct (decide _). Qed.

Lemma countDomain_le (d : str) (rows : list csv.rawRecord) :
  (countDomain d rows <= length rows)%nat.
Proof. apply length_filter. Qed.

Lemma countDomain_pos (d : str) (rows : list csv.rawRecord) :
  (0 < countDomain d rows)%nat <-> exists raw, raw ∈ rows /\ rowDomain raw = Some d.
Proof.
  unfold countDomain. split.
  - destruct (filter _ rows) as [|raw l] eqn:Hf; simpl; [lia|]. intros _.
    assert (raw ∈ filter (fun raw => rowDomain raw = Some d) rows) as Hin
      by (rewrite Hf; left).
    apply list_elem_of_filter in Hin as [Hd Hin]. eauto.
  - intros (raw & Hin & Hd).
    assert (raw ∈ filter (fun raw => rowDomain raw = Some d) rows) as Hf
      by (by apply list_elem_of_filter).
    destruct (filter _ rows); [by apply elem_of_nil in Hf|simpl; lia].
Qed.

Lemma countDomain_perm (d : str) (rows1 rows2 : list csv.rawRecord) :
  rows1 ≡ₚ rows2 -> countDomain d rows1 = countDomain d rows2.
Proof. intros H. unfold countDomain. by rewrite H. Qed.

Lemma sortedDomains_elem (ord : RangeOrder) (m : gmap str Z) (d : str) (c : Z) :
  {| Domain := d; CustomerQuantity := c |} ∈ sortedDomains ord m <-> m !! d = Some c.
Proof.
  rewrite (sortedDomains_perm ord m), list_elem_of_fmap. split.
  - intros ([k v] & [= -> ->] & Hkv). by apply elem_of_map_to_list.
  - intros H. exists (d, c). split; [done|]. by apply elem_of_map_to_list.
Qed.

Lemma sortedDomains_length (ord : RangeOrder) (m : gmap str Z) :
  length (sortedDomains ord m) = size m.
Proof.
  rewrite (Permutation_length (sortedDomains_perm ord m)), length_map.
  apply length_map_to_list.
Qed.

(** The keys of the map are the domains of the rows read so far. *)
Lemma readLoop_keys (lg : slog.Logger) (n : nat) (rows : list csv.rawRecord)
    (st : loopState) :
  Forall (fun raw => validRecord n raw = true) rows ->
  exists st',
    fst (readLoop lg (Z.of_nat n) rows st) = Returns (inl st')
    /\ forall d, is_Some (data st' !! d) <->
                 is_Some (data st !! d) \/ (0 < countDomain d rows)%nat.
Proof.
  intros Hrows. revert st. induction Hrows as [|raw rows Hraw _ IH]; intros st.
  - exists st. split; [done|]. intros d. unfold countDomain. simpl.
    split; [auto|intros [?|?]; [done|lia]].
  - destruct raw as [ln line|e|msg]; [|done..].
    destruct (readLoop_cons_valid lg n ln line rows st Hraw) as (dom & lgd & Hd & -> & _).
    destruct (IH {| data := <[dom := uint64 (default 0 (data st !! dom) + 1)]> (data st);
                    rowCount := uint64 (rowCount st + 1); logged := lgd |})
      as (st' & Hrun & Hkeys).
    exists st'. split; [done|]. intros d. rewrite Hkeys. simpl.
    rewrite countDomain_cons, Hd.
    destruct (decide (Some dom = Some d)) as [[= ->]|Hne].
    + rewrite lookup_insert_eq. split; [intros _; right; lia|intros _; left; eauto].
    + rewrite lookup_insert_ne by congruence. simpl. done.
Qed.

(** Below 2^64 rows for a domain its counter is the number of its rows. *)
Lemma readLoop_counts (lg : slog.Logger) (n : nat) (rows : list csv.rawRecord)
    (st : loopState) :
  Forall (fun raw => validRecord n raw = true) rows ->
  map_Forall (fun _ v => 0 < v) (data st) ->
  (forall d, default 0 (data st !! d) + Z.of_nat (countDomain d rows) < 2 ^ 64) ->
  exists st',
    fst (readLoop lg (Z.of_nat n) rows st) = Returns (inl st')
    /\ forall d, data st' !! d
                 = if decide (countDomain d rows = 0%nat) then data st !! d
                   else Some (default 0 (data st !! d) + Z.of_nat (countDomain d rows)).
Proof.
  intros Hrows. revert st.
  induction Hrows as [|raw rows Hraw _ IH]; intros st Hpos Hlt.
  - exists st. split; [done|]. intros d. by rewrite decide_True.
  - destruct raw as [ln line|e|msg]; [|done..].
    destruct (readLoop_cons_valid lg n ln line rows st Hraw) as (dom & lgd & Hd & -> & _).
    assert (0 <= default 0 (data st !! dom)) as H0.
    { destruct (data st !! dom) as [v|] eqn:Hv; simpl; [|lia].
      specialize (Hpos dom v Hv). simpl in Hpos. lia. }
    pose proof (Hlt dom) as Hdom. rewrite countDomain_cons, Hd, decide_True in Hdom by done.
    rewrite uint64_small by lia.
    set (st1 := {| data := <[dom := default 0 (data st !! dom) + 1]> (data st);
                   rowCount := uint64 (rowCount st + 1); logged := lgd |}).
    destruct (IH st1) as (st' & Hrun & Hcount).
    + apply map_Forall_insert_2; [lia|done].
    + intros d. simpl. specialize (Hlt d). rewrite countDomain_cons, Hd in Hlt.
      destruct (decide (Some dom = Some d)) as [[= ->]|Hne].
      * rewrite lookup_insert_eq. simpl. lia.
      * rewrite lookup_insert_ne by congruence. simpl in Hlt. lia.
    + exists st'. split; [done|]. intros d. rewrite Hcount. simpl.
      rewrite countDomain_cons, Hd.
      destruct (decide (Some dom = Some d)) as [[= ->]|Hne].
      * rewrite lookup_insert_eq. simpl.
        destruct (decide (countDomain d rows = 0%nat)) as [->|?]; simpl; f_equal; lia.
      * rewrite lookup_insert_ne by congruence. simpl. done.
Qed.

(** The map at the end of an import of valid rows. *)
Lemma import_valid_map (lg : slog.Logger) (ord : RangeOrder) (fs : os.SourceFiles)
    (ci : CustomerImporter) (hl : Z) (hdr : list str) (rows : list csv.rawRecord) :
  os.Open fs (path ci) = inl (csv.Parsed hl hdr :: rows) ->
  Forall (fun raw => validRecord (length hdr) raw = true) rows ->
  Z.of_nat (length rows) < 2 ^ 64 ->
  exists m : gmap str Z,
    fst (ImportDomainData lg ord fs ci) = Returns (Some (sortedDomains ord m), None)
    /\ forall d, m !! d = if decide (countDomain d rows = 0%nat) then None
                          else Some (Z.of_nat (countDomain d rows)).
Proof.
  intros Hopen Hrows Hlt.
  rewrite ImportDomainData_fst, Hopen, Read_header. simpl.
  destruct (readLoop_counts lg (length hdr) rows
              {| data := ∅; rowCount := 0; logged := [] |} Hrows)
    as (st & -> & Hcount); simpl.
  - apply map_Forall_empty.
  - intros d. rewrite ?lookup_empty. simpl. pose proof (countDomain_le d rows). lia.
  - exists (data st). split; [done|]. intros d. rewrite Hcount, ?lookup_empty. simpl.
    by destruct (decide _).
Qed.

(** X6. On rows that all read and validate, the result lists exactly the
    domains of the rows, and every listed domain is one the validator
    returned: not empty, without separator and without white space at
    either end. *)
Theorem import_domains (lg : slog.Logger) (ord : RangeOrder) (fs : os.SourceFiles)
    (ci : CustomerImporter) (hl : Z) (hdr : list str) (rows : list csv.rawRecord) :
  os.Open fs (path ci) = inl (csv.Parsed hl hdr :: rows) ->
  Forall (fun raw => validRecord (length hdr) raw = true) rows ->
  exists result,
    fst (ImportDomainData lg ord fs ci) = Returns (Some result, None)
    /\ (forall d, d ∈ map Domain result <->
                  exists raw, raw ∈ rows /\ rowDomain raw = Some d)
    /\ Forall (fun entry => Domain entry <> [] /\ (at_sign ∉ Domain entry)
                            /\ strings.TrimSpace (Domain entry) = Domain entry) result.
Proof.
  intros Hopen Hrows.
  rewrite ImportDomainData_fst, Hopen, Read_header. simpl.
  destruct (readLoop_keys lg (length hdr) rows
              {| data := ∅; rowCount := 0; logged := [] |} Hrows)
    as (st & -> & Hkeys). simpl.
  assert (forall d, d ∈ map Domain (sortedDomains ord (data st)) <->
                    exists raw, raw ∈ rows /\ rowDomain raw = Some d) as Hdom.
  { intros d. rewrite sortedDomains_domains, <- countDomain_pos.
    rewrite list_elem_of_fmap. split.
    - intros ([k v] & -> & Hkv%elem_of_map_to_list). simpl.
      destruct (proj1 (Hkeys k)) as [Hs|Hc]; [by eauto| |done].
      simpl in Hs. rewrite ?lookup_empty in Hs. by destruct Hs.
    - intros Hc. destruct (proj2 (Hkeys d)) as [v Hv]; [by right|].
      exists (d, v). split; [done|]. by apply elem_of_map_to_list. }
  eexists. split; [done|]. split; [exact Hdom|].
  apply Forall_forall. intros entry Hentry.
  destruct (proj1 (Hdom (Domain entry))) as (raw & _ & Hraw).
  { apply list_elem_of_fmap. eauto. }
  destruct raw as [ln fields|e|msg]; simpl in Hraw; [|done..].
  destruct (fields !! 2%nat) as [email|]; [|done].
  destruct (validateEmail email) as [dom [e|]] eqn:Hv; [done|].
  injection Hraw as ->.
  destruct (validateEmail_ok_inv email _ Hv) as (l0 & d0 & _ & _ & -> & H1 & H2).
  split; [done|]. split; [done|]. apply TrimSpace_idem.
Qed.

Lemma import_domains_witness :
  os.Open moreFiles (path (NewCustomerImporter "customers.csv"))
  = inl (csv.Parsed 1 [lit "first_name"; lit "last_name"; lit "email"; lit "gender";
                     lit "ip_address"] :: [rowJane 2; rowBob 3; rowAnn 4])
  /\ exists result,
       fst (ImportDomainData (Some slog.LevelInfo) listedOrder moreFiles
              (NewCustomerImporter "customers.csv")) = Returns (Some result, None)
       /\ (lit "acme.io" ∈ map Domain result <->
           exists raw, raw ∈ [rowJane 2; rowBob 3; rowAnn 4]
                       /\ rowDomain raw = Some (lit "acme.io")).
Proof.
  assert (os.Open moreFiles (path (NewCustomerImporter "customers.csv"))
          = inl (csv.Parsed 1 [lit "first_name"; lit "last_name"; lit "email";
                             lit "gender"; lit "ip_address"]
                   :: [rowJane 2; rowBob 3; rowAnn 4])) as H by (vm_compute; reflexivity).
  split; [exact H|].
  destruct (import_domains (Some slog.LevelInfo) listedOrder moreFiles
              (NewCustomerImporter "customers.csv") _ _ _ H ltac:(repeat constructor))
    as (result & Hres & Hdom & _).
  exists result. split; [exact Hres|]. exact (Hdom (lit "acme.io")).
Defined.

(** X7. On rows that all read and validate, fewer than 2^64 of them, the
    result has one entry for each domain that occurs in the rows and its
    count is the number of rows of that domain. *)
Theorem import_counts (lg : slog.Logger) (ord : RangeOrder) (fs : os.SourceFiles)
    (ci : CustomerImporter) (hl : Z) (hdr : list str) (rows : list csv.rawRecord) :
  os.Open fs (path ci) = inl (csv.Parsed hl hdr :: rows) ->
  Forall (fun raw => validRecord (length hdr) raw = true) rows ->
  Z.of_nat (length rows) < 2 ^ 64 ->
  exists result,
    fst (ImportDomainData lg ord fs ci) = Returns (Some result, None)
    /\ forall d c,
         {| Domain := d; CustomerQuantity := c |} ∈ result <->
         (0 < countDomain d rows)%nat /\ c = Z.of_nat (countDomain d rows).
Proof.
  intros Hopen Hrows Hlt.
  destruct (import_valid_map lg ord fs ci hl hdr rows Hopen Hrows Hlt) as (m & -> & Hm).
  eexists. split; [done|]. intros d c. rewrite sortedDomains_elem, Hm.
  destruct (decide (countDomain d rows = 0%nat)) as [->|Hne].
  - split; [done|lia].
  - split; [intros [= <-]; split; [lia|done]|by intros [_ ->]].
Qed.

Lemma import_counts_witness :
  os.Open moreFiles (path (NewCustomerImporter "customers.csv"))
  = inl (csv.Parsed 1 [lit "first_name"; lit "last_name"; lit "email"; lit "gender";
                     lit "ip_address"] :: [rowJane 2; rowBob 3; rowAnn 4])
  /\ exists result,
       fst (ImportDomainData (Some slog.LevelInfo) listedOrder moreFiles
              (NewCustomerImporter "customers.csv")) = Returns (Some result, None)
       /\ ({| Domain := "example.com"; CustomerQuantity := 2 |} ∈ result <->
           (0 < countDomain (lit "example.com") [rowJane 2; rowBob 3; rowAnn 4])%nat
           /\ 2 = Z.of_nat (countDomain (lit "example.com") [rowJane 2; rowBob 3; rowAnn 4])).
Proof.
  assert (os.Open moreFiles (path (NewCustomerImporter "customers.csv"))
          = inl (csv.Parsed 1 [lit "first_name"; lit "last_name"; lit "email";
                             lit "gender"; lit "ip_address"]
                   :: [rowJane 2; rowBob 3; rowAnn 4])) as H by (vm_compute; reflexivity).
  split; [exact H|].
  destruct (import_counts (Some slog.LevelInfo) listedOrder moreFiles
              (NewCustomerImporter "customers.csv") _ _ _ H ltac:(repeat constructor)
              ltac:(simpl; lia))
    as (result & Hres & Hcount).
  exists result. split; [exact Hres|]. exact (Hcount (lit "example.com") 2).
Defined.

(** What a row counts for does not depend on the line it stands on. *)
Lemma validRecord_content (n : nat) (raw : csv.rawRecord) :
  validRecord n (recordContent raw) = validRecord n raw.
Proof. by destruct raw. Qed.

Lemma rowDomain_content (raw : csv.rawRecord) :
  rowDomain (recordContent raw) = rowDomain raw.
Proof. by destruct raw. Qed.

Lemma countDomain_content (d : str) (rows : list csv.rawRecord) :
  countDomain d (map recordContent rows) = countDomain d rows.
Proof.
  induction rows as [|raw rows IH]; [done|].
  cbn [map]. by rewrite !countDomain_cons, rowDomain_content, IH.
Qed.

Lemma validRecord_content_perm (n : nat) (rows1 rows2 : list csv.rawRecord) :
  map recordContent rows1 ≡ₚ map recordContent rows2 ->
  Forall (fun raw => validRecord n raw = true) rows1 ->
  Forall (fun raw => validRecord n raw = true) rows2.
Proof.
  intros Hperm Hrows.
  assert (Forall (fun raw => validRecord n raw = true) (map recordContent rows1)) as H1.
  { clear Hperm. induction Hrows as [|raw rows Hraw _ IH]; cbn [map];
      constructor; [by rewrite validRecord_content|done]. }
  assert (Forall (fun raw => validRecord n raw = true) (map recordContent rows2)) as H
    by (by rewrite <- Hperm).
  clear Hperm Hrows H1. induction rows2 as [|raw rows IH]; [constructor|].
  cbn [map] in H. apply Forall_cons in H as [Hraw H].
  constructor; [by rewrite <- validRecord_content|by apply IH].
Qed.

(** X8. The order of the data rows does not show in the result: two files
    with headers of the same number of fields whose valid rows are the same
    up to their order, and so to the lines they stand on, give the same
    result. *)
Theorem import_row_order (lg : slog.Logger) (ord : RangeOrder)
    (fs1 fs2 : os.SourceFiles) (ci1 ci2 : CustomerImporter) (hl1 hl2 : Z)
    (hdr1 hdr2 : list str) (rows1 rows2 : list csv.rawRecord) :
  os.Open fs1 (path ci1) = inl (csv.Parsed hl1 hdr1 :: rows1) ->
  os.Open fs2 (path ci2) = inl (csv.Parsed hl2 hdr2 :: rows2) ->
  length hdr1 = length hdr2 ->
  map recordContent rows1 ≡ₚ map recordContent rows2 ->
  Forall (fun raw => validRecord (length hdr1) raw = true) rows1 ->
  Z.of_nat (length rows1) < 2 ^ 64 ->
  fst (ImportDomainData lg ord fs1 ci1) = fst (ImportDomainData lg ord fs2 ci2).
Proof.
  intros H1 H2 Hlen Hperm Hrows Hlt.
  destruct (import_valid_map lg ord fs1 ci1 hl1 hdr1 rows1 H1 Hrows Hlt)
    as (m1 & -> & Hm1).
  destruct (import_valid_map lg ord fs2 ci2 hl2 hdr2 rows2 H2) as (m2 & -> & Hm2).
  - rewrite <- Hlen. by apply (validRecord_content_perm _ rows1).
  - apply Permutation_length in Hperm. rewrite !length_map in Hperm. by rewrite <- Hperm.
  - assert (m1 = m2) as ->; [|done].
    apply map_eq. intros d. rewrite Hm1, Hm2.
    by rewrite <- (countDomain_content d rows1), <- (countDomain_content d rows2),
      (countDomain_perm d _ _ Hperm).
Qed.

Lemma import_row_order_witness :
  os.Open moreFiles (path (NewCustomerImporter "customers.csv"))
  = inl (csv.Parsed 1 [lit "first_name"; lit "last_name"; lit "email"; lit "gender";
                     lit "ip_address"] :: [rowJane 2; rowBob 3; rowAnn 4])
  /\ os.Open moreFiles (path (NewCustomerImporter "shuffled.csv"))
     = inl (csv.Parsed 1 [lit "first_name"; lit "last_name"; lit "email"; lit "gender";
                        lit "ip_address"] :: [rowAnn 2; rowJane 3; rowBob 4])
  /\ fst (ImportDomainData (Some slog.LevelInfo) listedOrder moreFiles
            (NewCustomerImporter "customers.csv"))
     = fst (ImportDomainData (Some slog.LevelInfo) listedOrder moreFiles
              (NewCustomerImporter "shuffled.csv")).
Proof.
  assert (os.Open moreFiles (path (NewCustomerImporter "customers.csv"))
          = inl (csv.Parsed 1 [lit "first_name"; lit "last_name"; lit "email";
                             lit "gender"; lit "ip_address"]
                   :: [rowJane 2; rowBob 3; rowAnn 4])) as H1 by (vm_compute; reflexivity).
  assert (os.Open moreFiles (path (NewCustomerImporter "shuffled.csv"))
          = inl (csv.Parsed 1 [lit "first_name"; lit "last_name"; lit "email";
                             lit "gender"; lit "ip_address"]
                   :: [rowAnn 2; rowJane 3; rowBob 4])) as H2 by (vm_compute; reflexivity).
  assert (map recordContent [rowJane 2; rowBob 3; rowAnn 4]
          ≡ₚ map recordContent [rowAnn 2; rowJane 3; rowBob 4]) as Hp.
  { apply (Permutation_trans (l' := map recordContent [rowJane 2; rowAnn 3; rowBob 4]));
      [apply perm_skip, perm_swap|apply perm_swap]. }
  split; [exact H1|]. split; [exact H2|].
  exact (import_row_order (Some slog.LevelInfo) listedOrder moreFiles moreFiles
           _ _ _ _ _ _ _ _ H1 H2 eq_refl Hp ltac:(repeat constructor)
           ltac:(simpl; lia)).
Defined.

(** ** The empty file *)

Lemma readLoop_not_EOF (lg : slog.Logger) (fpr : Z) (rows : list csv.rawRecord)
    (st : loopState) :
  fst (readLoop lg fpr rows st) <> Returns (inr (ReadError csv.EOF)).
Proof.
  revert fpr st. induction rows as [|raw rows IH]; intros fpr st; [done|].
  cbn [readLoop].
  destruct (csv.readRecord fpr raw) as [[line [e|]] fpr'] eqn:Hr.
  - destruct raw as [ln dst|pe|msg]; simpl in Hr.
    + destruct (0 <? fpr); [destruct (negb _)|destruct (fpr =? 0)]; by simplify_eq.
    + by simplify_eq.
    + by simplify_eq.
  - unfold processRecord.
    destruct (_ <=? _); [done|]. destruct (line !! _) as [email|]; [|done].
    destruct (validateEmail email) as [dom [e|]]; [done|]. apply IH.
Qed.

(** X9. The error [io.EOF] is what an import returns for a file without
    any record, and for no other file: a file that holds a header, with or
    without rows, never fails with it. *)
Theorem import_eof_iff (lg : slog.Logger) (ord : RangeOrder) (fs : os.SourceFiles)
    (ci : CustomerImporter) (file : list csv.rawRecord) :
  os.Open fs (path ci) = inl file ->
  (fst (ImportDomainData lg ord fs ci) = Returns (nil_slice, Some (ReadError csv.EOF))
   <-> file = []).
Proof.
  intros Hopen. rewrite ImportDomainData_fst, Hopen.
  destruct file as [|[hl hdr|e|msg] rows]; [done| |done..].
  rewrite Read_header. cbn [csv.FieldsPerRecord csv.input].
  split; [|done].
  pose proof (readLoop_not_EOF lg (Z.of_nat (length hdr)) rows
                {| data := ∅; rowCount := 0; logged := [] |}) as Hn.
  destruct (fst (readLoop _ _ _ _)) as [[st|e]|]; simpl; [done| |done].
  intros [= ->]. done.
Qed.

Lemma import_eof_iff_witness :
  os.Open emptyFiles (path (NewCustomerImporter "empty.csv")) = inl []
  /\ fst (ImportDomainData (Some slog.LevelInfo) listedOrder emptyFiles
            (NewCustomerImporter "empty.csv"))
     = Returns (nil_slice, Some (ReadError csv.EOF)).
Proof.
  assert (os.Open emptyFiles (path (NewCustomerImporter "empty.csv")) = inl []) as H
    by (vm_compute; reflexivity).
  split; [exact H|].
  exact (proj2 (import_eof_iff (Some slog.LevelInfo) listedOrder emptyFiles
                  (NewCustomerImporter "empty.csv") [] H) eq_refl).
Defined.

(** ** The log of an import *)

Lemma Info_disabled (lg : slog.Logger) (out : list slog.Record_) (msg : str)
    (attrs : list (str * slog.Value)) :
  infoDisabled lg = true -> slog.Info lg out msg attrs = out.
Proof.
  destruct lg as [level|]; [|done]. simpl. intros H%Z.ltb_lt.
  unfold slog.Info, slog.log. simpl.
  by destruct (Z.leb_spec (slog.levelValue level) 0); [lia|].
Qed.

Lemma Info_enabled (level : slog.Level) (out : list slog.Record_) (msg : str)
    (attrs : list (str * slog.Value)) :
  slog.levelValue level <= 0 ->
  slog.Info (Some level) out msg attrs
  = out ++ [{| slog.RLevel := slog.LevelInfo; slog.Message := msg;
               slog.Attrs := attrs |}].
Proof.
  intros H. unfold slog.Info, slog.log. simpl.
  by destruct (Z.leb_spec (slog.levelValue level) 0); [|lia].
Qed.

(** What one pass of the loop body writes to the log. *)
Lemma processRecord_log (lg : slog.Logger) (line : list str) (st : loopState) :
  snd (processRecord lg line st)
  = if uint64 (rowCount st + 1) mod progressInterval =? 0
    then slog.Info lg (logged st) "processing"
           [(lit "rows", slog.IntValue (uint64 (rowCount st + 1)));
            (lit "unique_domains", slog.IntValue (Z.of_nat (size (data st))))]
    else logged st.
Proof.
  unfold processRecord. destruct (_ <=? emailColumnIndex); [done|].
  destruct (line !! _) as [email|]; [|done].
  by destruct (validateEmail email) as [dom [e|]].
Qed.

Lemma processRecord_logged (lg : slog.Logger) (line : list str) (st st' : loopState) :
  fst (processRecord lg line st) = Returns (inl st') ->
  logged st' = snd (processRecord lg line st).
Proof.
  unfold processRecord. destruct (_ <=? emailColumnIndex); [done|].
  destruct (line !! _) as [email|]; [|done].
  destruct (validateEmail email) as [dom [e|]]; [done|]. by intros [= <-].
Qed.

Lemma readLoop_quiet (lg : slog.Logger) (fpr : Z) (rows : list csv.rawRecord)
    (st : loopState) :
  infoDisabled lg = true ->
  snd (readLoop lg fpr rows st) = logged st.
Proof.
  intros Hq. revert fpr st. induction rows as [|raw rows IH]; intros fpr st; [done|].
  cbn [readLoop].
  destruct (csv.readRecord fpr raw) as [[line [e|]] fpr']; [done|].
  pose proof (processRecord_log lg line st) as Hlog.
  rewrite Info_disabled in Hlog by done.
  assert (snd (processRecord lg line st) = logged st) as Hsnd
    by (rewrite Hlog; by destruct (_ =? 0)).
  pose proof (processRecord_logged lg line st) as Hst.
  destruct (processRecord lg line st) as [[[st'|e]|] out]; simpl in *; [|done..].
  rewrite IH. rewrite (Hst st' eq_refl). done.
Qed.

(** What a quiet import can write: nothing, or, when it fails, records at
    the level of errors about the header. *)
Lemma ImportDomainData_quiet (lg : slog.Logger) (ord : RangeOrder)
    (fs : os.SourceFiles) (ci : CustomerImporter) :
  infoDisabled lg = true ->
  snd (ImportDomainData lg ord fs ci) = []
  \/ (Forall (fun r => slog.RLevel r = slog.LevelError
                       /\ slog.Message r = lit "failed to read CSV header")
        (snd (ImportDomainData lg ord fs ci))
      /\ exists e, fst (ImportDomainData lg ord fs ci) = Returns (nil_slice, Some e)).
Proof.
  intros Hq. unfold ImportDomainData.
  destruct (os.Open fs (path ci)) as [file|e]; [|by left].
  destruct (csv.Read (csv.NewReader file)) as [[hdr [e|]] r0].
  { right. split; [|by eexists]. unfold slog.Error, slog.log. destruct lg as [level|].
    - destruct (_ <=? _); [|done]. simpl. by repeat constructor.
    - done. }
  pose proof (readLoop_quiet lg (csv.FieldsPerRecord r0) (csv.input r0)
                {| data := ∅; rowCount := 0; logged := [] |} Hq) as Hlog.
  destruct (readLoop _ _ _ _) as [[[st|e]|] out]; simpl in Hlog; subst out; simpl.
  - rewrite Info_disabled by done. by left.
  - by left.
  - by left.
Qed.

(** X10. With a logger that shows no [INFO] record (the quiet mode, or no
    sink at all) an import logs nothing unless the header cannot be read:
    the only record it can write is the error about the header, and a
    successful import writes none. *)
Theorem import_quiet_log (lg : slog.Logger) (ord : RangeOrder) (fs : os.SourceFiles)
    (ci : CustomerImporter) :
  infoDisabled lg = true ->
  (forall r, r ∈ snd (ImportDomainData lg ord fs ci) ->
             slog.RLevel r = slog.LevelError
             /\ slog.Message r = lit "failed to read CSV header")
  /\ (forall result,
        fst (ImportDomainData lg ord fs ci) = Returns (Some result, None) ->
        snd (ImportDomainData lg ord fs ci) = []).
Proof.
  intros Hq.
  destruct (ImportDomainData_quiet lg ord fs ci Hq) as [->|[Hrec [e He]]].
  - split; [by intros r ?%elem_of_nil|done].
  - split.
    + intros r Hr. by apply (proj1 (Forall_forall _ _) Hrec).
    + intros result Hres. by rewrite He in Hres.
Qed.

Lemma import_quiet_log_witness :
  infoDisabled (main.setupLogger false) = true
  /\ snd (ImportDomainData (main.setupLogger false) listedOrder moreFiles
            (NewCustomerImporter "customers.csv")) = [].
Proof.
  assert (infoDisabled (main.setupLogger false) = true) as H by reflexivity.
  split; [exact H|].
  exact (proj2 (import_quiet_log (main.setupLogger false) listedOrder moreFiles
                  (NewCustomerImporter "customers.csv") H)
           _ ltac:(vm_compute; reflexivity)).
Defined.

Lemma progress_step (rc : Z) :
  0 <= rc ->
  (rc + 1) / 10000 = if (rc + 1) mod 10000 =? 0 then rc / 10000 + 1 else rc / 10000.
Proof.
  intros H. destruct (Z.eqb_spec ((rc + 1) mod 10000) 0) as [H0|H0];
    Z.to_euclidean_division_equations; lia.
Qed.

Lemma readLoop_progress (level : slog.Level) (n : nat) (rows : list csv.rawRecord)
    (st : loopState) :
  slog.levelValue level <= 0 ->
  Forall (fun raw => validRecord n raw = true) rows ->
  0 <= rowCount st ->
  rowCount st + Z.of_nat (length rows) < 2 ^ 64 ->
  exists st' progress,
    readLoop (Some level) (Z.of_nat n) rows st = (Returns (inl st'), logged st')
    /\ logged st' = logged st ++ progress
    /\ Forall (fun r => isInfo "processing" r = true) progress
    /\ Z.of_nat (length progress)
       = (rowCount st + Z.of_nat (length rows)) / 10000 - rowCount st / 10000
    /\ rowCount st' = rowCount st + Z.of_nat (length rows).
Proof.
  intros Hlevel Hrows. revert st.
  induction Hrows as [|raw rows Hraw _ IH]; intros st H0 Hlt.
  - exists st, []. simpl. rewrite app_nil_r, Z.add_0_r.
    repeat split; try done; try apply Forall_nil; lia.
  - destruct raw as [ln line|e|msg]; [|done..]. simpl length in Hlt.
    destruct (readLoop_cons_valid (Some level) n ln line rows st Hraw)
      as (dom & lgd & _ & -> & Hlgd).
    rewrite processRecord_log, Info_enabled in Hlgd by done.
    rewrite (uint64_small (rowCount st + 1)) in * by lia.
    destruct (IH {| data := <[dom := uint64 (default 0 (data st !! dom) + 1)]> (data st);
                    rowCount := rowCount st + 1; logged := lgd |})
      as (st' & progress & Hrun & Hlog & Hall & Hlen & Hrc); [simpl; lia..|].
    simpl in Hlog, Hlen, Hrc.
    pose proof (progress_step (rowCount st) H0) as Hstep.
    unfold progressInterval in *.
    exists st'.
    exists (if (rowCount st + 1) mod 10000 =? 0
            then {| slog.RLevel := slog.LevelInfo; slog.Message := "processing";
                    slog.Attrs :=
                      [(lit "rows", slog.IntValue (rowCount st + 1));
                       (lit "unique_domains",
                        slog.IntValue (Z.of_nat (size (data st))))] |} :: progress
            else progress).
    split; [exact Hrun|]. rewrite Hlog, Hlgd, Hrc. simpl length.
    replace (rowCount st + Z.of_nat (S (length rows)))
      with (rowCount st + 1 + Z.of_nat (length rows)) by lia.
    destruct ((rowCount st + 1) mod 10000 =? 0).
    + rewrite <- app_assoc. split; [reflexivity|]. split; [|split; [|done]].
      * constructor; [reflexivity|done].
      * simpl length. lia.
    + split; [reflexivity|]. split; [done|]. split; [lia|done].
Qed.

(** X11. With a logger that shows [INFO] records, an import of valid rows
    writes one progress record for every 10000 rows and then one record of
    completion, which gives the number of rows and the number of entries of
    the result. *)
Theorem import_progress_log (level : slog.Level) (ord : RangeOrder)
    (fs : os.SourceFiles) (ci : CustomerImporter) (hl : Z) (hdr : list str)
    (rows : list csv.rawRecord) :
  slog.levelValue level <= 0 ->
  os.Open fs (path ci) = inl (csv.Parsed hl hdr :: rows) ->
  Forall (fun raw => validRecord (length hdr) raw = true) rows ->
  Z.of_nat (length rows) < 2 ^ 64 ->
  exists result progress,
    ImportDomainData (Some level) ord fs ci
    = (Returns (Some result, None),
       progress
         ++ [{| slog.RLevel := slog.LevelInfo;
                slog.Message := "aggregation complete";
                slog.Attrs :=
                  [(lit "total_rows", slog.IntValue (Z.of_nat (length rows)));
                   (lit "unique_domains",
                    slog.IntValue (Z.of_nat (length result)))] |}])
    /\ Forall (fun r => isInfo "processing" r = true) progress
    /\ Z.of_nat (length progress) = Z.of_nat (length rows) / 10000.
Proof.
  intros Hlevel Hopen Hrows Hlt. unfold ImportDomainData.
  rewrite Hopen, Read_header. cbn [csv.FieldsPerRecord csv.input].
  destruct (readLoop_progress level (length hdr) rows
              {| data := ∅; rowCount := 0; logged := [] |} Hlevel Hrows)
    as (st & progress & -> & Hlog & Hall & Hlen & Hrc); [simpl; lia..|].
  cbv beta iota. simpl in Hlog, Hlen, Hrc.
  exists (sortedDomains ord (data st)), progress.
  rewrite Info_enabled, Hlog, Hrc, sortedDomains_length by done.
  split; [done|]. split; [done|].
  change (0 / 10000) with 0 in Hlen. by rewrite Z.add_0_l, Z.sub_0_r in Hlen.
Qed.

Lemma import_progress_log_witness :
  slog.levelValue slog.LevelInfo <= 0
  /\ os.Open moreFiles (path (NewCustomerImporter "customers.csv"))
     = inl (csv.Parsed 1 [lit "first_name"; lit "last_name"; lit "email"; lit "gender";
                        lit "ip_address"] :: [rowJane 2; rowBob 3; rowAnn 4])
  /\ exists result progress,
       ImportDomainData (Some slog.LevelInfo) listedOrder moreFiles
         (NewCustomerImporter "customers.csv")
       = (Returns (Some result, None),
          progress
            ++ [{| slog.RLevel := slog.LevelInfo;
                   slog.Message := "aggregation complete";
                   slog.Attrs :=
                     [(lit "total_rows", slog.IntValue 3);
                      (lit "unique_domains",
                       slog.IntValue (Z.of_nat (length result)))] |}])
       /\ Z.of_nat (length progress) = 0.
Proof.
  assert (slog.levelValue slog.LevelInfo <= 0) as H0 by (simpl; lia).
  assert (os.Open moreFiles (path (NewCustomerImporter "customers.csv"))
          = inl (csv.Parsed 1 [lit "first_name"; lit "last_name"; lit "email";
                             lit "gender"; lit "ip_address"]
                   :: [rowJane 2; rowBob 3; rowAnn 4])) as H by (vm_compute; reflexivity).
  split; [exact H0|]. split; [exact H|].
  destruct (import_progress_log slog.LevelInfo listedOrder moreFiles
              (NewCustomerImporter "customers.csv") _ _ _ H0 H
              ltac:(repeat constructor) ltac:(simpl; lia))
    as (result & progress & Hrun & _ & Hlen).
  exists result, progress. split; [exact Hrun|exact Hlen].
Defined.

(** ** The buffered writer *)

Lemma defaultBufSize_pos : (0 < bufio.defaultBufSize)%nat.
Proof. unfold bufio.defaultBufSize. lia. Qed.

Lemma failed_more (f0 : os.File) (all s : str) (b : bufio.Writer os.File)
    (e : io.error) :
  failed f0 all b e -> failed f0 (all ++ s) b e.
Proof.
  intros (He & room & msg & Hf & Hlt & -> & Hn & Hw). split; [done|].
  exists room, msg. rewrite length_app. repeat split; try done; [lia|].
  by rewrite take_app_le by lia.
Qed.

Lemma fits_faultAfter (fault : option (nat * str)) (k n : nat) :
  fits fault k = true ->
  fits (faultAfter fault k) n = fits fault (k + n).
Proof.
  destruct fault as [[room msg]|]; [|done]. simpl. intros Hk%Nat.leb_le.
  apply eq_true_iff_eq. rewrite !Nat.leb_le. lia.
Qed.

Lemma faultAfter_add (fault : option (nat * str)) (k n : nat) :
  faultAfter (faultAfter fault k) n = faultAfter fault (k + n).
Proof. destruct fault as [[room msg]|]; [|done]. simpl. do 2 f_equal. lia. Qed.

(** A write to the file that a writer in good order holds. *)
Lemma Write_tracked (f0 : os.File) (flushed p : str) :
  fits (os.fault f0) (length flushed) = true ->
  let f := {| os.name := os.name f0; os.written := os.written f0 ++ flushed;
              os.fault := faultAfter (os.fault f0) (length flushed) |} in
  (fits (os.fault f0) (length (flushed ++ p)) = true
   /\ io.Write f p
      = ({| os.name := os.name f0; os.written := os.written f0 ++ flushed ++ p;
            os.fault := faultAfter (os.fault f0) (length (flushed ++ p)) |},
         length p, None))
  \/ (exists room msg f',
        os.fault f0 = Some (room, msg)
        /\ (room < length (flushed ++ p))%nat
        /\ io.Write f p
           = (f', (room - length flushed)%nat,
              Some (io.FileError {| os.Op := "write"; os.Path := os.name f0;
                                    os.Err := msg |}))
        /\ os.name f' = os.name f0
        /\ os.written f' = os.written f0 ++ take room (flushed ++ p)).
Proof.
  intros Hfit f. unfold f. cbn [io.Write io.FileWriter]. unfold os.Write.
  cbn [os.fault os.name os.written]. rewrite length_app.
  destruct (os.fault f0) as [[room msg]|]; cbn [faultAfter fits] in *.
  - apply Nat.leb_le in Hfit.
    destruct (Nat.leb_spec (length p) (room - length flushed)) as [Hle|Hgt].
    + left. split; [apply Nat.leb_le; lia|]. cbn [option_map].
      rewrite <- app_assoc. do 5 f_equal. lia.
    + right. eexists room, msg, _. cbn [option_map].
      repeat split; [lia|].
      cbn [os.written]. rewrite take_app_ge by lia. by rewrite <- app_assoc.
  - left. split; [done|]. cbn [option_map]. by rewrite <- app_assoc.
Qed.

Lemma Flush_tracks (f0 : os.File) (all : str) (b : bufio.Writer os.File) :
  buffering f0 all b ->
  tracks f0 all (bufio.Flush b)
  /\ (snd (bufio.Flush b) = None -> bufio.buf (fst (bufio.Flush b)) = []).
Proof.
  intros (He & Hlen & flushed & -> & Hfit & Hwr). unfold bufio.Flush. rewrite He.
  destruct (bufio.buf b) as [|c buf] eqn:Hbuf.
  { split; [|done]. unfold tracks. cbn [fst snd]. split; [done|].
    split; [by rewrite Hbuf|]. exists flushed. by rewrite Hbuf. }
  rewrite Hwr.
  destruct (Write_tracked f0 flushed (c :: buf) Hfit)
    as [[Hfit' ->]|(room & msg & f' & Hf & Hlt & -> & Hn & Hw)].
  - rewrite Nat.ltb_irrefl. split; [|done]. unfold tracks. cbn [fst snd].
    split; [done|]. split; [cbn; lia|]. exists (flushed ++ c :: buf).
    rewrite app_nil_r. split; [done|]. split; done.
  - cbn [fst snd]. split; [|done]. unfold tracks. cbn [fst snd]. split; [done|].
    exists room, msg. done.
Qed.

Lemma buffering_append (f0 : os.File) (all s : str) (b : bufio.Writer os.File) :
  buffering f0 all b ->
  (length (bufio.buf b) + length s <= bufio.defaultBufSize)%nat ->
  buffering f0 (all ++ s)
    {| bufio.err := None; bufio.buf := bufio.buf b ++ s; bufio.wr := bufio.wr b |}.
Proof.
  intros (He & Hlen & flushed & -> & Hfit & Hwr) Hs. split; [done|].
  cbn [bufio.buf bufio.wr]. split; [rewrite length_app; lia|].
  exists flushed. by rewrite <- app_assoc.
Qed.

Lemma pushes_WriteByte (c : ascii) : pushes (fun b => bufio.WriteByte b c) [c].
Proof.
  intros f0 all b Hb. pose proof Hb as (He & Hlen & _).
  unfold bufio.WriteByte. rewrite He.
  destruct (Nat.leb_spec (bufio.Available b) 0) as [Hfull|Hroom].
  - destruct (Flush_tracks f0 all b Hb) as [Ht Hempty].
    destruct (bufio.Flush b) as [b' [e|]]; unfold tracks in *; cbn [fst snd] in *.
    + destruct Ht as [He' Ht]. rewrite He'. cbn [fst snd].
      by apply failed_more.
    + specialize (Hempty eq_refl). destruct Ht as [He' Ht]. rewrite He'.
      apply (buffering_append f0 all [c] b'); [by split|].
      rewrite Hempty. pose proof defaultBufSize_pos. simpl. lia.
  - unfold tracks. cbn [fst snd]. rewrite He.
    apply (buffering_append f0 all [c] b Hb).
    unfold bufio.Available in Hroom. simpl. lia.
Qed.

Lemma buffers_WriteByte (c : ascii) : buffers (fun b => bufio.WriteByte b c) [c].
Proof.
  intros b He Hlen. unfold bufio.WriteByte. rewrite He.
  destruct (Nat.leb_spec (bufio.Available b) 0) as [Hfull|Hroom].
  - unfold bufio.Available in Hfull. simpl in Hlen. lia.
  - by rewrite He.
Qed.

(** The loop stops at once when the bytes fit or an error has occurred,
    whatever the fuel. *)
Lemma writeLoop_stop (direct : bool) (fuel : nat) (b : bufio.Writer os.File) (s : str) :
  (bufio.Available b <? length s)%nat && bool_decide (bufio.err b = None) = false ->
  bufio.writeLoop direct fuel b s = (b, s).
Proof. intros H. destruct fuel; simpl; by rewrite H. Qed.

Lemma writeLoop_step (direct : bool) (fuel : nat) (b : bufio.Writer os.File) (s : str) :
  (bufio.Available b <? length s)%nat && bool_decide (bufio.err b = None) = true ->
  bufio.writeLoop direct (S fuel) b s
  = if (bufio.Buffered b =? 0)%nat && direct then
      let '(wr', n, e) := io.Write (bufio.wr b) s in
      bufio.writeLoop direct fuel
        {| bufio.err := e; bufio.buf := bufio.buf b; bufio.wr := wr' |} (drop n s)
    else
      let n := Nat.min (bufio.Available b) (length s) in
      bufio.writeLoop direct fuel
        (fst (bufio.Flush {| bufio.err := bufio.err b;
                             bufio.buf := bufio.buf b ++ take n s;
                             bufio.wr := bufio.wr b |}))
        (drop n s).
Proof. intros H. cbn [bufio.writeLoop]. by rewrite H. Qed.

Lemma writeLoop_direct (f0 : os.File) (all s : str) (fuel : nat)
    (b : bufio.Writer os.File) :
  buffering f0 all b -> bufio.buf b = [] ->
  (bufio.Available b < length s)%nat ->
  loopEnd f0 all s (bufio.writeLoop true (S fuel) b s).
Proof.
  intros Hb Hbuf Hlong. pose proof Hb as (He & Hlen & flushed & Hall & Hfit & Hwr).
  rewrite Hbuf, app_nil_r in Hall. subst flushed.
  rewrite writeLoop_step
    by (rewrite He, bool_decide_eq_true_2 by done;
        apply andb_true_iff; split; [by apply Nat.ltb_lt|done]).
  unfold bufio.Buffered. rewrite Hbuf. cbn [length Nat.eqb andb]. rewrite Hwr.
  destruct (Write_tracked f0 all s Hfit)
    as [[Hfit' ->]|(room & msg & f' & Hf & Hlt & -> & Hn & Hw)].
  - rewrite drop_all. rewrite writeLoop_stop by done. right. exists s.
    cbn [fst snd]. rewrite app_nil_r. split; [done|]. split.
    + split; [done|]. cbn [bufio.buf bufio.wr]. split; [simpl; lia|].
      exists (all ++ s). by rewrite app_nil_r.
    + simpl. lia.
  - rewrite writeLoop_stop by (cbn [bufio.err]; apply andb_false_r).
    left. eexists. cbn [fst]. split; [done|]. exists room, msg. done.
Qed.

Lemma writeLoop_end (f0 : os.File) (all s : str) (fuel : nat)
    (b : bufio.Writer os.File) :
  buffering f0 all b ->
  loopEnd f0 all s (bufio.writeLoop true (S (S fuel)) b s).
Proof.
  intros Hb. pose proof Hb as (He & Hlen & flushed & Hall & Hfit & Hwr).
  destruct (Nat.ltb_spec (bufio.Available b) (length s)) as [Hlong|Hshort].
  2:{ rewrite writeLoop_stop by (apply andb_false_iff; left; by apply Nat.ltb_ge).
      right. exists []. cbn [fst snd app]. rewrite app_nil_r. split; [done|].
      split; [done|]. unfold bufio.Available in Hshort. lia. }
  destruct (bufio.buf b) as [|c buf] eqn:Hbuf.
  { by apply writeLoop_direct. }
  rewrite writeLoop_step
    by (rewrite He, bool_decide_eq_true_2 by done;
        apply andb_true_iff; split; [by apply Nat.ltb_lt|done]).
  unfold bufio.Buffered. rewrite Hbuf. cbn [length Nat.eqb andb].
  cbv zeta. rewrite Nat.min_l by lia.
  set (n := bufio.Available b) in *.
  set (b1 := {| bufio.err := bufio.err b; bufio.buf := (c :: buf) ++ take n s;
                bufio.wr := bufio.wr b |}).
  assert (buffering f0 (all ++ take n s) b1) as Hb1.
  { unfold b1. rewrite He, <- Hbuf. apply buffering_append; [done|].
    rewrite length_take. unfold n, bufio.Available in *. rewrite Hbuf in *. lia. }
  destruct (Flush_tracks f0 _ b1 Hb1) as [Ht Hempty].
  destruct (bufio.Flush b1) as [b2 [e|]]; unfold tracks in *; cbn [fst snd] in *.
  - rewrite writeLoop_stop
      by (destruct Ht as [-> _]; rewrite bool_decide_eq_false_2 by done;
          apply andb_false_r).
    left. exists e. cbn [fst]. apply (failed_more _ _ (drop n s)) in Ht.
    by rewrite <- app_assoc, take_drop in Ht.
  - specialize (Hempty eq_refl).
    destruct (Nat.ltb_spec (bufio.Available b2) (length (drop n s))) as [Hlong2|Hshort2].
    + destruct (writeLoop_direct f0 (all ++ take n s) (drop n s) fuel b2 Ht Hempty Hlong2)
        as [[e Hf]|(pushed & Hs & Hbuffering & Hroom)].
      * left. exists e. by rewrite <- app_assoc, take_drop in Hf.
      * right. exists (take n s ++ pushed). rewrite <- !app_assoc, <- Hs, take_drop.
        split; [done|]. rewrite <- app_assoc in Hbuffering. done.
    + rewrite writeLoop_stop by (apply andb_false_iff; left; by apply Nat.ltb_ge).
      right. exists (take n s). cbn [fst snd]. rewrite take_drop.
      split; [done|]. split; [done|]. rewrite Hempty.
      unfold bufio.Available in Hshort2. rewrite Hempty in Hshort2.
      cbn [length] in *. lia.
Qed.

Lemma writeBytes_tracks (f0 : os.File) (all s : str) (b : bufio.Writer os.File) :
  buffering f0 all b -> tracks f0 (all ++ s) (bufio.writeBytes true b s).
Proof.
  intros Hb. unfold bufio.writeBytes.
  pose proof (writeLoop_end f0 all s (length s) b Hb) as Hend.
  destruct (bufio.writeLoop true (S (S (length s))) b s) as [b' s'].
  destruct Hend as [[e Hf]|(pushed & -> & Hb' & Hroom)]; cbn [fst snd] in *.
  - destruct Hf as [He Hf]. rewrite He. unfold tracks. cbn [fst snd]. by split.
  - destruct Hb' as [He Hb']. rewrite He. unfold tracks. cbn [fst snd].
    rewrite app_assoc. apply buffering_append; [by split|done].
Qed.

Lemma pushes_WriteString (s : str) : pushes (fun b => bufio.WriteString b s) s.
Proof. intros f0 all b Hb. by apply writeBytes_tracks. Qed.

Lemma pushes_Write_nil : pushes (fun b => bufio.Write b []) [].
Proof. intros f0 all b Hb. by apply writeBytes_tracks. Qed.

Lemma writeBytes_buffers (direct : bool) (s : str) :
  buffers (fun b => bufio.writeBytes direct b s) s.
Proof.
  intros b He Hlen. unfold bufio.writeBytes.
  rewrite writeLoop_stop.
  - by rewrite He.
  - apply andb_false_iff. left. apply Nat.ltb_ge. unfold bufio.Available. lia.
Qed.

Lemma buffers_WriteString (s : str) : buffers (fun b => bufio.WriteString b s) s.
Proof. apply writeBytes_buffers. Qed.

Lemma buffers_Write_nil : buffers (fun b => bufio.Write b []) [].
Proof. apply writeBytes_buffers. Qed.

Lemma pushes_skip : pushes (fun b => (b, None)) [].
Proof. intros f0 all b Hb. unfold tracks. cbn [fst snd]. by rewrite app_nil_r. Qed.

Lemma buffers_skip : buffers (fun b => (b, None)) [].
Proof.
  intros [e buf wr] He _. cbn [bufio.err bufio.buf bufio.wr] in *. subst e.
  by rewrite app_nil_r.
Qed.

Lemma pushes_andThen
    (f g : bufio.Writer os.File -> bufio.Writer os.File * option io.error)
    (s1 s2 : str) :
  pushes f s1 -> pushes g s2 -> pushes (fun b => bufio.andThen (f b) g) (s1 ++ s2).
Proof.
  intros Hf Hg f0 all b Hb. specialize (Hf f0 all b Hb). unfold bufio.andThen.
  destruct (f b) as [b1 [e|]]; unfold tracks in *; cbn [fst snd] in *.
  - rewrite app_assoc. by apply failed_more.
  - rewrite app_assoc. by apply Hg.
Qed.

Lemma buffers_andThen
    (f g : bufio.Writer os.File -> bufio.Writer os.File * option io.error)
    (s1 s2 : str) :
  buffers f s1 -> buffers g s2 -> buffers (fun b => bufio.andThen (f b) g) (s1 ++ s2).
Proof.
  intros Hf Hg b He Hlen. rewrite length_app in Hlen.
  rewrite (Hf b He) by lia. unfold bufio.andThen.
  rewrite Hg; cbn [bufio.err bufio.buf bufio.wr]; [|done|rewrite length_app; lia].
  by rewrite <- app_assoc.
Qed.

(** ** The report *)

Lemma string_of_uint_digits (d : Decimal.uint) :
  Forall (fun c => isDigit c = true) (lit (NilEmpty.string_of_uint d)).
Proof. induction d; simpl; constructor; done. Qed.

Lemma FormatUint_digits (v : Z) :
  strconv.FormatUint v <> []
  /\ Forall (fun c => isDigit c = true) (strconv.FormatUint v).
Proof.
  unfold strconv.FormatUint, NilZero.string_of_uint.
  destruct (N.to_uint (Z.to_N v)) as [|d|d|d|d|d|d|d|d|d|d] eqn:E;
    (split; [done|]);
    try (rewrite <- E; apply string_of_uint_digits);
    try (change (Forall (fun c => isDigit c = true)
                   (lit (NilEmpty.string_of_uint (Decimal.D0 Decimal.Nil))));
         apply string_of_uint_digits).
Qed.

Ltac digit_contra :=
  exfalso;
  repeat match goal with
         | H : _ = true |- _ =>
             cbv beta delta [isDigit utf8.isSpace1 utf8.isSpace2 utf8.isSpace3] in H;
             repeat (progress rewrite ?andb_true_iff, ?orb_true_iff, ?N.eqb_eq,
                       ?N.leb_le in H);
             revert H
         end;
  intros; lia.

(** A field of digits is written as it is. *)
Lemma digits_plain (field : str) :
  field <> [] -> Forall (fun c => isDigit c = true) field ->
  exporter.csvw.fieldNeedsQuotes field = false.
Proof.
  destruct field as [|c rest]; [done|]. intros _ Hall.
  pose proof (Forall_inv Hall) as Hc. simpl in Hc. unfold exporter.csvw.fieldNeedsQuotes.
  destruct (decide (c :: rest = lit "\.")) as [[= -> _]|_]; [done|].
  assert (existsb (fun c => ((code c =? 10) || (code c =? 13) || (code c =? 34)
                             || (code c =? 44))%N) (c :: rest) = false) as ->.
  { clear Hc. induction Hall as [|x l Hx _ IH]; [done|]. simpl. rewrite IH.
    destruct ((code x =? 10) || (code x =? 13) || (code x =? 34) || (code x =? 44))%N
      eqn:E; [|done].
    repeat (progress rewrite ?orb_true_iff, ?N.eqb_eq in E). digit_contra. }
  simpl. destruct (utf8.isSpace1 c) eqn:E1; [digit_contra|].
  destruct rest as [|b1 rest]; [done|].
  destruct (utf8.isSpace2 c b1) eqn:E2; [digit_contra|].
  destruct rest as [|b2 rest]; [done|].
  destruct (utf8.isSpace3 c b1 b2) eqn:E3; [digit_contra|]. done.
Qed.

Lemma writeField_FormatUint (v : Z) :
  exporter.csvw.writeField (strconv.FormatUint v) = strconv.FormatUint v.
Proof.
  unfold exporter.csvw.writeField.
  by rewrite (digits_plain _ (proj1 (FormatUint_digits v)) (proj2 (FormatUint_digits v))).
Qed.

Lemma fieldsFrom_commas (n : nat) (record : list str) :
  fieldsFrom (S n) record
  = flat_map (fun field => ","%char :: exporter.csvw.writeField field) record.
Proof.
  revert n. induction record as [|field rest IH]; intros n; [done|].
  cbn [fieldsFrom flat_map]. by rewrite IH.
Qed.

Lemma writeFields_commas (field : str) (rest : list str) :
  exporter.csvw.writeFields (field :: rest)
  = exporter.csvw.writeField field
      ++ flat_map (fun field => ","%char :: exporter.csvw.writeField field) rest.
Proof.
  revert field. induction rest as [|next rest IH]; intros field.
  - cbn. by rewrite app_nil_r.
  - change (exporter.csvw.writeFields (field :: next :: rest))
      with (exporter.csvw.writeField field
              ++ ","%char :: exporter.csvw.writeFields (next :: rest)).
    by rewrite IH.
Qed.

Lemma fieldsFrom_writeFields (record : list str) :
  fieldsFrom 0 record = exporter.csvw.writeFields record.
Proof.
  destruct record as [|field rest]; [done|].
  cbn [fieldsFrom]. by rewrite fieldsFrom_commas, writeFields_commas.
Qed.

Lemma reportLine_fields (v : DomainData) :
  fieldsFrom 0 [Domain v; strconv.FormatUint (CustomerQuantity v)]
    ++ [exporter.csvw.lineFeed]
  = reportLine v.
Proof.
  unfold reportLine. cbn [fieldsFrom Nat.ltb Nat.leb].
  rewrite writeField_FormatUint. cbn [app]. rewrite app_nil_r.
  by rewrite <- !app_assoc.
Qed.

(** ** The CSV writer *)

Lemma IndexAny_split (field chars : str) :
  let i := strings.IndexAny field chars in
  let n := if i <? 0 then length field else Z.to_nat i in
  -1 <= i
  /\ (n <= length field)%nat
  /\ Forall (fun c => existsb (Ascii.eqb c) chars = false) (take n field)
  /\ match drop n field with
     | [] => True
     | c :: _ => existsb (Ascii.eqb c) chars = true
     end.
Proof.
  cbv zeta. induction field as [|b field IH]; cbn [strings.IndexAny].
  - cbn. split; [lia|]. split; [lia|]. split; [constructor|done].
  - destruct (existsb (Ascii.eqb b) chars) eqn:Hb.
    + cbn. split; [lia|]. split; [lia|]. split; [constructor|done].
    + destruct IH as (Hi & Hn & Hpre & Hpost).
      destruct (Z.ltb_spec (strings.IndexAny field chars) 0) as [Hneg|Hpos].
      * change (-1 <? 0) with true. cbv iota.
        rewrite firstn_all in Hpre. rewrite firstn_all, drop_all.
        split; [lia|]. split; [lia|]. split; [by constructor|done].
      * destruct (Z.ltb_spec (strings.IndexAny field chars + 1) 0); [lia|].
        rewrite Z2Nat.inj_add by lia. rewrite Nat.add_1_r. cbn [take drop length].
        split; [lia|]. split; [lia|]. split; [by constructor|done].
Qed.

Section Steps.

Variable P : (bufio.Writer os.File -> bufio.Writer os.File * option io.error)
             -> str -> Prop.

Hypothesis P_WriteByte : forall c, P (fun b => bufio.WriteByte b c) [c].
Hypothesis P_WriteString : forall s, P (fun b => bufio.WriteString b s) s.
Hypothesis P_Write_nil : P (fun b => bufio.Write b []) [].
Hypothesis P_skip : P (fun b => (b, None)) [].
Hypothesis P_andThen :
  forall f g s1 s2, P f s1 -> P g s2 -> P (fun b => bufio.andThen (f b) g) (s1 ++ s2).
Hypothesis P_ext :
  forall f g s, (forall b, f b = g b) -> P f s -> P g s.

Lemma step_writeQuoted (fuel : nat) (field : str) :
  (length field < fuel)%nat ->
  P (exporter.csvw.writeQuoted fuel field)
    (flat_map (fun c => if Ascii.eqb c exporter.csvw.quote
                        then [exporter.csvw.quote; exporter.csvw.quote] else [c])
       field).
Proof.
  revert field. induction fuel as [|fuel IH]; intros field Hlen; [lia|].
  destruct field as [|c0 rest] eqn:Hfield.
  { apply (P_ext (fun b => (b, None))); [done|apply P_skip]. }
  rewrite <- Hfield in *.
  pose proof (IndexAny_split field
                [exporter.csvw.quote; exporter.csvw.carriageReturn;
                 exporter.csvw.lineFeed]) as Hsplit.
  cbv zeta in Hsplit.
  set (i := strings.IndexAny field _) in *.
  set (n := if i <? 0 then length field else Z.to_nat i) in *.
  destruct Hsplit as (_ & Hn & Hpre & Hpost).
  rewrite <- (take_drop n field) at 2. rewrite flat_map_app.
  assert (flat_map (fun c => if Ascii.eqb c exporter.csvw.quote
                             then [exporter.csvw.quote; exporter.csvw.quote] else [c])
            (take n field) = take n field) as ->.
  { induction Hpre as [|c l Hc _ IHl]; [done|]. cbn [flat_map].
    rewrite IHl. cbn [existsb] in Hc. apply orb_false_iff in Hc as [Hc _].
    by rewrite Hc. }
  apply (P_ext (fun w =>
    bufio.andThen (bufio.WriteString w (take n field)) (fun w =>
      match drop n field with
      | [] => (w, None)
      | c :: field' =>
          bufio.andThen
            (if Ascii.eqb c exporter.csvw.quote
             then bufio.WriteString w [exporter.csvw.quote; exporter.csvw.quote]
             else if Ascii.eqb c exporter.csvw.carriageReturn
             then bufio.WriteByte w exporter.csvw.carriageReturn
             else if Ascii.eqb c exporter.csvw.lineFeed
             then bufio.WriteByte w exporter.csvw.lineFeed
             else (w, None))
            (exporter.csvw.writeQuoted fuel field')
      end))).
  { intros b. subst n i. subst field. reflexivity. }
  apply P_andThen; [apply P_WriteString|].
  assert (length (drop n field) <= length field)%nat as Hdrop
    by (rewrite length_drop; lia).
  destruct (drop n field) as [|c field'].
  { apply P_skip. }
  cbn [flat_map]. cbn [length] in Hdrop.
  apply (P_andThen
           (fun w => if Ascii.eqb c exporter.csvw.quote
                     then bufio.WriteString w [exporter.csvw.quote; exporter.csvw.quote]
                     else if Ascii.eqb c exporter.csvw.carriageReturn
                     then bufio.WriteByte w exporter.csvw.carriageReturn
                     else if Ascii.eqb c exporter.csvw.lineFeed
                     then bufio.WriteByte w exporter.csvw.lineFeed
                     else (w, None))); [|apply IH; lia].
  cbn [existsb] in Hpost.
  destruct (Ascii.eqb c exporter.csvw.quote) eqn:E1; [apply P_WriteString|].
  destruct (Ascii.eqb c exporter.csvw.carriageReturn) eqn:E2.
  { apply Ascii.eqb_eq in E2 as ->. apply P_WriteByte. }
  destruct (Ascii.eqb c exporter.csvw.lineFeed) eqn:E3.
  { apply Ascii.eqb_eq in E3 as ->. apply P_WriteByte. }
  done.
Qed.

Lemma step_writeNth (n : nat) (field : str) :
  P (exporter.csvw.writeNth n field)
    ((if (0 <? n)%nat then lit "," else []) ++ exporter.csvw.writeField field).
Proof.
  unfold exporter.csvw.writeNth.
  apply (P_andThen
           (fun w => if (0 <? n)%nat then bufio.WriteRune w exporter.csvw.Comma
                     else (w, None))).
  - destruct (0 <? n)%nat; [apply (P_WriteByte ","%char)|apply P_skip].
  - unfold exporter.csvw.writeField.
    destruct (exporter.csvw.fieldNeedsQuotes field); cbn [negb];
      [|apply P_WriteString].
    unfold exporter.csvw.quoted.
    apply (P_andThen (fun w => bufio.WriteByte w exporter.csvw.quote) _
             [exporter.csvw.quote]); [apply P_WriteByte|].
    apply (P_andThen (exporter.csvw.writeQuoted (S (length field)) field));
      [apply step_writeQuoted; lia|apply P_WriteByte].
Qed.

Lemma step_writeFrom (n : nat) (record : list str) :
  P (exporter.csvw.writeFrom n record) (fieldsFrom n record).
Proof.
  revert n. induction record as [|field rest IH]; intros n;
    cbn [exporter.csvw.writeFrom fieldsFrom].
  - apply P_skip.
  - rewrite app_assoc.
    apply (P_andThen (exporter.csvw.writeNth n field)); [apply step_writeNth|apply IH].
Qed.

Lemma step_Write (record : list str) :
  P (fun w => exporter.csvw.Write w record)
    (fieldsFrom 0 record ++ [exporter.csvw.lineFeed]).
Proof.
  unfold exporter.csvw.Write.
  apply (P_andThen (exporter.csvw.writeFrom 0 record));
    [apply step_writeFrom|apply P_WriteByte].
Qed.

Lemma step_writeEntries (rows : list DomainData) :
  P (exporter.writeEntries rows) (flat_map reportLine rows).
Proof.
  induction rows as [|v rows IH]; cbn [exporter.writeEntries flat_map].
  - apply P_skip.
  - rewrite <- reportLine_fields.
    apply (P_andThen
             (fun w => exporter.csvw.Write w
                         [Domain v; strconv.FormatUint (CustomerQuantity v)]));
      [apply step_Write|apply IH].
Qed.

(** The calls of [exportCsv] on its CSV writer push the report. *)
Lemma step_export (rows : list DomainData) :
  P (fun csvWriter =>
       bufio.andThen
         (exporter.csvw.Write csvWriter [lit "domain"; lit "number_of_customers"])
         (fun csvWriter =>
            bufio.andThen (exporter.writeEntries rows csvWriter)
              (fun csvWriter => exporter.csvw.Error csvWriter)))
    (report rows).
Proof.
  unfold report.
  change reportHeader
    with (fieldsFrom 0 [lit "domain"; lit "number_of_customers"]
            ++ [exporter.csvw.lineFeed]).
  apply (P_andThen
           (fun w => exporter.csvw.Write w [lit "domain"; lit "number_of_customers"]));
    [apply step_Write|].
  rewrite <- (app_nil_r (flat_map reportLine rows)).
  apply (P_andThen (exporter.writeEntries rows)); [apply step_writeEntries|].
  apply P_Write_nil.
Qed.

End Steps.

(** ** What [exportCsv] writes *)

Lemma pushes_ext
    (f g : bufio.Writer os.File -> bufio.Writer os.File * option io.error) (s : str) :
  (forall b, f b = g b) -> pushes f s -> pushes g s.
Proof. intros Hfg Hf f0 all b Hb. rewrite <- Hfg. by apply Hf. Qed.

Lemma buffers_ext
    (f g : bufio.Writer os.File -> bufio.Writer os.File * option io.error) (s : str) :
  (forall b, f b = g b) -> buffers f s -> buffers g s.
Proof. intros Hfg Hf b He Hlen. rewrite <- Hfg. by apply Hf. Qed.

Lemma pushes_export (rows : list DomainData) :
  pushes
    (fun csvWriter =>
       bufio.andThen
         (exporter.csvw.Write csvWriter [lit "domain"; lit "number_of_customers"])
         (fun csvWriter =>
            bufio.andThen (exporter.writeEntries rows csvWriter)
              (fun csvWriter => exporter.csvw.Error csvWriter)))
    (report rows).
Proof.
  apply (step_export pushes pushes_WriteByte pushes_WriteString pushes_Write_nil
           pushes_skip pushes_andThen pushes_ext).
Qed.

Lemma buffers_export (rows : list DomainData) :
  buffers
    (fun csvWriter =>
       bufio.andThen
         (exporter.csvw.Write csvWriter [lit "domain"; lit "number_of_customers"])
         (fun csvWriter =>
            bufio.andThen (exporter.writeEntries rows csvWriter)
              (fun csvWriter => exporter.csvw.Error csvWriter)))
    (report rows).
Proof.
  apply (step_export buffers buffers_WriteByte buffers_WriteString buffers_Write_nil
           buffers_skip buffers_andThen buffers_ext).
Qed.

Lemma faultAfter_0 (fault : option (nat * str)) : faultAfter fault 0 = fault.
Proof. destruct fault as [[room msg]|]; [|done]. simpl. by rewrite Nat.sub_0_r. Qed.

Lemma buffering_new (f0 : os.File) : buffering f0 [] (bufio.NewWriter f0).
Proof.
  split; [done|]. split; [cbn; lia|]. exists []. split; [done|].
  split; [by destruct (os.fault f0) as [[room msg]|]|].
  cbn [length bufio.NewWriter bufio.wr]. rewrite faultAfter_0, app_nil_r.
  by destruct f0.
Qed.

Lemma accepted_fits (fault : option (nat * str)) (s : str) :
  fits fault (length s) = true -> accepted fault s = s.
Proof.
  destruct fault as [[room msg]|]; [|done]. simpl. intros H%Nat.leb_le.
  by apply take_ge.
Qed.

(** The file after [exportCsv]: it holds what it took of the report.  The
    call returns no error when the file takes the whole report, and so an
    error only when the file holds less. *)
Lemma exportCsv_file (rows : list DomainData) (f0 : os.File) :
  os.name (snd (exporter.exportCsv rows f0)) = os.name f0
  /\ os.written (snd (exporter.exportCsv rows f0))
     = os.written f0 ++ accepted (os.fault f0) (report rows)
  /\ (fits (os.fault f0) (length (report rows)) = true ->
      exporter.exportCsv rows f0
      = (None,
         {| os.name := os.name f0; os.written := os.written f0 ++ report rows;
            os.fault := faultAfter (os.fault f0) (length (report rows)) |}))
  /\ (fst (exporter.exportCsv rows f0) <> None ->
      fits (os.fault f0) (length (report rows)) = false).
Proof.
  unfold exporter.exportCsv. cbv zeta.
  pose proof (pushes_export rows f0 [] (bufio.NewWriter f0) (buffering_new f0)) as Ht.
  cbv beta in Ht. cbn [app] in Ht. unfold exporter.csvw.NewWriter.
  destruct (bufio.andThen _ _) as [w [e|]]; unfold tracks in Ht; cbn [fst snd] in *.
  - destruct Ht as (He & room & msg & Hf & Hlt & -> & Hn & Hw).
    unfold exporter.csvw.Flush, bufio.Flush. rewrite He. cbn [fst].
    rewrite Hf. cbn [accepted fits].
    assert ((length (report rows) <=? room)%nat = false) as Hno
      by (apply Nat.leb_gt; lia).
    rewrite Hno. done.
  - destruct (Flush_tracks f0 _ w Ht) as [Ht' Hempty].
    unfold exporter.csvw.Flush.
    destruct (bufio.Flush w) as [w' [e|]]; unfold tracks in Ht'; cbn [fst snd] in *.
    + destruct Ht' as (He & room & msg & Hf & Hlt & -> & Hn & Hw).
      rewrite Hf. cbn [accepted fits].
      assert ((length (report rows) <=? room)%nat = false) as Hno
        by (apply Nat.leb_gt; lia).
      rewrite Hno. done.
    + destruct Ht' as (He & Hlen & flushed & Hall & Hfit & Hwr).
      rewrite (Hempty eq_refl), app_nil_r in Hall. subst flushed.
      rewrite Hwr. cbn [os.name os.written]. rewrite accepted_fits by done.
      done.
Qed.

(** A report that fits in the buffer of the CSV writer reaches the file
    with the deferred flush only, whose error is lost: [exportCsv] returns
    no error. *)
Lemma exportCsv_small (rows : list DomainData) (f0 : os.File) :
  (length (report rows) <= bufio.defaultBufSize)%nat ->
  fst (exporter.exportCsv rows f0) = None.
Proof.
  intros Hlen. unfold exporter.exportCsv. cbv zeta.
  unfold exporter.csvw.NewWriter.
  by rewrite (buffers_export rows (bufio.NewWriter f0) eq_refl Hlen).
Qed.

(** X12. The report that [exportCsv] writes to a file whose writes do not
    fail is the header line followed by one line for each entry, in the
    order given: the domain (quoted when the CSV writer requires it), a
    comma, the count in decimal digits, never quoted, and a line feed.  It
    is added to what the file holds, and no error is returned.  What is
    written for a longer slice extends what is written for its
    beginning. *)
Theorem exportCsv_lines (rows more : list DomainData) (name written : str) :
  exporter.exportCsv rows
    {| os.name := name; os.written := written; os.fault := None |}
  = (None,
     {| os.name := name;
        os.written := written ++ reportHeader ++ flat_map reportLine rows;
        os.fault := None |})
  /\ os.written
       (snd (exporter.exportCsv (rows ++ more)
               {| os.name := name; os.written := written; os.fault := None |}))
     = os.written
         (snd (exporter.exportCsv rows
                 {| os.name := name; os.written := written; os.fault := None |}))
         ++ flat_map reportLine more.
Proof.
  assert (forall l,
            exporter.exportCsv l
              {| os.name := name; os.written := written; os.fault := None |}
            = (None,
               {| os.name := name; os.written := written ++ report l;
                  os.fault := None |})) as H.
  { intros l.
    exact (proj1 (proj2 (proj2 (exportCsv_file l
             {| os.name := name; os.written := written; os.fault := None |})))
             eq_refl). }
  split; [apply H|]. rewrite !H. cbn [snd os.written]. unfold report.
  by rewrite flat_map_app, <- !app_assoc.
Qed.

Lemma printData_lines (rows : list DomainData) (out : str) :
  main.printData (Some rows) out = out ++ reportHeader ++ flat_map printedLine rows.
Proof.
  unfold main.printData. cbn [default].
  assert (forall buf,
    fold_left (fun out v => out ++ Domain v ++ lit "," ++
                 strconv.FormatUint (CustomerQuantity v) ++ [main.newline]) rows buf
    = buf ++ flat_map printedLine rows) as H.
  { induction rows as [|v rows IH]; intros buf; cbn [fold_left flat_map];
      [by rewrite app_nil_r|].
    rewrite IH. unfold printedLine. by rewrite <- !app_assoc. }
  rewrite H. unfold reportHeader. by rewrite <- !app_assoc.
Qed.

Lemma quoted_length (field : str) :
  (length field + 2 <= length (exporter.csvw.quoted field))%nat.
Proof.
  unfold exporter.csvw.quoted. simpl. rewrite length_app. simpl.
  assert (length field <= length (flat_map
            (fun c => if Ascii.eqb c exporter.csvw.quote
                      then [exporter.csvw.quote; exporter.csvw.quote] else [c])
            field))%nat; [|lia].
  induction field as [|c field IH]; simpl; [lia|].
  rewrite length_app. destruct (Ascii.eqb c _); simpl; lia.
Qed.

Lemma reportLine_length (v : DomainData) :
  (length (printedLine v) <= length (reportLine v))%nat
  /\ (exporter.csvw.fieldNeedsQuotes (Domain v) = true ->
      (length (printedLine v) < length (reportLine v))%nat)
  /\ (exporter.csvw.fieldNeedsQuotes (Domain v) = false -> reportLine v = printedLine v).
Proof.
  unfold printedLine, reportLine, exporter.csvw.writeField.
  pose proof (quoted_length (Domain v)).
  destruct (exporter.csvw.fieldNeedsQuotes (Domain v));
    rewrite ?length_app; repeat split; try done; lia.
Qed.

Lemma report_lengths (rows : list DomainData) :
  (length (flat_map printedLine rows) <= length (flat_map reportLine rows))%nat
  /\ (Exists (fun v => exporter.csvw.fieldNeedsQuotes (Domain v) = true) rows ->
      (length (flat_map printedLine rows) < length (flat_map reportLine rows))%nat).
Proof.
  induction rows as [|v rows [IH1 IH2]]; simpl.
  - split; [lia|]. by intros ?%Exists_nil.
  - rewrite !length_app. destruct (reportLine_length v) as (H1 & H2 & _).
    split; [lia|]. intros [Hv|Hrows]%Exists_cons.
    + specialize (H2 Hv). lia.
    + specialize (IH2 Hrows). lia.
Qed.

(** X13. What [printData] prints on the standard output and what
    [exportCsv] writes to a new file whose writes do not fail are the same
    bytes exactly when no domain of the result has to be quoted by the CSV
    writer: [printData] never quotes. *)
Theorem printData_exportCsv (rows : list DomainData) (name : str) :
  main.printData (Some rows) []
  = os.written
      (snd (exporter.exportCsv rows
              {| os.name := name; os.written := []; os.fault := None |}))
  <-> Forall (fun v => exporter.csvw.fieldNeedsQuotes (Domain v) = false) rows.
Proof.
  rewrite printData_lines.
  rewrite (proj1 (proj2 (exportCsv_file rows _))). cbn [os.written os.fault accepted app].
  unfold report. split.
  - intros Heq. apply Forall_forall. intros v Hv.
    destruct (exporter.csvw.fieldNeedsQuotes (Domain v)) eqn:E; [|done].
    assert (Exists (fun v => exporter.csvw.fieldNeedsQuotes (Domain v) = true) rows)
      as Hex by (apply Exists_exists; by exists v).
    apply (proj2 (report_lengths rows)) in Hex.
    apply (f_equal (@length _)) in Heq. rewrite !length_app in Heq. lia.
  - intros Hall. f_equal. induction Hall as [|v rows Hv _ IH]; [done|].
    cbn [flat_map]. by rewrite IH, (proj2 (proj2 (reportLine_length v)) Hv).
Qed.

Lemma printData_exportCsv_witness :
  Forall (fun v => exporter.csvw.fieldNeedsQuotes (Domain v) = false)
    [ {| Domain := "acme.io"; CustomerQuantity := 1 |};
      {| Domain := "example.com"; CustomerQuantity := 2 |} ]
  /\ main.printData (Some [ {| Domain := "acme.io"; CustomerQuantity := 1 |};
                            {| Domain := "example.com"; CustomerQuantity := 2 |} ]) []
     = os.written
         (snd (exporter.exportCsv
                 [ {| Domain := "acme.io"; CustomerQuantity := 1 |};
                   {| Domain := "example.com"; CustomerQuantity := 2 |} ]
                 {| os.name := "out.csv"; os.written := []; os.fault := None |})).
Proof.
  assert (Forall (fun v => exporter.csvw.fieldNeedsQuotes (Domain v) = false)
            [ {| Domain := "acme.io"; CustomerQuantity := 1 |};
              {| Domain := "example.com"; CustomerQuantity := 2 |} ]) as H
    by (repeat constructor).
  split; [exact H|].
  exact (proj2 (printData_exportCsv _ (lit "out.csv")) H).
Defined.

(** ** The exporter *)

(** What [ExportData] does once the slice is not nil and the file is
    created. *)
Lemma ExportData_created (lg : slog.Logger) (ex : exporter.CustomerExporter)
    (rows : list DomainData) (fs : os.FileSystem) (out : list slog.Record_) :
  exporter.outputPath ex <> [] ->
  os.refused fs (exporter.outputPath ex) = false ->
  exists err log,
    exporter.ExportData lg ex (Some rows) fs out
    = (option_map exporter.WriteFailed err,
       {| os.files :=
            <[exporter.outputPath ex :=
                accepted (os.writeFault fs (exporter.outputPath ex)) (report rows)]>
              (os.files fs);
          os.refused := os.refused fs;
          os.writeFault := os.writeFault fs |},
       log)
    /\ (fits (os.writeFault fs (exporter.outputPath ex)) (length (report rows)) = true ->
        err = None)
    /\ (err <> None ->
        fits (os.writeFault fs (exporter.outputPath ex)) (length (report rows)) = false)
    /\ ((length (report rows) <= bufio.defaultBufSize)%nat -> err = None)
    /\ (infoDisabled lg = true -> log = out).
Proof.
  intros Hpath Hok. unfold exporter.ExportData, os.Create.
  destruct (exporter.outputPath ex) as [|c name] eqn:Hname; [done|]. rewrite Hok.
  set (f0 := {| os.name := c :: name; os.written := [];
                os.fault := os.writeFault fs (c :: name) |}).
  destruct (exportCsv_file rows f0) as (Hn & Hw & Hfit & Herr).
  pose proof (exportCsv_small rows f0) as Hsmall.
  destruct (exporter.exportCsv rows f0) as [err f]. cbn [fst snd] in *.
  assert (os.Close fs f
          = {| os.files := <[c :: name := accepted (os.writeFault fs (c :: name))
                                            (report rows)]> (os.files fs);
               os.refused := os.refused fs;
               os.writeFault := os.writeFault fs |}) as ->
    by (unfold os.Close; by rewrite Hn, Hw).
  exists err. destruct err as [e|]; eexists; (split; [reflexivity|]).
  - split; [intros H; by specialize (Hfit H)|]. split; [by auto|].
    split; [intros H; by specialize (Hsmall H)|].
    intros Hq. by rewrite Info_disabled.
  - split; [done|]. split; [done|]. split; [done|].
    intros Hq. by rewrite !Info_disabled.
Qed.

(** X14. What [ExportData] does to the file system.  It returns an error
    and leaves the file system as it was when the slice is nil or the
    output file cannot be created.  When the file is created it is left
    with what it took of the report and nothing of its former content,
    every other file being as it was: the whole report, and then no error
    is returned, when no write to the file fails; and an error is returned
    only when the file took less than the report. *)
Theorem ExportData_effect (lg : slog.Logger) (ex : exporter.CustomerExporter)
    (data : slice DomainData) (fs : os.FileSystem) (out : list slog.Record_) :
  let result := exporter.ExportData lg ex data fs out in
  (result.1.1 = None ->
     data <> nil_slice /\ exporter.outputPath ex <> []
     /\ os.refused fs (exporter.outputPath ex) = false)
  /\ (data = nil_slice \/ exporter.outputPath ex = []
      \/ os.refused fs (exporter.outputPath ex) = true ->
      result.1.1 <> None /\ result.1.2 = fs)
  /\ (forall rows,
        data = Some rows -> exporter.outputPath ex <> [] ->
        os.refused fs (exporter.outputPath ex) = false ->
        result.1.2
        = {| os.files :=
               <[exporter.outputPath ex :=
                   accepted (os.writeFault fs (exporter.outputPath ex)) (report rows)]>
                 (os.files fs);
             os.refused := os.refused fs;
             os.writeFault := os.writeFault fs |}
        /\ (fits (os.writeFault fs (exporter.outputPath ex)) (length (report rows))
            = true -> result.1.1 = None)
        /\ (result.1.1 <> None ->
            fits (os.writeFault fs (exporter.outputPath ex)) (length (report rows))
            = false)).
Proof.
  cbv zeta.
  assert (data = nil_slice \/ exporter.outputPath ex = []
          \/ os.refused fs (exporter.outputPath ex) = true ->
          (exporter.ExportData lg ex data fs out).1.1 <> None
          /\ (exporter.ExportData lg ex data fs out).1.2 = fs) as Hfail.
  { unfold exporter.ExportData, os.Create. destruct data as [rows|]; [|done].
    intros [?|[Hp|Hr]]; [done| |].
    - by rewrite Hp.
    - destruct (exporter.outputPath ex); [done|]. by rewrite Hr. }
  split; [|split; [exact Hfail|]].
  - intros Hnone. destruct data as [rows|]; [|by destruct Hfail; auto].
    destruct (decide (exporter.outputPath ex = [])) as [Hp|Hp];
      [by destruct Hfail; auto|].
    destruct (os.refused fs (exporter.outputPath ex)) eqn:Hr;
      [by destruct Hfail; auto|done].
  - intros rows -> Hp Hr.
    destruct (ExportData_created lg ex rows fs out Hp Hr)
      as (err & log & -> & Hfit & Herr & _ & _). cbn [fst snd].
    split; [done|]. split.
    + intros H. by rewrite (Hfit H).
    + intros H. apply Herr. by destruct err.
Qed.

Lemma ExportData_effect_witness :
  Some [ {| Domain := "acme.io"; CustomerQuantity := 1 |} ]
  = Some [ {| Domain := "acme.io"; CustomerQuantity := 1 |} ]
  /\ exporter.outputPath (exporter.NewCustomerExporter "out.csv") <> []
  /\ os.refused guardedFiles
       (exporter.outputPath (exporter.NewCustomerExporter "out.csv")) = false
  /\ os.files
       (exporter.ExportData (Some slog.LevelInfo) (exporter.NewCustomerExporter "out.csv")
          (Some [ {| Domain := "acme.io"; CustomerQuantity := 1 |} ]) guardedFiles
          []).1.2
     = <[lit "out.csv" := lit "domain,number_of_customers" ++ [main.newline]
                            ++ lit "acme.io,1" ++ [main.newline]]>
         (os.files guardedFiles).
Proof.
  split; [reflexivity|]. split; [discriminate|]. split; [reflexivity|].
  exact (f_equal os.files
           (proj1 (proj2 (proj2 (ExportData_effect (Some slog.LevelInfo)
                                   (exporter.NewCustomerExporter "out.csv")
                                   (Some [ {| Domain := "acme.io";
                                              CustomerQuantity := 1 |} ])
                                   guardedFiles [])) _ eq_refl ltac:(discriminate)
                    eq_refl))).
Defined.

(** X19. A report that fits in the buffer of the CSV writer is written by
    the deferred flush alone, whose error nobody looks at: whenever the
    file can be created [ExportData] returns no error and logs its success,
    though the file holds no more than it took before its fault. *)
Theorem ExportData_lost_flush_error (lg : slog.Logger) (ex : exporter.CustomerExporter)
    (rows : list DomainData) (fs : os.FileSystem) (out : list slog.Record_) :
  exporter.outputPath ex <> [] ->
  os.refused fs (exporter.outputPath ex) = false ->
  (length (report rows) <= bufio.defaultBufSize)%nat ->
  (exporter.ExportData lg ex (Some rows) fs out).1.1 = None
  /\ os.files (exporter.ExportData lg ex (Some rows) fs out).1.2
       !! exporter.outputPath ex
     = Some (accepted (os.writeFault fs (exporter.outputPath ex)) (report rows)).
Proof.
  intros Hp Hr Hlen.
  destruct (ExportData_created lg ex rows fs out Hp Hr)
    as (err & log & -> & _ & _ & Hsmall & _). cbn [fst snd os.files].
  rewrite (Hsmall Hlen). split; [done|]. by rewrite lookup_insert_eq.
Qed.

Lemma ExportData_lost_flush_error_witness :
  exporter.outputPath (exporter.NewCustomerExporter "/full/out.csv") <> []
  /\ os.refused guardedFiles
       (exporter.outputPath (exporter.NewCustomerExporter "/full/out.csv")) = false
  /\ (length (report [ {| Domain := "acme.io"; CustomerQuantity := 1 |} ])
      <= bufio.defaultBufSize)%nat
  /\ (exporter.ExportData (Some slog.LevelInfo)
        (exporter.NewCustomerExporter "/full/out.csv")
        (Some [ {| Domain := "acme.io"; CustomerQuantity := 1 |} ]) guardedFiles
        []).1.1 = None
  /\ os.files
       (exporter.ExportData (Some slog.LevelInfo)
          (exporter.NewCustomerExporter "/full/out.csv")
          (Some [ {| Domain := "acme.io"; CustomerQuantity := 1 |} ]) guardedFiles
          []).1.2 !! lit "/full/out.csv"
     = Some (lit "domain,number_of_customers" ++ [main.newline] ++ lit "acm").
Proof.
  assert (length (report [ {| Domain := "acme.io"; CustomerQuantity := 1 |} ])
          <= bufio.defaultBufSize)%nat as Hlen
    by (apply Nat.leb_le; vm_compute; reflexivity).
  split; [discriminate|]. split; [reflexivity|]. split; [exact Hlen|].
  exact (ExportData_lost_flush_error (Some slog.LevelInfo)
           (exporter.NewCustomerExporter "/full/out.csv")
           [ {| Domain := "acme.io"; CustomerQuantity := 1 |} ] guardedFiles []
           ltac:(discriminate) eq_refl Hlen).
Defined.

(** ** The program *)

Lemma import_success_some (lg : slog.Logger) (ord : RangeOrder) (fs : os.SourceFiles)
    (ci : CustomerImporter) (data : slice DomainData) :
  fst (ImportDomainData lg ord fs ci) = Returns (data, None) ->
  exists result, data = Some result.
Proof.
  rewrite ImportDomainData_fst. destruct (os.Open fs (path ci)) as [file|e]; [|done].
  destruct (csv.Read (csv.NewReader file)) as [[hdr [e|]] r]; [done|].
  destruct (loopCore _) as [[[m n]|e]|]; [|done..]. intros [= <-]. eauto.
Qed.

Lemma ExportData_refused (lg : slog.Logger) (ex : exporter.CustomerExporter)
    (rows : list DomainData) (fs : os.FileSystem) (out : list slog.Record_) :
  exporter.outputPath ex <> [] ->
  os.refused fs (exporter.outputPath ex) = true ->
  exists err log,
    exporter.ExportData lg ex (Some rows) fs out = (Some err, fs, log)
    /\ (infoDisabled lg = true -> log = out).
Proof.
  intros Hp Hr. unfold exporter.ExportData, os.Create.
  destruct (exporter.outputPath ex) as [|c name]; [done|]. rewrite Hr.
  do 2 eexists. split; [done|]. intros Hq. by rewrite Info_disabled.
Qed.

(** The run of the program once its options are read. *)
Lemma main_options (args : list str) (ord : RangeOrder) (duration : str)
    (sources : os.SourceFiles) (fs : os.FileSystem) (opts : main.Options) :
  main.readOptions args = inl opts ->
  main.main args ord duration sources fs
  = let lg := main.setupLogger (main.verbose opts) in
    let log := slog.Info lg [] "starting customer domain import"
                 [(lit "file", slog.StringValue (main.path opts))] in
    match ImportDomainData lg ord sources (NewCustomerImporter (main.path opts)) with
    | (Panics, out) =>
        {| main.exitCode := 2; main.stdout := [];
           main.stderr := map main.Logged (log ++ out); main.fileSystem := fs |}
    | (Returns (_, Some err), out) =>
        {| main.exitCode := 1; main.stdout := [];
           main.stderr :=
             map main.Logged
               (slog.Error lg (log ++ out) "failed to import customer data"
                  [(lit "error", slog.StringValue (errorText err));
                   (lit "file", slog.StringValue (main.path opts))]);
           main.fileSystem := fs |}
    | (Returns (data, None), out) =>
        let log := slog.Info lg (log ++ out) "import complete"
                     [(lit "domains",
                       slog.IntValue (Z.of_nat (length (default [] data))));
                      (lit "duration", slog.StringValue duration)] in
        match main.outFile opts with
        | [] =>
            {| main.exitCode := 0; main.stdout := main.printData data [];
               main.stderr := map main.Logged log; main.fileSystem := fs |}
        | _ =>
            match exporter.ExportData lg
                    (exporter.NewCustomerExporter (main.outFile opts)) data fs log with
            | (Some saveErr, fs, log) =>
                {| main.exitCode := 1; main.stdout := [];
                   main.stderr :=
                     map main.Logged
                       (slog.Error lg log "failed to export domain data"
                          [(lit "error",
                            slog.StringValue (exporter.exportErrorText saveErr));
                           (lit "file", slog.StringValue (main.outFile opts))]);
                   main.fileSystem := fs |}
            | (None, fs, log) =>
                {| main.exitCode := 0; main.stdout := [];
                   main.stderr :=
                     map main.Logged
                       (slog.Info lg log "export complete"
                          [(lit "file", slog.StringValue (main.outFile opts));
                           (lit "records",
                            slog.IntValue (Z.of_nat (length (default [] data))))]);
                   main.fileSystem := fs |}
            end
        end
    end.
Proof. intros H. unfold main.main. by rewrite H. Qed.

(** X15. The exit status is 0, 1 or 2, and 2 is the status of a flag
    error other than the request for help: the program does not panic.
    The status is 0 only for a request for help or for an import that
    succeeds with no output file asked for or one that can be created; and
    it is 0 whenever the import succeeds and no output file is asked for,
    or the file can be created and either takes the whole report or the
    report fits in the buffer of the CSV writer. *)
Theorem main_exit_code (args : list str) (ord : RangeOrder) (duration : str)
    (sources : os.SourceFiles) (fs : os.FileSystem) :
  let p := main.main args ord duration sources fs in
  (main.exitCode p = 0 \/ main.exitCode p = 1 \/ main.exitCode p = 2)
  /\ (main.exitCode p = 2 <->
        exists err, main.readOptions args = inr err /\ err <> flag.ErrHelp)
  /\ (main.exitCode p = 0 ->
        main.readOptions args = inr flag.ErrHelp
        \/ exists opts result,
             main.readOptions args = inl opts
             /\ fst (ImportDomainData (main.setupLogger (main.verbose opts)) ord
                       sources (NewCustomerImporter (main.path opts)))
                = Returns (Some result, None)
             /\ (main.outFile opts = []
                 \/ os.refused fs (main.outFile opts) = false))
  /\ (forall opts result,
        main.readOptions args = inl opts ->
        fst (ImportDomainData (main.setupLogger (main.verbose opts)) ord sources
               (NewCustomerImporter (main.path opts)))
        = Returns (Some result, None) ->
        main.outFile opts = []
        \/ (os.refused fs (main.outFile opts) = false
            /\ (fits (os.writeFault fs (main.outFile opts)) (length (report result))
                = true
                \/ (length (report result) <= bufio.defaultBufSize)%nat)) ->
        main.exitCode p = 0).
Proof.
  cbv zeta. destruct (main.readOptions args) as [opts|err] eqn:Hopts.
  2:{ unfold main.main. rewrite Hopts.
      assert (err = flag.ErrHelp \/ err <> flag.ErrHelp) as [->|Hne]
        by (destruct err; auto; right; discriminate).
      - cbn [main.exitCode]. split; [auto|].
        split; [split; [done|by intros (e & [= <-] & He)]|].
        split; [by left|]. by intros ? ? [=].
      - assert (main.exitCode
                  match err with
                  | flag.ErrHelp =>
                      {| main.exitCode := 0; main.stdout := [];
                         main.stderr := [main.Usage]; main.fileSystem := fs |}
                  | _ =>
                      {| main.exitCode := 2; main.stdout := [];
                         main.stderr := [main.FlagError err; main.Usage];
                         main.fileSystem := fs |}
                  end = 2) as -> by (by destruct err).
        split; [auto|]. split; [split; [intros _; by eexists|done]|].
        split; [done|]. by intros ? ? [=]. }
  rewrite (main_options args ord duration sources fs opts Hopts). cbv zeta.
  pose proof (ImportDomainData_no_panic (main.setupLogger (main.verbose opts)) ord
                sources (NewCustomerImporter (main.path opts))) as Hnp.
  pose proof (import_success_some (main.setupLogger (main.verbose opts)) ord sources
                (NewCustomerImporter (main.path opts))) as Hsome.
  destruct (ImportDomainData (main.setupLogger (main.verbose opts)) ord sources _)
    as [[[data [err|]]|] out] eqn:Himp; cbn [fst] in Hnp, Hsome; [| |done].
  - cbn [main.exitCode fst]. split; [auto|].
    split; [split; [done|by intros (e & [=] & _)]|].
    split; [done|]. intros o r [= <-] Hr _. by rewrite Himp in Hr.
  - destruct (Hsome data eq_refl) as [result ->].
    destruct (main.outFile opts) as [|c name] eqn:Hout.
    + cbn [main.exitCode fst]. split; [auto|].
      split; [split; [done|by intros (e & [=] & _)]|].
      split; [|done]. intros _. right. exists opts, result.
      rewrite Himp, Hout. auto.
    + set (ex := exporter.NewCustomerExporter (c :: name)).
      destruct (os.refused fs (c :: name)) eqn:Href.
      * match goal with
        | |- context [exporter.ExportData ?lg ex ?d fs ?o] =>
            destruct (ExportData_refused lg ex result fs o) as (e & log & -> & _);
              [done|done|]
        end.
        cbn [main.exitCode fst]. split; [auto|].
        split; [split; [done|by intros (e' & [=] & _)]|].
        split; [done|]. intros o r [= <-] Hr.
        rewrite Hout, Href. by intros [?|[? _]].
      * match goal with
        | |- context [exporter.ExportData ?lg ex ?d fs ?o] =>
            destruct (ExportData_created lg ex result fs o)
              as (e & log & -> & Hfit & _ & Hsmall & _); [done|done|]
        end.
        cbn [exporter.outputPath ex exporter.NewCustomerExporter] in Hfit, Hsmall.
        destruct e as [e|]; cbn [option_map main.exitCode fst].
        -- split; [auto|]. split; [split; [done|by intros (e' & [=] & _)]|].
           split; [done|]. intros o r [= <-] Hr. rewrite Himp in Hr.
           injection Hr as <-. rewrite Hout.
           intros [?|[_ [H|H]]]; [done|by specialize (Hfit H)|by specialize (Hsmall H)].
        -- split; [auto|]. split; [split; [done|by intros (e' & [=] & _)]|].
           split; [|done]. intros _. right. exists opts, result.
           rewrite Himp, Hout, Href. auto.
Qed.




(** X17. When the options are read and the import succeeds the result
    goes to one place only.  Without an output path it is printed on the
    standard output and the file system is not touched.  With one, nothing
    is printed: when the file cannot be created the file system is left as
    it was and the status is 1; when it can, the file is left with what it
    took of the report, every other file being as it was. *)
Theorem main_outputs (args : list str) (ord : RangeOrder) (duration : str)
    (sources : os.SourceFiles) (fs : os.FileSystem) (opts : main.Options)
    (result : list DomainData) :
  main.readOptions args = inl opts ->
  fst (ImportDomainData (main.setupLogger (main.verbose opts)) ord sources
         (NewCustomerImporter (main.path opts)))
  = Returns (Some result, None) ->
  let p := main.main args ord duration sources fs in
  (main.outFile opts = [] ->
     main.stdout p = main.printData (Some result) [] /\ main.fileSystem p = fs)
  /\ (main.outFile opts <> [] ->
        main.stdout p = []
        /\ (os.refused fs (main.outFile opts) = true ->
              main.fileSystem p = fs /\ main.exitCode p = 1)
        /\ (os.refused fs (main.outFile opts) = false ->
              main.fileSystem p
              = {| os.files :=
                     <[main.outFile opts :=
                         accepted (os.writeFault fs (main.outFile opts))
                           (report result)]> (os.files fs);
                   os.refused := os.refused fs;
                   os.writeFault := os.writeFault fs |})).
Proof.
  intros Hopts Himp. cbv zeta.
  rewrite (main_options args ord duration sources fs opts Hopts). cbv zeta.
  destruct (ImportDomainData _ _ _ _) as [[[data [err|]]|] out];
    cbn [fst] in Himp; [done| |done].
  injection Himp as ->.
  destruct (main.outFile opts) as [|c name] eqn:Hout.
  - cbn [main.stdout main.fileSystem]. split; [done|]. by intros ?.
  - split; [done|]. intros _.
    set (ex := exporter.NewCustomerExporter (c :: name)).
    destruct (os.refused fs (c :: name)) eqn:Href.
    + match goal with
      | |- context [exporter.ExportData ?lg ex ?d fs ?o] =>
          destruct (ExportData_refused lg ex result fs o) as (e & log & -> & _);
            [done|done|]
      end.
      cbn [main.stdout main.fileSystem main.exitCode]. by repeat split.
    + match goal with
      | |- context [exporter.ExportData ?lg ex ?d fs ?o] =>
          destruct (ExportData_created lg ex result fs o)
            as (e & log & -> & _); [done|done|]
      end.
      cbn [exporter.outputPath ex exporter.NewCustomerExporter].
      destruct e as [e|]; cbn [option_map main.stdout main.fileSystem];
        by repeat split.
Qed.

Lemma main_outputs_witness :
  main.readOptions [lit "-out=/full/out.csv"; lit "-path"; lit "customers.csv"]
  = inl {| main.path := "customers.csv"; main.outFile := "/full/out.csv";
           main.verbose := false |}
  /\ fst (ImportDomainData (main.setupLogger false) listedOrder moreFiles
            (NewCustomerImporter "customers.csv"))
     = Returns (Some [ {| Domain := "acme.io"; CustomerQuantity := 1 |};
                       {| Domain := "example.com"; CustomerQuantity := 2 |} ], None)
  /\ os.files
       (main.fileSystem
          (main.main [lit "-out=/full/out.csv"; lit "-path"; lit "customers.csv"]
             listedOrder (lit "1ms") moreFiles guardedFiles))
     = <[lit "/full/out.csv" := lit "domain,number_of_customers" ++ [main.newline]
                                  ++ lit "acm"]> (os.files guardedFiles).
Proof.
  assert (main.readOptions [lit "-out=/full/out.csv"; lit "-path"; lit "customers.csv"]
          = inl {| main.path := "customers.csv"; main.outFile := "/full/out.csv";
                   main.verbose := false |}) as Ho by (vm_compute; reflexivity).
  assert (fst (ImportDomainData (main.setupLogger false) listedOrder moreFiles
                 (NewCustomerImporter "customers.csv"))
          = Returns (Some [ {| Domain := "acme.io"; CustomerQuantity := 1 |};
                            {| Domain := "example.com"; CustomerQuantity := 2 |} ],
                     None)) as H by (vm_compute; reflexivity).
  split; [exact Ho|]. split; [exact H|].
  exact (f_equal os.files
           (proj2 (proj2 (proj2 (main_outputs _ listedOrder (lit "1ms") moreFiles
                                   guardedFiles _ _ Ho H) ltac:(discriminate)))
              eq_refl)).
Defined.

Lemma Error_level (lg : slog.Logger) (out : list slog.Record_) (msg : str)
    (attrs : list (str * slog.Value)) :
  Forall (fun r => slog.RLevel r = slog.LevelError) out ->
  Forall (fun r => slog.RLevel r = slog.LevelError) (slog.Error lg out msg attrs).
Proof.
  intros H. unfold slog.Error, slog.log. destruct lg as [level|]; [|done].
  destruct (_ <=? _); [|done]. apply Forall_app. split; [done|]. by repeat constructor.
Qed.

Lemma Logged_level (log : list slog.Record_) :
  Forall (fun r => slog.RLevel r = slog.LevelError) log ->
  Forall (fun line => exists r, line = main.Logged r
                                /\ slog.RLevel r = slog.LevelError)
    (map main.Logged log).
Proof. induction 1; constructor; eauto. Qed.

(** X18. When the options are read and [-verbose] is not set, the
    standard error carries records of the logger at the level of errors
    only, and nothing at all when the program exits with status 0. *)
Theorem main_quiet (args : list str) (ord : RangeOrder) (duration : str)
    (sources : os.SourceFiles) (fs : os.FileSystem) (opts : main.Options) :
  main.readOptions args = inl opts ->
  main.verbose opts = false ->
  let p := main.main args ord duration sources fs in
  Forall (fun line => exists r, line = main.Logged r
                                /\ slog.RLevel r = slog.LevelError) (main.stderr p)
  /\ (main.exitCode p = 0 -> main.stderr p = []).
Proof.
  intros Hopts Hv. cbv zeta.
  rewrite (main_options args ord duration sources fs opts Hopts). cbv zeta.
  rewrite Hv.
  assert (infoDisabled (main.setupLogger false) = true) as Hq by reflexivity.
  set (lg := main.setupLogger false) in *.
  pose proof (ImportDomainData_quiet lg ord sources (NewCustomerImporter (main.path opts))
                Hq) as Hlog.
  pose proof (import_success_some lg ord sources (NewCustomerImporter (main.path opts)))
    as Hsome.
  rewrite !Info_disabled by done.
  destruct (ImportDomainData _ _ _ _) as [[[data [err|]]|] out];
    cbn [fst snd] in Hlog, Hsome.
  - cbn [main.stderr main.exitCode]. split; [|done].
    apply Logged_level, Error_level. destruct Hlog as [->|[Hrec _]]; [done|].
    eapply Forall_impl; [exact Hrec|]. by intros r [? _].
  - destruct (Hsome data eq_refl) as [result ->].
    destruct Hlog as [->|[_ [e [=]]]]. cbn [app].
    destruct (main.outFile opts) as [|c name] eqn:Hout.
    + cbn [main.stderr]. split; [constructor|done].
    + set (ex := exporter.NewCustomerExporter (c :: name)).
      destruct (os.refused fs (c :: name)) eqn:Href.
      * match goal with
        | |- context [exporter.ExportData lg ex ?d fs ?o] =>
            destruct (ExportData_refused lg ex result fs o) as (e & log & -> & Hlog);
              [done|done|]
        end.
        rewrite (Hlog Hq). cbn [main.stderr main.exitCode]. split; [|done].
        by apply Logged_level, Error_level.
      * match goal with
        | |- context [exporter.ExportData lg ex ?d fs ?o] =>
            destruct (ExportData_created lg ex result fs o)
              as (e & log & -> & _ & _ & _ & Hlog); [done|done|]
        end.
        rewrite (Hlog Hq).
        destruct e as [e|]; cbn [option_map main.stderr main.exitCode].
        -- split; [|done]. by apply Logged_level, Error_level.
        -- rewrite Info_disabled by done. split; [constructor|done].
  - cbn [main.stderr main.exitCode]. split; [|done].
    apply Logged_level. destruct Hlog as [->|[Hrec _]]; [done|].
    eapply Forall_impl; [exact Hrec|]. by intros r [? _].
Qed.

Lemma main_quiet_witness :
  main.readOptions [lit "-path=customers.csv"]
  = inl {| main.path := "customers.csv"; main.outFile := ""; main.verbose := false |}
  /\ main.verbose {| main.path := "customers.csv"; main.outFile := "";
                     main.verbose := false |} = false
  /\ main.stderr
       (main.main [lit "-path=customers.csv"] listedOrder (lit "1ms") moreFiles
          guardedFiles)
     = [].
Proof.
  assert (main.readOptions [lit "-path=customers.csv"]
          = inl {| main.path := "customers.csv"; main.outFile := "";
                   main.verbose := false |}) as Ho by (vm_compute; reflexivity).
  split; [exact Ho|]. split; [reflexivity|].
  exact (proj2 (main_quiet _ listedOrder (lit "1ms") moreFiles guardedFiles _ Ho
                  eq_refl)
           ltac:(vm_compute; reflexivity)).
Defined.

(** ** Further scenarios *)

(** The error of the CSV reader names the line of the record: the same
    short row fails on line 2 after the header and on line 3 after a blank
    line, with errors of the same kind. *)
Example scenario_line_of_error :
  fst (ImportDomainData (Some slog.LevelInfo) listedOrder shiftedFiles
         (NewCustomerImporter "next_line.csv"))
  = Returns (nil_slice, Some (wrongFieldCount 2))
  /\ fst (ImportDomainData (Some slog.LevelInfo) listedOrder shiftedFiles
            (NewCustomerImporter "blank_line.csv"))
     = Returns (nil_slice, Some (wrongFieldCount 3))
  /\ errorText (wrongFieldCount 2) = lit "record on line 2: wrong number of fields"
  /\ errorText (wrongFieldCount 3) = lit "record on line 3: wrong number of fields"
  /\ errorKind (wrongFieldCount 2) = errorKind (wrongFieldCount 3).
Proof. repeat split; vm_compute; reflexivity. Qed.

(** A report longer than the buffer of the CSV writer, on a device that is
    full after 30 bytes: the write fails while the entries are written, the
    error is returned, and the file is left with the 30 bytes. *)
Example scenario_write_error :
  exporter.ExportData (Some slog.LevelError)
    (exporter.NewCustomerExporter "/full/out.csv")
    (Some [ {| Domain := repeat "a"%char 5000; CustomerQuantity := 1 |} ])
    guardedFiles []
  = (Some (exporter.WriteFailed
             (io.FileError {| os.Op := "write"; os.Path := "/full/out.csv";
                              os.Err := "no space left on device" |})),
     {| os.files :=
          <[lit "/full/out.csv" := lit "domain,number_of_customers" ++ [main.newline]
                                     ++ lit "aaa"]> (os.files guardedFiles);
        os.refused := os.refused guardedFiles;
        os.writeFault := os.writeFault guardedFiles |},
     [])
  /\ exporter.exportErrorText
       (exporter.WriteFailed
          (io.FileError {| os.Op := "write"; os.Path := "/full/out.csv";
                           os.Err := "no space left on device" |}))
     = lit "write /full/out.csv: no space left on device".
Proof. split; vm_compute; reflexivity. Qed.

(** The flags: an unknown flag, a boolean flag with a bad value and a flag
    without its value end the program with status 2; a request for help
    with status 0; the flags are read up to the first argument that is not
    one. *)
Example scenario_flags :
  main.readOptions [lit "-bogus"] = inr (flag.NotDefined "bogus")
  /\ main.readOptions [lit "-verbose=maybe"] = inr (flag.InvalidBoolean "maybe" "verbose")
  /\ main.readOptions [lit "--out"] = inr (flag.NeedsArgument "out")
  /\ main.readOptions [lit "-h"] = inr flag.ErrHelp
  /\ main.readOptions [lit "--verbose"; lit "-out"; lit "-x"; lit "file"; lit "-path=p"]
     = inl {| main.path := "./customers.csv"; main.outFile := "-x";
              main.verbose := true |}
  /\ main.exitCode (main.main [lit "-bogus"] listedOrder (lit "1ms") moreFiles
                      guardedFiles) = 2
  /\ main.main [lit "-h"] listedOrder (lit "1ms") moreFiles guardedFiles
     = {| main.exitCode := 0; main.stdout := []; main.stderr := [main.Usage];
          main.fileSystem := guardedFiles |}.
Proof. repeat split; vm_compute; reflexivity. Qed.
